(** * csv-to-json-api: a shallow embedding of the ingestion pipeline

    The development follows the layout of the repository:

    - [Js]              the pieces of the JavaScript runtime the code relies on
                        (strings, [trim], [split], [parseInt], plain objects);
    - [CSVParser]       services/csvParser.js;
    - [Assembler]       the record assembler in the words of the specification,
                        to compare [CSVParser.parseCSVContent] with;
    - [ObjectBuilder]   utils/objectBuilder.js;
    - [UserService]     services/userService.js, over an abstract storage engine;
    - [TableEngine]     a small transactional table, to run the service on;
    - [PostgresEngine]  PostgreSQL's rule for an error inside a transaction;
    - [AgeDistribution] utils/ageDistribution.js: [calculate];
    - [CSVFormat]       the quoting and the line endings the tokenizer reads,
                        and [parseCSV] over a file system;
    - [FlatRecords]     conditions on the keys of a flat record;
    - [Tracing]         the engine with a log of what it was sent;
    - [AgeReport]       utils/ageDistribution.js: [printReport] and
                        [getDistributionFromDB];
    - [UploadRoutes]    routes/upload.routes.js: [POST /process] and
                        [GET /distribution].

    The modules of definitions come first; the modules named [...Facts]
    hold the lemmas and theorems about them, in the same order.

    Strings are sequences of 8-bit characters, read as the code units
    U+0000..U+00FF of a JavaScript string. *)

From Stdlib Require Import String Ascii List ZArith Lia Bool Arith DecimalString DecimalPos.
From Stdlib Require PrimFloat FloatOps SpecFloat Uint63.
Import ListNotations.
Local Open Scope string_scope.
Local Open Scope list_scope.

(* ================================================================== *)
(** * The JavaScript runtime: strings *)
(* ================================================================== *)

Module Js.

Definition LF : ascii := "010"%char.
Definition CR : ascii := "013"%char.
Definition dquote : ascii := "034"%char.
Definition comma : ascii := ","%char.
Definition dot : ascii := "."%char.

(** [s + c] for a single character [c]. *)
Definition snoc (s : string) (c : ascii) : string := (s ++ String c EmptyString)%string.

(** WhiteSpace and LineTerminator code units below 256: TAB, LF, VT, FF, CR,
    SP and NBSP.  These are the characters [String.prototype.trim] strips
    and [parseInt] skips. *)
Definition isWhiteSpace (c : ascii) : bool :=
  let n := nat_of_ascii c in
  ((9 <=? n)%nat && (n <=? 13)%nat) || (n =? 32)%nat || (n =? 160)%nat.

Fixpoint trimStart (s : string) : string :=
  match s with
  | EmptyString => EmptyString
  | String c s' => if isWhiteSpace c then trimStart s' else s
  end.

Fixpoint trimEnd (s : string) : string :=
  match s with
  | EmptyString => EmptyString
  | String c s' =>
      match trimEnd s' with
      | EmptyString => if isWhiteSpace c then EmptyString else String c EmptyString
      | t => String c t
      end
  end.

(** [String.prototype.trim]. *)
Definition trim (s : string) : string := trimEnd (trimStart s).

(** [s.split(/\r?\n|\r/)]: the separators are CR LF, LF and CR, tried in
    that order at every position.  The separator cannot match the empty
    string, so the result always holds at least one piece. *)
Fixpoint split_lines (s : string) : list string :=
  match s with
  | EmptyString => [EmptyString]
  | String c rest =>
      if Ascii.eqb c CR then
        match rest with
        | String c' rest' =>
            if Ascii.eqb c' LF then EmptyString :: split_lines rest'
            else EmptyString :: split_lines rest
        | EmptyString => EmptyString :: split_lines rest
        end
      else if Ascii.eqb c LF then EmptyString :: split_lines rest
      else
        match split_lines rest with
        | piece :: pieces => String c piece :: pieces
        | [] => [String c EmptyString]
        end
  end.

(** [s.split(sep)] for a one-character separator. *)
Fixpoint split_on (sep : ascii) (s : string) : list string :=
  match s with
  | EmptyString => [EmptyString]
  | String c rest =>
      if Ascii.eqb c sep then EmptyString :: split_on sep rest
      else
        match split_on sep rest with
        | piece :: pieces => String c piece :: pieces
        | [] => [String c EmptyString]
        end
  end.

(** [fields.join(sep)]. *)
Definition join (sep : string) (fields : list string) : string :=
  String.concat sep fields.

Fixpoint string_forallb (p : ascii -> bool) (s : string) : bool :=
  match s with
  | EmptyString => true
  | String c s' => p c && string_forallb p s'
  end.

(** How a statement or a call completes: normally with a value, or by
    throwing an [Error] whose [message] is given. *)
Inductive completion (A : Type) : Type :=
  | Normal (a : A)
  | Throw (message : string).
Arguments Normal {A} a.
Arguments Throw {A} message.

(** The decimal digits of a non-negative integer, as template literals
    print [values.length] and the like. *)
Definition nat_to_string (n : nat) : string :=
  NilEmpty.string_of_uint (Nat.to_uint n).

(** ** Plain objects

    An object is the ordered list of its own properties, in the order
    [Object.entries] lists them: array-index names (canonical decimal
    numerals below 2^32 - 1) first, by ascending value, then every other
    name in the order of creation.  Assigning to an existing property keeps
    its place. *)

Definition isDigit (c : ascii) : bool :=
  let n := nat_of_ascii c in (48 <=? n)%nat && (n <=? 57)%nat.

Definition digit_value (c : ascii) : N := N.of_nat (nat_of_ascii c - 48).

Fixpoint digits_value (s : string) (acc : N) : option N :=
  match s with
  | EmptyString => Some acc
  | String c s' =>
      if isDigit c then digits_value s' (acc * 10 + digit_value c)%N else None
  end.

Definition array_index (k : string) : option N :=
  match k with
  | EmptyString => None
  | String c rest =>
      if Ascii.eqb c "0"%char then
        match rest with EmptyString => Some 0%N | _ => None end
      else
        match digits_value k 0%N with
        | Some n => if (n <? 2 ^ 32 - 1)%N then Some n else None
        | None => None
        end
  end.

Section Props.
Context {V : Type}.

Definition props : Type := list (string * V).

(** [o[k]] on own properties; [None] is [undefined]. *)
Fixpoint prop_get (k : string) (o : props) : option V :=
  match o with
  | [] => None
  | (k', v') :: o' => if String.eqb k' k then Some v' else prop_get k o'
  end.

Definition prop_has (k : string) (o : props) : bool :=
  match prop_get k o with Some _ => true | None => false end.

Fixpoint prop_update (k : string) (v : V) (o : props) : props :=
  match o with
  | [] => []
  | (k', v') :: o' =>
      if String.eqb k' k then (k, v) :: o' else (k', v') :: prop_update k v o'
  end.

Fixpoint prop_insert_index (n : N) (k : string) (v : V) (o : props) : props :=
  match o with
  | [] => [(k, v)]
  | (k', v') :: o' =>
      match array_index k' with
      | Some n' =>
          if (n' <? n)%N then (k', v') :: prop_insert_index n k v o'
          else (k, v) :: o
      | None => (k, v) :: o
      end
  end.

Definition prop_create (k : string) (v : V) (o : props) : props :=
  match array_index k with
  | Some n => prop_insert_index n k v o
  | None => o ++ [(k, v)]
  end.

(** [o[k] = v] creating or overwriting an own data property. *)
Definition prop_set (k : string) (v : V) (o : props) : props :=
  if prop_has k o then prop_update k v o else prop_create k v o.

Definition prop_keys (o : props) : list string := map fst o.
End Props.
Arguments props V : clear implicits.

(** The one property name an object literal inherits as an accessor:
    [o["__proto__"]] reads the shared [Object.prototype], and an assignment
    [o["__proto__"] = v] goes to the inherited setter, which creates no own
    property (and ignores a string [v] altogether). *)
Definition proto_name : string := "__proto__".

(** ** [parseInt]

    [parseInt(s)] with no radix: leading white space is skipped, then an
    optional sign, then an optional [0x] or [0X] selecting radix 16; the
    longest run of digits of the radix is the value, and no digit at all is
    [NaN], here [None].  The integer is the mathematical value of the
    digits; the Number the runtime returns is that integer up to 2^53 and
    its rounding above. *)
Definition radix_digit (radix : N) (c : ascii) : option N :=
  let n := N.of_nat (nat_of_ascii c) in
  let d :=
    if (48 <=? n)%N && (n <=? 57)%N then Some (n - 48)%N
    else if (97 <=? n)%N && (n <=? 122)%N then Some (n - 87)%N
    else if (65 <=? n)%N && (n <=? 90)%N then Some (n - 55)%N
    else None in
  match d with
  | Some d => if (d <? radix)%N then Some d else None
  | None => None
  end.

Fixpoint digits_prefix (radix : N) (s : string) (acc : option N) : option N :=
  match s with
  | EmptyString => acc
  | String c s' =>
      match radix_digit radix c with
      | Some d =>
          digits_prefix radix s'
            (Some (match acc with Some a => a | None => 0 end * radix + d)%N)
      | None => acc
      end
  end.

Definition parseInt (input : string) : option Z :=
  let s := trimStart input in
  let '(sign, s) :=
    match s with
    | String c s' =>
        if Ascii.eqb c "-"%char then ((-1)%Z, s')
        else if Ascii.eqb c "+"%char then (1%Z, s')
        else (1%Z, s)
    | EmptyString => (1%Z, s)
    end in
  let '(radix, s) :=
    match s with
    | String c0 (String c1 s') =>
        if Ascii.eqb c0 "0"%char && (Ascii.eqb c1 "x"%char || Ascii.eqb c1 "X"%char)
        then (16%N, s') else (10%N, s)
    | _ => (10%N, s)
    end in
  match digits_prefix radix s None with
  | Some n => Some (sign * Z.of_N n)%Z
  | None => None
  end.

(** ** Numbers that hold an integer

    What [parseInt] returns when it is not [NaN]: a finite double whose
    value is an integer, or an infinity.  [to_Number z] is the Number value
    for the mathematical integer [z]: [z] itself below 2^53 in magnitude,
    and above that the nearest double, the one with the even significand on
    a tie, and an infinity from 2^1024 - 2^970 on. *)
Inductive JsNumber : Type :=
  | Finite (z : Z)
  | Infinite (negative : bool).

Definition to_Number (z : Z) : JsNumber :=
  let m := Z.abs z in
  if (m <? 2 ^ 53)%Z then Finite z
  else
    let e := (Z.log2 m - 52)%Z in
    let q := (m / 2 ^ e)%Z in
    let r := (m mod 2 ^ e)%Z in
    let half := (2 ^ (e - 1))%Z in
    let q' :=
      if (r <? half)%Z then q
      else if (half <? r)%Z then (q + 1)%Z
      else if Z.even q then q else (q + 1)%Z in
    let v := (q' * 2 ^ e)%Z in
    if (2 ^ 1024 <=? v)%Z then Infinite (z <? 0)%Z
    else Finite (Z.sgn z * v)%Z.

(** The integer held by the double that the primitive floats make of a
    non-negative integer below 2^63, to compare [to_Number] with. *)
Definition double_of_uint63 (z : Z) : option Z :=
  match FloatOps.Prim2SF (PrimFloat.of_uint63 (Uint63.of_Z z)) with
  | SpecFloat.S754_zero _ => Some 0%Z
  | SpecFloat.S754_finite _ m e =>
      Some (if (0 <=? e)%Z then Z.pos m * 2 ^ e else Z.pos m / 2 ^ (- e))%Z
  | _ => None
  end.

End Js.

(* ================================================================== *)
(** * services/csvParser.js: the tokenizer *)
(* ================================================================== *)

Module CSVParser.
Import Js.

(** The scan of [parseLine]: [line] is what is left of the line from index
    [i] on; [values], [currentValue] and [insideQuotes] are the loop's
    variables.  On an escaped quote the loop index advances twice. *)
Fixpoint parseLine_loop (line : string) (values : list string)
    (currentValue : string) (insideQuotes : bool) : list string :=
  match line with
  | EmptyString => values ++ [currentValue]
  | String char rest =>
      if Ascii.eqb char dquote then
        match insideQuotes, rest with
        | true, String nextChar rest' =>
            if Ascii.eqb nextChar dquote
            then parseLine_loop rest' values (snoc currentValue dquote) insideQuotes
            else parseLine_loop rest values currentValue (negb insideQuotes)
        | _, _ => parseLine_loop rest values currentValue (negb insideQuotes)
        end
      else if Ascii.eqb char comma && negb insideQuotes then
        parseLine_loop rest (values ++ [currentValue]) EmptyString insideQuotes
      else
        parseLine_loop rest values (snoc currentValue char) insideQuotes
  end.

Definition parseLine (line : string) : list string :=
  parseLine_loop line [] EmptyString false.

Definition splitIntoLines (content : string) : list string :=
  split_lines content.

(** A parsed row: flat dot-path key to string value. *)
Definition FlatRecord : Type := props string.

(** [record[key] = value] on the object literal [record], for a string
    [value]. *)
Definition record_assign (key value : string) (record : FlatRecord) : FlatRecord :=
  if String.eqb key proto_name then record else prop_set key value record.

(** The inner loop [for (j = 0; j < headers.length; j++)], entered only
    with [values.length === headers.length]. *)
Fixpoint fill_record (headers values : list string) (record : FlatRecord) : FlatRecord :=
  match headers, values with
  | h :: headers', v :: values' =>
      fill_record headers' values' (record_assign (trim h) (trim v) record)
  | _, _ => record
  end.

Definition skip_warning (i values_length headers_length : nat) : string :=
  "Warning: Line " ++ nat_to_string (i + 1) ++ " has " ++ nat_to_string values_length
  ++ " values but expected " ++ nat_to_string headers_length ++ ". Skipping.".

(** The loop [for (i = 1; i < lines.length; i++)]: [lines] is
    [lines[i..]], [records] the array being filled and [console] the
    messages passed to [console.warn] so far. *)
Fixpoint rows_loop (headers : list string) (i : nat) (lines : list string)
    (records : list FlatRecord) (console : list string)
  : list FlatRecord * list string :=
  match lines with
  | [] => (records, console)
  | raw :: lines' =>
      let line := trim raw in
      if String.eqb line EmptyString then
        rows_loop headers (S i) lines' records console
      else
        let values := parseLine line in
        if negb (length values =? length headers)%nat then
          rows_loop headers (S i) lines' records
            (console ++ [skip_warning i (length values) (length headers)])
        else
          let record := fill_record headers values [] in
          rows_loop headers (S i) lines' (records ++ [record]) console
  end.

(** [parseCSVContent]: what it returns or throws, and what it wrote to
    [console.warn]. *)
Definition parseCSVContent (csvContent : string)
  : completion (list FlatRecord) * list string :=
  let lines := splitIntoLines csvContent in
  match lines with
  | [] => (Throw "CSV file is empty", [])
  | first :: rest =>
      let headers := parseLine first in
      let (records, console) := rows_loop headers 1 rest [] [] in
      (Normal records, console)
  end.

(** A field of a well-formed row: no delimiter and no quote character. *)
Definition plainChar (c : ascii) : bool :=
  negb (Ascii.eqb c comma) && negb (Ascii.eqb c dquote).

Definition plainField (f : string) : bool := string_forallb plainChar f.

End CSVParser.

(* ================================================================== *)
(** * The record assembler, as the specification words it (section 4.2) *)
(* ================================================================== *)

Module Assembler.
Import Js CSVParser.

(** The tokenized row of a line: the line is trimmed first. *)
Definition row_of (line : string) : list string := parseLine (trim line).

Definition blank (line : string) : bool := String.eqb (trim line) EmptyString.

(** A data row the assembler keeps: not blank, as many fields as the header. *)
Definition matches (header : list string) (line : string) : bool :=
  negb (blank line) && (length (row_of line) =? length header)%nat.

(** A data row the assembler skips with a diagnostic: not blank, and a
    field count other than the header's. *)
Definition mismatched (header : list string) (line : string) : bool :=
  negb (blank line) && negb (length (row_of line) =? length header)%nat.

(** The mapping that takes trimmed header field [i] to trimmed value field
    [i], assigned for [i] ascending. *)
Definition zip_record (header row : list string) : FlatRecord :=
  fold_left (fun record hv => record_assign (fst hv) (snd hv) record)
    (combine (map trim header) (map trim row)) [].

Definition assemble_row (header : list string) (line : string) : list FlatRecord :=
  if matches header line then [zip_record header (row_of line)] else [].

Definition assemble (header : list string) (lines : list string) : list FlatRecord :=
  flat_map (assemble_row header) lines.

(** One diagnostic per mismatched row; [i] is the index of the first of
    [lines] in the file. *)
Fixpoint diagnostics (header : list string) (i : nat) (lines : list string) : list string :=
  match lines with
  | [] => []
  | line :: lines' =>
      (if mismatched header line
       then [skip_warning i (length (row_of line)) (length header)] else [])
      ++ diagnostics header (S i) lines'
  end.

(** What zipping means on a mapping: every key is a trimmed header field,
    and header field [i] is mapped to value field [i] unless a later header
    field has the same trimmed name (keys are unique, the later column is
    the one kept) or the name is the inherited [__proto__]. *)
Definition zipped (header row : list string) (record : FlatRecord) : Prop :=
  (forall k, In k (prop_keys record) -> In k (map trim header))
  /\ (forall i h v,
         nth_error header i = Some h ->
         nth_error row i = Some v ->
         trim h <> proto_name ->
         (forall j h', i < j -> nth_error header j = Some h' -> trim h' <> trim h) ->
         prop_get (trim h) record = Some (trim v)).

End Assembler.

(* ================================================================== *)
(** * utils/objectBuilder.js *)
(* ================================================================== *)

Module ObjectBuilder.
Import Js CSVParser.

#[local] Set Warnings "-register-all".

(** What a nested record holds: a string, or another plain object. *)
Inductive Value : Type :=
  | VStr (s : string)
  | VObj (o : list (string * Value)).

Definition Obj : Type := props Value.

(** [current[lastKey] = value] for a string [value]. *)
Definition assign_leaf (lastKey value : string) (current : Obj) : Obj :=
  if String.eqb lastKey proto_name then current
  else prop_set lastKey (VStr value) current.

(** The walk of [setNestedProperty] from [current] along [keys].  The
    test [!current[key] || typeof current[key] !== 'object'] holds for a
    missing property, for a string and for an inherited method alike, and
    fails for an own object only.  At an intermediate [__proto__] the walk
    would step into the shared [Object.prototype]: the embedding stops
    there with [None], it does not follow writes that leave the record. *)
Fixpoint set_along (keys : list string) (current : Obj) (value : string) : option Obj :=
  match keys with
  | [] => Some current
  | [lastKey] => Some (assign_leaf lastKey value current)
  | key :: rest =>
      if String.eqb key proto_name then None
      else
        let child :=
          match prop_get key current with
          | Some (VObj c) => c
          | _ => []
          end in
        match set_along rest child value with
        | Some child' => Some (prop_set key (VObj child') current)
        | None => None
        end
  end.

Definition setNestedProperty (obj : Obj) (path value : string) : option Obj :=
  set_along (split_on dot path) obj value.

(** The loop [for (const [key, value] of Object.entries(flatObject))]. *)
Fixpoint build_loop (entries : list (string * string)) (result : Obj) : option Obj :=
  match entries with
  | [] => Some result
  | (key, value) :: entries' =>
      match setNestedProperty result key value with
      | Some result' => build_loop entries' result'
      | None => None
      end
  end.

Definition buildNestedObject (flatObject : FlatRecord) : option Obj :=
  build_loop flatObject [].

Record PersistableUser : Type := {
  name : string;
  age : JsNumber;
  address : option Value;
  additional_info : option Obj
}.

(** [x?.field] for [x] read from a record: [undefined] for a missing [x],
    for a string and for an object without the field. *)
Definition member (x : option Value) (field : string) : option Value :=
  match x with
  | Some (VObj o) => prop_get field o
  | _ => None
  end.

(** [x || ''] and [x || null]: a missing value and the empty string are
    falsy. *)
Definition truthy (x : option Value) : option Value :=
  match x with
  | Some (VStr s) => if String.eqb s EmptyString then None else x
  | _ => x
  end.

Definition or_empty (x : option Value) : Value :=
  match truthy x with
  | Some v => v
  | None => VStr EmptyString
  end.

(** [ToString]: an object prints as [[object Object]] through the
    inherited [toString]; an own property of that name holds a string or an
    object here, never a function, and the conversion then throws. *)
Definition ToString (v : Value) : completion string :=
  match v with
  | VStr s => Normal s
  | VObj o =>
      if prop_has "toString" o
      then Throw "Cannot convert object to primitive value"
      else Normal "[object Object]"
  end.

(** [parseInt(x) || 0]: [NaN] and both zeros are falsy. *)
Definition parseInt_or_0 (x : option Value) : completion JsNumber :=
  match x with
  | None => Normal (Finite 0)
  | Some v =>
      match ToString v with
      | Normal s =>
          Normal (match parseInt s with Some z => to_Number z | None => Finite 0 end)
      | Throw m => Throw m
      end
  end.

Definition mandatory_key (key : string) : bool :=
  String.eqb key "name" || String.eqb key "age" || String.eqb key "address".

(** [additionalInfo[key] = value]. *)
Definition info_assign (key : string) (value : Value) (additionalInfo : Obj) : Obj :=
  if String.eqb key proto_name then additionalInfo
  else prop_set key value additionalInfo.

Fixpoint additional_loop (entries : Obj) (additionalInfo : Obj) : Obj :=
  match entries with
  | [] => additionalInfo
  | (key, value) :: entries' =>
      if negb (mandatory_key key)
      then additional_loop entries' (info_assign key value additionalInfo)
      else additional_loop entries' additionalInfo
  end.

Definition separateMandatoryFields (nestedObject : Obj) : completion PersistableUser :=
  let firstName := or_empty (member (prop_get "name" nestedObject) "firstName") in
  let lastName := or_empty (member (prop_get "name" nestedObject) "lastName") in
  match parseInt_or_0 (prop_get "age" nestedObject) with
  | Throw m => Throw m
  | Normal mandatory_age =>
      let mandatory_address := truthy (prop_get "address" nestedObject) in
      match ToString firstName with
      | Throw m => Throw m
      | Normal first =>
          match ToString lastName with
          | Throw m => Throw m
          | Normal last =>
              let fullName := trim (first ++ " " ++ last) in
              let additionalInfo := additional_loop nestedObject [] in
              Normal {| name := fullName;
                        age := mandatory_age;
                        address := mandatory_address;
                        additional_info :=
                          if (0 <? length (prop_keys additionalInfo))%nat
                          then Some additionalInfo else None |}
          end
      end
  end.

(** Builder then separator on one flat record, as [processRecords] does
    for each element; [None] when the builder left the record. *)
Definition processRecord (record : FlatRecord) : option (completion PersistableUser) :=
  match buildNestedObject record with
  | Some nested => Some (separateMandatoryFields nested)
  | None => None
  end.

(** [records.map(...)]: the records are processed in order, and the first
    one that throws ends the call. *)
Fixpoint processRecords (records : list FlatRecord)
  : option (completion (list PersistableUser)) :=
  match records with
  | [] => Some (Normal [])
  | record :: records' =>
      match processRecord record with
      | None => None
      | Some (Throw m) => Some (Throw m)
      | Some (Normal u) =>
          match processRecords records' with
          | Some (Normal users) => Some (Normal (u :: users))
          | other => other
          end
      end
  end.

(** Reading a nested record along a path of keys. *)
Fixpoint get_path (keys : list string) (o : Obj) : option Value :=
  match keys with
  | [] => None
  | [k] => prop_get k o
  | k :: rest =>
      match prop_get k o with
      | Some (VObj c) => get_path rest c
      | _ => None
      end
  end.

(** The nested record that holds [value] at the end of [keys] and nothing
    else. *)
Fixpoint nest (keys : list string) (value : string) : Obj :=
  match keys with
  | [] => []
  | [k] => [(k, VStr value)]
  | k :: rest => [(k, VObj (nest rest value))]
  end.

Fixpoint is_prefix (l1 l2 : list string) : bool :=
  match l1, l2 with
  | [], _ => true
  | k1 :: l1', k2 :: l2' => String.eqb k1 k2 && is_prefix l1' l2'
  | _ :: _, [] => false
  end.

(** Two dot-paths disagree about a segment when one runs through the leaf
    of the other. *)
Definition conflicting (keys1 keys2 : list string) : bool :=
  is_prefix keys1 keys2 || is_prefix keys2 keys1.

Definition segments (key : string) : list string := split_on dot key.

(** No segment is the inherited accessor name. *)
Definition proto_free (keys : list string) : bool :=
  forallb (fun k => negb (String.eqb k proto_name)) keys.

(** No segment holds a dot: the segments are those of their dot-join. *)
Definition dot_free (keys : list string) : bool :=
  forallb (string_forallb (fun c => negb (Ascii.eqb c dot))) keys.

(** A record as the builder leaves it: every own key once, and no own
    property under the inherited accessor name. *)
Definition well_formed (o : Obj) : Prop :=
  NoDup (prop_keys o) /\ prop_get proto_name o = None.

(** The entry [key -> value] of a flat record after which no entry
    disagrees with it about a segment. *)
Definition settles (flat : FlatRecord) (key value : string) : Prop :=
  exists i,
    nth_error flat i = Some (key, value)
    /\ forall j key' value',
         i < j -> nth_error flat j = Some (key', value') ->
         conflicting (segments key) (segments key') = false.

(** No entry of the flat record touches the path of [key]. *)
Definition absent (flat : FlatRecord) (key : string) : Prop :=
  forall key' value',
    In (key', value') flat -> conflicting (segments key) (segments key') = false.

(** The flat field [key]: its settled value, or nothing at all. *)
Definition field (flat : FlatRecord) (key : string) (value : option string) : Prop :=
  match value with
  | Some v => settles flat key v
  | None => absent flat key
  end.

Definition or_default (value : option string) : string :=
  match value with Some v => v | None => EmptyString end.

End ObjectBuilder.

(* ================================================================== *)
(** * services/userService.js *)
(* ================================================================== *)

(** The storage engine is a collaborator: the pool and its client are a
    state [Db] and a function [exec] that answers every operation the
    service issues with a new state and a reply.  [JSON.stringify] is the
    runtime's.  Console output is left out of this module. *)

Module UserService.
Import Js ObjectBuilder.

(** The four parameters of an [INSERT]. *)
Record Row : Type := {
  row_name : string;
  row_age : JsNumber;
  row_address : option string;
  row_additional_info : option string
}.

Inductive Op : Type :=
  | Connect
  | Begin
  | Commit
  | Rollback
  | Insert (values : Row)
  | InsertUnnest (names : list string) (ages : list JsNumber)
      (addresses additionalInfos : list (option string))
  | Release.

(** A reply resolves with a [rowCount] or rejects with an error message. *)
Inductive Reply : Type :=
  | Done (rowCount : nat)
  | Failed (message : string).

Record ErrorEntry : Type := { user : string; error : string }.

Record InsertResult : Type := {
  success : bool;
  inserted : nat;
  failed : nat;
  errors : option (list ErrorEntry)
}.

Definition chunkSize : nat := 1000.

(** [l.slice(i, j)] for [i <= j]. *)
Definition slice {A : Type} (l : list A) (i j : nat) : list A :=
  firstn (j - i) (skipn i l).

(** The values [i] takes in [for (i = 0; i < n; i += chunkSize)]. *)
Definition chunk_starts (n : nat) : list nat :=
  map (fun k => k * chunkSize) (seq 0 ((n + chunkSize - 1) / chunkSize)).

Section Engine.
Variable Db : Type.
Variable exec : Db -> Op -> Db * Reply.
Variable JSON_stringify : Value -> string.

(** Asynchronous code over the engine: a computation takes the engine's
    state and ends normally or by throwing. *)
Definition M (A : Type) : Type := Db -> Db * completion A.

Definition ret {A : Type} (a : A) : M A := fun db => (db, Normal a).

Definition throw {A : Type} (message : string) : M A := fun db => (db, Throw message).

Definition bind {A B : Type} (m : M A) (f : A -> M B) : M B :=
  fun db =>
    let (db', r) := m db in
    match r with
    | Normal a => f a db'
    | Throw message => (db', Throw message)
    end.

(** [try { m } catch (error) { handler(error.message) }] *)
Definition try_catch {A : Type} (m : M A) (handler : string -> M A) : M A :=
  fun db =>
    let (db', r) := m db in
    match r with
    | Normal a => (db', Normal a)
    | Throw message => handler message db'
    end.

(** [... finally { f }]: [f] runs either way, and its own error wins. *)
Definition finally {A : Type} (m : M A) (f : M unit) : M A :=
  fun db =>
    let (db', r) := m db in
    let (db'', r') := f db' in
    match r' with
    | Normal _ => (db'', r)
    | Throw message => (db'', Throw message)
    end.

(** [await pool.connect()], [await client.query(...)], [client.release()]. *)
Definition query (op : Op) : M nat :=
  fun db =>
    let (db', reply) := exec db op in
    match reply with
    | Done rowCount => (db', Normal rowCount)
    | Failed message => (db', Throw message)
    end.

Definition address_param (u : PersistableUser) : option string :=
  option_map JSON_stringify (truthy (address u)).

Definition additional_info_param (u : PersistableUser) : option string :=
  option_map (fun o => JSON_stringify (VObj o)) (additional_info u).

Definition values_of (u : PersistableUser) : Row :=
  {| row_name := name u;
     row_age := age u;
     row_address := address_param u;
     row_additional_info := additional_info_param u |}.

(** The loop [for (const user of users)] with its inner [try]/[catch]. *)
Fixpoint insert_loop (users : list PersistableUser) (insertedCount failedCount : nat)
    (errors : list ErrorEntry) : M (nat * nat * list ErrorEntry) :=
  match users with
  | [] => ret (insertedCount, failedCount, errors)
  | u :: users' =>
      bind
        (try_catch
           (bind (query (Insert (values_of u)))
                 (fun _ => ret (S insertedCount, failedCount, errors)))
           (fun message =>
              ret (insertedCount, S failedCount,
                   errors ++ [{| user := name u; error := message |}])))
        (fun '(insertedCount', failedCount', errors') =>
           insert_loop users' insertedCount' failedCount' errors')
  end.

Definition batchInsertUsers (users : list PersistableUser) : M InsertResult :=
  bind (query Connect) (fun _ =>
  finally
    (try_catch
       (bind (query Begin) (fun _ =>
        bind (insert_loop users 0 0 []) (fun '(insertedCount, failedCount, errors) =>
        bind (query Commit) (fun _ =>
        ret {| success := true;
               inserted := insertedCount;
               failed := failedCount;
               errors := if (0 <? length errors)%nat then Some errors else None |}))))
       (fun message =>
          bind (query Rollback) (fun _ =>
          throw ("Batch insert failed: " ++ message)%string)))
    (bind (query Release) (fun _ => ret tt))).

(** The set-based insert of one chunk: four parallel columns. *)
Definition unnest_op (chunk : list PersistableUser) : Op :=
  InsertUnnest (map name chunk) (map age chunk)
    (map address_param chunk) (map additional_info_param chunk).

(** The loop over the chunks; [starts] are the values of [i] still to come. *)
Fixpoint chunks_loop (users : list PersistableUser) (starts : list nat)
    (totalInserted : nat) : M nat :=
  match starts with
  | [] => ret totalInserted
  | i :: starts' =>
      let chunk := slice users i (i + chunkSize) in
      bind (query (unnest_op chunk)) (fun rowCount =>
      chunks_loop users starts' (totalInserted + rowCount))
  end.

Definition optimizedBatchInsert (users : list PersistableUser) : M InsertResult :=
  bind (query Connect) (fun _ =>
  finally
    (try_catch
       (bind (query Begin) (fun _ =>
        bind (chunks_loop users (chunk_starts (length users)) 0) (fun totalInserted =>
        bind (query Commit) (fun _ =>
        ret {| success := true;
               inserted := totalInserted;
               failed := 0;
               errors := None |}))))
       (fun message =>
          bind (query Rollback) (fun _ =>
          throw ("Optimized batch insert failed: " ++ message)%string)))
    (bind (query Release) (fun _ => ret tt))).

(** The engine's answers to a sequence of operations issued one after the
    other, and the state it is left in. *)
Fixpoint replay (db : Db) (ops : list Op) : Db * list Reply :=
  match ops with
  | [] => (db, [])
  | op :: ops' =>
      let (db', reply) := exec db op in
      let (db'', replies) := replay db' ops' in
      (db'', reply :: replies)
  end.

End Engine.

Definition is_insert (op : Op) : bool :=
  match op with
  | Insert _ | InsertUnnest _ _ _ _ => true
  | _ => false
  end.

(** What the service needs of an engine that supports transactions, in
    terms of the rows [durable] it holds for good: connecting and releasing
    change nothing, and a granted [ROLLBACK] undoes every insert issued
    since the [BEGIN] that opened the transaction. *)
Definition transactional (Db : Type) (exec : Db -> Op -> Db * Reply)
    (durable : Db -> list Row) : Prop :=
  (forall db db' reply, exec db Connect = (db', reply) -> durable db' = durable db)
  /\ (forall db db' reply, exec db Release = (db', reply) -> durable db' = durable db)
  /\ (forall db db1 b ops db2 replies db3 rb,
        exec db Begin = (db1, Done b) ->
        forallb is_insert ops = true ->
        replay Db exec db1 ops = (db2, replies) ->
        exec db2 Rollback = (db3, Done rb) ->
        durable db3 = durable db).

Definition is_done (r : Reply) : bool :=
  match r with Done _ => true | Failed _ => false end.

Definition rowCount_of (r : Reply) : nat :=
  match r with Done n => n | Failed _ => 0 end.

(** The rows inserted, the rows rejected and the error entries that a
    sequence of replies to the row-by-row inserts amounts to. *)
Definition inserted_in (replies : list Reply) : nat :=
  length (filter is_done replies).

Definition failed_in (replies : list Reply) : nat :=
  length (filter (fun r => negb (is_done r)) replies).

Fixpoint error_entries (users : list PersistableUser) (replies : list Reply)
  : list ErrorEntry :=
  match users, replies with
  | u :: users', Failed message :: replies' =>
      {| user := name u; error := message |} :: error_entries users' replies'
  | _ :: users', Done _ :: replies' => error_entries users' replies'
  | _, _ => []
  end.

(** The chunks of the bulk path. *)
Definition chunks_of (users : list PersistableUser) : list (list PersistableUser) :=
  map (fun i => slice users i (i + chunkSize)) (chunk_starts (length users)).

(** The [k]-th chunk and the number of chunks, by position. *)
Definition chunk_at (users : list PersistableUser) (k : nat) : list PersistableUser :=
  firstn chunkSize (skipn (k * chunkSize) users).

Definition chunk_count (n : nat) : nat := (n + chunkSize - 1) / chunkSize.

End UserService.

(* ================================================================== *)
(** * A storage engine to run the service on *)
(* ================================================================== *)

(** A table with transactions, used for the worked examples: [BEGIN]
    saves the rows, [ROLLBACK] restores them, and an insert is rejected,
    leaving the table as it is, when an age does not fit the INT column.
    A rejected statement leaves the transaction usable, as on an engine
    that rolls back the failed statement alone; PostgreSQL does not, and
    [PostgresEngine] below has its rule. *)

Module TableEngine.
Import Js ObjectBuilder UserService.

Record Db : Type := { rows : list Row; saved : option (list Row) }.

Definition fits_int (age : JsNumber) : bool :=
  match age with
  | Finite z => ((-2147483648 <=? z) && (z <=? 2147483647))%Z
  | Infinite _ => false
  end.

Fixpoint unnest (names : list string) (ages : list JsNumber)
    (addresses additionalInfos : list (option string)) : list Row :=
  match names, ages, addresses, additionalInfos with
  | n :: names', a :: ages', ad :: addresses', ai :: additionalInfos' =>
      {| row_name := n; row_age := a; row_address := ad; row_additional_info := ai |}
      :: unnest names' ages' addresses' additionalInfos'
  | _, _, _, _ => []
  end.

Definition out_of_range : string := "integer out of range".

Definition exec (db : Db) (op : Op) : Db * Reply :=
  match op with
  | Connect | Release => (db, Done 0)
  | Begin => ({| rows := rows db; saved := Some (rows db) |}, Done 0)
  | Commit => ({| rows := rows db; saved := None |}, Done 0)
  | Rollback =>
      ({| rows := match saved db with Some r => r | None => rows db end;
          saved := None |}, Done 0)
  | Insert values =>
      if fits_int (row_age values)
      then ({| rows := rows db ++ [values]; saved := saved db |}, Done 1)
      else (db, Failed out_of_range)
  | InsertUnnest names ages addresses additionalInfos =>
      if forallb fits_int ages
      then ({| rows := rows db ++ unnest names ages addresses additionalInfos;
               saved := saved db |}, Done (length names))
      else (db, Failed out_of_range)
  end.

(** [JSON.stringify] on nested records. *)
Definition hex_digit (n : nat) : ascii :=
  nth n (list_ascii_of_string "0123456789abcdef") "0"%char.

Definition json_escape (c : ascii) : string :=
  let n := nat_of_ascii c in
  if (n =? 34)%nat then String "\"%char (String c EmptyString)
  else if (n =? 92)%nat then String c (String c EmptyString)
  else if (n =? 8)%nat then "\b"
  else if (n =? 9)%nat then "\t"
  else if (n =? 10)%nat then "\n"
  else if (n =? 12)%nat then "\f"
  else if (n =? 13)%nat then "\r"
  else if (n <? 32)%nat then
    ("\u00" ++ String (hex_digit (n / 16)) (String (hex_digit (n mod 16)) EmptyString))%string
  else String c EmptyString.

Fixpoint json_escape_all (s : string) : string :=
  match s with
  | EmptyString => EmptyString
  | String c s' => (json_escape c ++ json_escape_all s')%string
  end.

Definition json_quote (s : string) : string :=
  String dquote (json_escape_all s ++ String dquote EmptyString).

Fixpoint json_text (v : Value) : string :=
  match v with
  | VStr s => json_quote s
  | VObj o =>
      let members :=
        (fix members (o : list (string * Value)) : list string :=
           match o with
           | [] => []
           | (k, v') :: o' => (json_quote k ++ ":" ++ json_text v')%string :: members o'
           end) o in
      ("{" ++ join "," members ++ "}")%string
  end.

Definition empty_table : Db := {| rows := []; saved := None |}.

(** A user of the given age. *)
Definition user_aged (n : string) (a : Z) : PersistableUser :=
  {| name := n; age := Finite a; address := Some (VObj [("city", VStr "Pune")]);
     additional_info := None |}.

(** Ten users, the fourth with an age the column rejects. *)
Definition ten_users : list PersistableUser :=
  [user_aged "u1" 21; user_aged "u2" 22; user_aged "u3" 23;
   user_aged "u4" 4294967296; user_aged "u5" 25; user_aged "u6" 26;
   user_aged "u7" 27; user_aged "u8" 28; user_aged "u9" 29; user_aged "u10" 30]%Z.

(** 6000 users, the 5001st with an age the column rejects. *)
Definition six_thousand_users : list PersistableUser :=
  repeat (user_aged "u" 30%Z) 5000
  ++ user_aged "bad" 4294967296%Z :: repeat (user_aged "u" 30%Z) 999.

End TableEngine.

(* ================================================================== *)
(** * The storage engine of the deployment: PostgreSQL's transaction blocks *)
(* ================================================================== *)

(** The service is written for PostgreSQL (the [jsonb] and [UNNEST] of its
    statements, the [pg] pool).  This module holds what matters of it here,
    its rule for an error inside a transaction block: the statement that
    fails aborts the block, every statement after it is refused with
    [current transaction is aborted, ...] until the block ends, and the
    [COMMIT] that ends an aborted block is carried out as a [ROLLBACK],
    without an error.  A statement is rejected here when an age does not
    fit the INT column. *)

Module PostgresEngine.
Import Js ObjectBuilder UserService.

(** [rows] is the table; [block] holds the rows as [BEGIN] found them
    while a transaction block is open; [aborted] says whether a statement
    of the open block has failed. *)
Record Db : Type := { rows : list Row; block : option (list Row); aborted : bool }.

Definition aborted_message : string :=
  "current transaction is aborted, commands ignored until end of transaction block".

Definition in_aborted_block (db : Db) : bool :=
  match block db with
  | Some _ => aborted db
  | None => false
  end.

(** A statement that fails: inside a block, the block is aborted. *)
Definition reject (db : Db) (message : string) : Db * Reply :=
  ({| rows := rows db; block := block db;
      aborted := match block db with Some _ => true | None => false end |},
   Failed message).

Definition insert_rows (db : Db) (new : list Row) (ages : list JsNumber) : Db * Reply :=
  if in_aborted_block db then (db, Failed aborted_message)
  else if forallb TableEngine.fits_int ages
       then ({| rows := rows db ++ new; block := block db; aborted := aborted db |},
             Done (length new))
       else reject db TableEngine.out_of_range.

Definition exec (db : Db) (op : Op) : Db * Reply :=
  match op with
  | Connect | Release => (db, Done 0)
  | Begin =>
      match block db with
      | Some _ =>
          if aborted db then (db, Failed aborted_message) else (db, Done 0)
      | None => ({| rows := rows db; block := Some (rows db); aborted := false |}, Done 0)
      end
  | Commit =>
      ({| rows := match block db with
                  | Some saved => if aborted db then saved else rows db
                  | None => rows db
                  end;
          block := None; aborted := false |}, Done 0)
  | Rollback =>
      ({| rows := match block db with Some saved => saved | None => rows db end;
          block := None; aborted := false |}, Done 0)
  | Insert values => insert_rows db [values] [row_age values]
  | InsertUnnest names ages addresses additionalInfos =>
      insert_rows db (TableEngine.unnest names ages addresses additionalInfos) ages
  end.

(** A table with no transaction block open. *)
Definition table (held : list Row) : Db :=
  {| rows := held; block := None; aborted := false |}.

Definition fits (u : PersistableUser) : bool := TableEngine.fits_int (age u).

(** The rows that are committed: those of the table outside a block, and
    inside a block those [BEGIN] found. *)
Definition committed (db : Db) : list Row :=
  match block db with
  | Some saved => saved
  | None => rows db
  end.

End PostgresEngine.

(* ================================================================== *)
(** * utils/ageDistribution.js *)
(* ================================================================== *)

Module AgeDistribution.
Import Js.

(** What [user.age] holds: an integer Number (what an INT column gives;
    below 10^21 in magnitude, where a Number prints as its decimal
    numeral), a string, [null], or nothing. *)
Inductive AgeValue : Type :=
  | AgeNumber (z : Z)
  | AgeString (s : string)
  | AgeNull
  | AgeUndefined.

Record UserRow : Type := { age : AgeValue }.

(** [`${user.age}`] *)
Definition age_text (a : AgeValue) : string :=
  match a with
  | AgeNumber z => NilEmpty.string_of_int (Z.to_int z)
  | AgeString s => s
  | AgeNull => "null"
  | AgeUndefined => "undefined"
  end.

(** [parseInt(user.age)]: the argument is converted to a string first. *)
Definition parseInt_age (a : AgeValue) : option Z := parseInt (age_text a).

(** The chain of comparisons on the parsed [age]; the result is the key
    of the counter it increments. *)
Definition bucket_of (age : Z) : string :=
  if (age <? 20)%Z then "<20"
  else if (20 <=? age)%Z && (age <? 40)%Z then "20-40"
  else if (40 <=? age)%Z && (age <=? 60)%Z then "40-60"
  else ">60".

Definition zero_distribution : props nat :=
  [("<20", 0); ("20-40", 0); ("40-60", 0); (">60", 0)].

(** [distribution[group]++] *)
Definition increment (group : string) (distribution : props nat) : props nat :=
  prop_set group (S (match prop_get group distribution with Some n => n | None => 0 end))
    distribution.

(** [users.forEach(...)], with what it passes to [console.warn]. *)
Fixpoint forEach_user (users : list UserRow) (distribution : props nat)
    (console : list string) : props nat * list string :=
  match users with
  | [] => (distribution, console)
  | user :: users' =>
      match parseInt_age (age user) with
      | None =>
          forEach_user users' distribution
            (console ++ [("Warning: Invalid age value: " ++ age_text (age user))%string])
      | Some age => forEach_user users' (increment (bucket_of age) distribution) console
      end
  end.

(** [x.toFixed(2)] for a double [x] below 10^21 in magnitude: the integer
    [n] nearest to [100 x], the larger one on a tie, printed with a point
    before its last two digits.  [x] is [m * 2^e] exactly. *)
Definition two_digits (r : Z) : string :=
  (NilEmpty.string_of_uint (N.to_uint (Z.to_N (r / 10))) ++ NilEmpty.string_of_uint (N.to_uint (Z.to_N (r mod 10))))%string.

Definition toFixed2 (x : PrimFloat.float) : string :=
  match FloatOps.Prim2SF x with
  | SpecFloat.S754_zero _ => "0.00"
  | SpecFloat.S754_infinity s => if s then "-Infinity" else "Infinity"
  | SpecFloat.S754_nan => "NaN"
  | SpecFloat.S754_finite s m e =>
      let n :=
        if (0 <=? e)%Z then (100 * Z.pos m * 2 ^ e)%Z
        else ((200 * Z.pos m + 2 ^ (- e)) / (2 * 2 ^ (- e)))%Z in
      ((if s then "-" else "")
       ++ NilEmpty.string_of_uint (N.to_uint (Z.to_N (n / 100))) ++ "." ++ two_digits (n mod 100))%string
  end.

Definition to_double (n : nat) : PrimFloat.float :=
  PrimFloat.of_uint63 (Uint63.of_Z (Z.of_nat n)).

(** [((count / total) * 100).toFixed(2)] in double arithmetic. *)
Definition percentage (count total : nat) : string :=
  toFixed2 (PrimFloat.mul (PrimFloat.div (to_double count) (to_double total))
                          (to_double 100)).

(** The two shapes [calculate] returns: the bare mapping of the four
    counters, or the object [{counts, percentages, total}]. *)
Inductive Report : Type :=
  | Flat (counts : props nat)
  | Wrapped (counts : props nat) (percentages : props string) (total : nat).

Definition report_keys (r : Report) : list string :=
  match r with
  | Flat counts => prop_keys counts
  | Wrapped _ _ _ => ["counts"; "percentages"; "total"]
  end.

(** [calculate(users)], and what it wrote to [console.warn]. *)
Definition calculate (users : list UserRow) : Report * list string :=
  let total := length users in
  if (total =? 0)%nat then (Flat zero_distribution, [])
  else
    let (distribution, console) := forEach_user users zero_distribution [] in
    let percentages :=
      map (fun entry => (fst entry, percentage (snd entry) total)) distribution in
    (Wrapped distribution percentages total, console).

(** The entries whose age parses, and those of them that fall in a group. *)
Definition parses (user : UserRow) : bool :=
  match parseInt_age (age user) with Some _ => true | None => false end.

Definition in_group (group : string) (user : UserRow) : bool :=
  match parseInt_age (age user) with
  | Some a => String.eqb (bucket_of a) group
  | None => false
  end.

Definition groups : list string := ["<20"; "20-40"; "40-60"; ">60"].

Definition count_in (group : string) (users : list UserRow) : nat :=
  length (filter (in_group group) users).

End AgeDistribution.

(* ================================================================== *)
(** * The file format the tokenizer reads *)
(* ================================================================== *)

Module CSVFormat.
Import Js CSVParser.

(** The quoting [parseLine] undoes: the field between two double quotes,
    with every double quote of its own written twice. *)
Fixpoint double_quotes (f : string) : string :=
  match f with
  | EmptyString => EmptyString
  | String c f' =>
      if Ascii.eqb c dquote then String dquote (String dquote (double_quotes f'))
      else String c (double_quotes f')
  end.

Definition quoted (f : string) : string :=
  String dquote (double_quotes f ++ String dquote EmptyString).

(** A field as a line carries it: quoted, or as it is. *)
Definition encode (field : bool * string) : string :=
  if fst field then quoted (snd field) else snd field.

(** A field that may go unquoted is a plain one. *)
Definition encodable (field : bool * string) : bool :=
  fst field || plainField (snd field).

(** A line without a double quote. *)
Definition quoteFree (line : string) : bool :=
  string_forallb (fun c => negb (Ascii.eqb c dquote)) line.

(** The three line endings of [/\r?\n|\r/]. *)
Inductive LineEnding : Type := Windows | Unix | OldMac.

Definition ending_text (e : LineEnding) : string :=
  match e with
  | Windows => String CR (String LF EmptyString)
  | Unix => String LF EmptyString
  | OldMac => String CR EmptyString
  end.

Definition lineChar (c : ascii) : bool :=
  negb (Ascii.eqb c CR) && negb (Ascii.eqb c LF).

(** A text without a line ending inside. *)
Definition oneLine (s : string) : bool := string_forallb lineChar s.

(** No white space at either end. *)
Definition starts_blank (s : string) : bool :=
  match s with
  | EmptyString => false
  | String c _ => isWhiteSpace c
  end.

Fixpoint ends_blank (s : string) : bool :=
  match s with
  | EmptyString => false
  | String c EmptyString => isWhiteSpace c
  | String _ s' => ends_blank s'
  end.

Definition trimmed (s : string) : bool := negb (starts_blank s) && negb (ends_blank s).

(** What [fs.readFile(filePath, 'utf8', callback)] does: it throws at once
    when the path is not one it takes (no string at all, or a string with
    a null byte); otherwise it passes the callback the error of the read,
    or the content of the file. *)
Inductive ReadResult : Type :=
  | ReadThrows (message : string)
  | ReadError (message : string)
  | ReadData (data : string).

Section FileSystem.
(** The file system; the path is [None] when it is [undefined]. *)
Variable readFile : option string -> ReadResult.

(** [parseCSV]: what the promise resolves with or rejects with, and what
    went to [console.warn].  An error thrown inside the executor rejects
    the promise as it is; only the error passed to the callback gets the
    prefix. *)
Definition parseCSV (filePath : option string)
  : completion (list FlatRecord) * list string :=
  match readFile filePath with
  | ReadThrows message => (Throw message, [])
  | ReadError message => (Throw ("Failed to read file: " ++ message)%string, [])
  | ReadData data => parseCSVContent data
  end.
End FileSystem.

End CSVFormat.

(* ================================================================== *)
(** * Flat records the builder takes apart without loss *)
(* ================================================================== *)

Module FlatRecords.
Import Js CSVParser ObjectBuilder.

(** No two keys of the flat record disagree about a segment: no key is
    another key, and none runs through the leaf of another. *)
Fixpoint apart (flat : FlatRecord) : bool :=
  match flat with
  | [] => true
  | (key, _) :: flat' =>
      forallb (fun entry => negb (conflicting (segments key) (segments (fst entry)))) flat'
      && apart flat'
  end.

(** No key has the inherited accessor name among its segments. *)
Definition proto_free_record (flat : FlatRecord) : bool :=
  forallb (fun entry => proto_free (segments (fst entry))) flat.

(** No key has [__proto__] or [toString] among its segments. *)
Definition plain_segment (segment : string) : bool :=
  negb (String.eqb segment proto_name) && negb (String.eqb segment "toString").

Definition plain_record (flat : FlatRecord) : bool :=
  forallb (fun entry => forallb plain_segment (segments (fst entry))) flat.

End FlatRecords.

(* ================================================================== *)
(** * What the service sends to the engine *)
(* ================================================================== *)

Module Tracing.
Import Js ObjectBuilder UserService.

Section Traced.
Variable Db : Type.
Variable exec : Db -> Op -> Db * Reply.

(** The engine together with the log of the operations it was sent. *)
Definition traced (s : Db * list Op) (op : Op) : (Db * list Op) * Reply :=
  let (db', reply) := exec (fst s) op in ((db', snd s ++ [op]), reply).

(** The log changes nothing: a computation runs on the logging engine as
    it runs on the engine itself. *)
Definition erases {A : Type} (mt : M (Db * list Op) A) (m : M Db A) : Prop :=
  forall db log, (fst (fst (mt (db, log))), snd (mt (db, log))) = m db.

(** The engine refuses an operation with a message, in some state. *)
Definition refused (op : Op) (message : string) : Prop :=
  exists d d', exec d op = (d', Failed message).

End Traced.

(** The rows an operation carries: one for a row-by-row [INSERT], and for
    a set-based one the rows [UNNEST] makes of four columns of one
    length. *)
Definition rows_of (op : Op) : list Row :=
  match op with
  | Insert values => [values]
  | InsertUnnest names ages addresses additionalInfos =>
      TableEngine.unnest names ages addresses additionalInfos
  | _ => []
  end.

End Tracing.

(* ================================================================== *)
(** * utils/ageDistribution.js: the printed report and the query *)
(* ================================================================== *)

Module AgeReport.
Import Js AgeDistribution.

(** [c.repeat(n)] for a one-character string. *)
Fixpoint repeat_char (c : ascii) (n : nat) : string :=
  match n with
  | 0 => EmptyString
  | S n' => String c (repeat_char c n')
  end.

(** [s.padEnd(targetLength)] *)
Definition padEnd (s : string) (targetLength : nat) : string :=
  (s ++ repeat_char " " (targetLength - String.length s))%string.

(** The title line; the pictograph U+1F4CA in front of it is given by the
    four bytes of its UTF-8 form. *)
Definition report_title : string :=
  String "240" (String "159" (String "147" (String "138" " AGE DISTRIBUTION REPORT"))).

(** The message of the TypeError raised by reading a property of
    [undefined]. *)
Definition undefined_read (property : string) : string :=
  ("Cannot read properties of undefined (reading '" ++ property ++ "')")%string.

(** [`${groupLabel} | ${countLabel} | ${percentage}%`] *)
Definition report_row (group : string) (count : nat) (percentage : string) : string :=
  (padEnd group 13 ++ " | " ++ padEnd (nat_to_string count) 8 ++ " | "
   ++ percentage ++ "%")%string.

(** The lines printed before the rows, given the text of
    [distribution.total]. *)
Definition report_heading (total : string) : list string :=
  [String LF (repeat_char "=" 50);
   report_title;
   repeat_char "=" 50;
   ("Total Users: " ++ total ++ String LF EmptyString)%string;
   "Age Group     | Count    | % Distribution";
   repeat_char "-" 50].

Definition report_footer : string :=
  (repeat_char "=" 50 ++ String LF EmptyString)%string.

(** [groups.forEach(...)] over the object [{counts, percentages, total}]:
    a group without a counter stops the loop at [count.toString()]. *)
Fixpoint report_rows (groups : list string) (counts : props nat)
    (percentages : props string) (console : list string)
  : list string * completion unit :=
  match groups with
  | [] => (console, Normal tt)
  | group :: groups' =>
      match prop_get group counts with
      | None => (console, Throw (undefined_read "toString"))
      | Some count =>
          let percentage :=
            match prop_get group percentages with
            | Some p => p
            | None => "undefined"
            end in
          report_rows groups' counts percentages
            (console ++ [report_row group count percentage])
      end
  end.

(** [printReport(distribution)]: what it passes to [console.log], and how
    it completes.  On the bare mapping of counters, [distribution.total]
    prints as [undefined] unless the mapping has such a key, and the first
    [distribution.counts[group]] reads a property of [undefined]. *)
Definition printReport (distribution : Report) : list string * completion unit :=
  match distribution with
  | Wrapped counts percentages total =>
      let (console, rows) :=
        report_rows groups counts percentages (report_heading (nat_to_string total)) in
      match rows with
      | Normal _ => (console ++ [report_footer], Normal tt)
      | Throw message => (console, Throw message)
      end
  | Flat mapping =>
      let total :=
        match prop_get "total" mapping with
        | Some n => nat_to_string n
        | None => "undefined"
        end in
      (report_heading total,
       match prop_get "counts" mapping, prop_get "percentages" mapping with
       | Some _, Some _ => Throw (undefined_read "toString")
       | _, _ => Throw (undefined_read "<20")
       end)
  end.

Section Pool.
Variable Db : Type.
(** [pool.query('SELECT age FROM users')]: the rows, or the message of
    the error. *)
Variable select_age : Db -> Db * completion (list UserRow).

Definition getDistributionFromDB (db : Db) : Db * completion Report :=
  let (db', result) := select_age db in
  match result with
  | Normal users => (db', Normal (fst (calculate users)))
  | Throw message => (db', Throw ("Failed to get age distribution: " ++ message)%string)
  end.
End Pool.

End AgeReport.

(* ================================================================== *)
(** * routes/upload.routes.js *)
(* ================================================================== *)

Module UploadRoutes.
Import Js CSVParser CSVFormat ObjectBuilder UserService AgeReport.

Record Statistics : Type := {
  totalRecords : nat;
  stat_inserted : nat;
  stat_failed : nat;
  processingTime : string
}.

(** The bodies of the responses: of a processed upload (with [success]
    true and the fixed message), of the distribution, and of a failure. *)
Inductive Body : Type :=
  | Processed (statistics : Statistics) (ageDistribution : AgeDistribution.Report)
      (errors : option (list ErrorEntry))
  | Distribution (distribution : AgeDistribution.Report)
  | Failure (message error : string).

Record Response : Type := { status : nat; body : Body }.

(** An integer Number below 2^53 in magnitude as a double. *)
Definition double_of_Z (z : Z) : PrimFloat.float :=
  if (z <? 0)%Z then PrimFloat.opp (PrimFloat.of_uint63 (Uint63.of_Z (- z)))
  else PrimFloat.of_uint63 (Uint63.of_Z z).

(** [((endTime - startTime) / 1000).toFixed(2)] *)
Definition duration (startTime endTime : Z) : string :=
  AgeDistribution.toFixed2
    (PrimFloat.div (double_of_Z (endTime - startTime)) (double_of_Z 1000)).

Section Handlers.
Variable readFile : option string -> ReadResult.
Variable Db : Type.
Variable exec : Db -> Op -> Db * Reply.
Variable select_age : Db -> Db * completion (list AgeDistribution.UserRow).
Variable JSON_stringify : Value -> string.

(** The choice of the insert path by the number of users. *)
Definition insert_users (processedUsers : list PersistableUser) : M Db InsertResult :=
  if (5000 <? length processedUsers)%nat
  then optimizedBatchInsert Db exec JSON_stringify processedUsers
  else batchInsertUsers Db exec JSON_stringify processedUsers.

Definition process_failure (error : string) : Response :=
  {| status := 500; body := Failure "Failed to process CSV" error |}.

(** [POST /process], with [csvPath] the value of [CSV_FILE_PATH]
    ([None] when it is not set) and the two readings of the clock; the
    result is [None] when the builder left a record.  Console output is
    left out. *)
Definition process (csvPath : option string) (startTime endTime : Z) (db : Db)
  : option (Db * Response) :=
  match fst (parseCSV readFile csvPath) with
  | Throw message => Some (db, process_failure message)
  | Normal records =>
      match processRecords records with
      | None => None
      | Some (Throw message) => Some (db, process_failure message)
      | Some (Normal processedUsers) =>
          let (db1, insertion) := insert_users processedUsers db in
          match insertion with
          | Throw message => Some (db1, process_failure message)
          | Normal insertResult =>
              let (db2, query) := getDistributionFromDB Db select_age db1 in
              match query with
              | Throw message => Some (db2, process_failure message)
              | Normal distribution =>
                  match snd (printReport distribution) with
                  | Throw message => Some (db2, process_failure message)
                  | Normal _ =>
                      Some (db2,
                            {| status := 200;
                               body :=
                                 Processed
                                   {| totalRecords := length records;
                                      stat_inserted := inserted insertResult;
                                      stat_failed := failed insertResult;
                                      processingTime :=
                                        (duration startTime endTime ++ "s")%string |}
                                   distribution
                                   (errors insertResult) |})
                  end
              end
          end
      end
  end.

(** [GET /distribution] *)
Definition distribution (db : Db) : Db * Response :=
  let (db', query) := getDistributionFromDB Db select_age db in
  match query with
  | Normal d => (db', {| status := 200; body := Distribution d |})
  | Throw message =>
      (db', {| status := 500; body := Failure "Failed to get age distribution" message |})
  end.

End Handlers.

(** The example table answers [SELECT age FROM users] with the ages of its
    rows; every age it holds fits the INT column. *)
Definition column_age (age : JsNumber) : AgeDistribution.AgeValue :=
  match age with
  | Finite z => AgeDistribution.AgeNumber z
  | Infinite _ => AgeDistribution.AgeNull
  end.

Definition table_select_age (db : TableEngine.Db)
  : TableEngine.Db * completion (list AgeDistribution.UserRow) :=
  (db, Normal (map (fun row => {| AgeDistribution.age := column_age (row_age row) |})
                   (TableEngine.rows db))).

(** Two files for the worked examples: a header without data rows, and
    two rows the second of which holds an age the column rejects. *)
Definition header_only (path : option string) : ReadResult :=
  ReadData "name.firstName,age".

Definition two_rows (path : option string) : ReadResult :=
  ReadData ("name.firstName,age" ++ String LF "Asha,31"
            ++ String LF "Ravi,4294967296")%string.

End UploadRoutes.

(* ================================================================== *)
(** * Properties of plain objects *)
(* ================================================================== *)

Module JsFacts.
Import Js.

Lemma append_snoc (s t : string) (c : ascii) :
  (snoc s c ++ t)%string = (s ++ String c t)%string.
Proof.
  unfold snoc. induction s as [|a s IH]; simpl; [reflexivity | now rewrite IH].
Qed.

Lemma append_empty_r (s : string) : (s ++ EmptyString)%string = s.
Proof. induction s as [|a s IH]; simpl; [reflexivity | now rewrite IH]. Qed.

(** ** [parseInt] reads back the decimal numeral of an integer *)

Lemma digits_prefix_uint_acc (d : Decimal.uint) :
  forall acc : positive,
    digits_prefix 10 (NilEmpty.string_of_uint d) (Some (Npos acc))
    = Some (Npos (Pos.of_uint_acc d acc)).
Proof.
  induction d; intros acc; cbn [NilEmpty.string_of_uint digits_prefix Pos.of_uint_acc];
    try reflexivity;
    match goal with
    | |- context [radix_digit 10 ?c] =>
        let r := eval vm_compute in (radix_digit 10 c) in
        change (radix_digit 10 c) with r
    end; cbv iota; rewrite <- IHd; do 2 f_equal; lia.
Qed.

Lemma digits_prefix_uint_zero (d : Decimal.uint) :
  digits_prefix 10 (NilEmpty.string_of_uint d) (Some 0%N) = Some (Pos.of_uint d).
Proof.
  induction d; cbn [NilEmpty.string_of_uint digits_prefix Pos.of_uint];
    try reflexivity;
    match goal with
    | |- context [radix_digit 10 ?c] =>
        let r := eval vm_compute in (radix_digit 10 c) in
        change (radix_digit 10 c) with r
    end; cbv iota;
    [ exact IHd | .. ];
    match goal with
    | |- digits_prefix 10 _ (Some ?n) = _ =>
        let r := eval vm_compute in n in change n with r
    end; apply digits_prefix_uint_acc.
Qed.

Lemma string_of_uint_digits (d : Decimal.uint) :
  string_forallb isDigit (NilEmpty.string_of_uint d) = true.
Proof. induction d; simpl; auto. Qed.

Lemma isDigit_plain (c : ascii) :
  isDigit c = true ->
  isWhiteSpace c = false
  /\ Ascii.eqb c "-"%char = false /\ Ascii.eqb c "+"%char = false
  /\ Ascii.eqb c "x"%char = false /\ Ascii.eqb c "X"%char = false
  /\ exists d, radix_digit 10 c = Some d.
Proof.
  destruct c as [[|] [|] [|] [|] [|] [|] [|] [|]]; intros H; try discriminate H;
    vm_compute; repeat split; eauto.
Qed.

(** On a run of digits, with or without a minus sign in front, [parseInt]
    finds no white space to skip and no [0x], and reads the digits in
    radix 10. *)
Lemma parseInt_digits (c : ascii) (rest : string) (sign : bool) :
  isDigit c = true -> string_forallb isDigit rest = true ->
  parseInt ((if sign then "-" else "") ++ String c rest)
  = option_map (fun n => if sign then (- Z.of_N n)%Z else Z.of_N n)
      (digits_prefix 10 (String c rest) (Some 0%N)).
Proof.
  intros Hc Hrest.
  destruct (isDigit_plain c Hc) as (Hw & Hminus & Hplus & _ & _ & d & Hd).
  assert (Hstart : digits_prefix 10 (String c rest) None
                   = digits_prefix 10 (String c rest) (Some 0%N))
    by (cbn [digits_prefix]; now rewrite Hd).
  assert (Hx : forall c1 rest', rest = String c1 rest' ->
               Ascii.eqb c1 "x"%char || Ascii.eqb c1 "X"%char = false).
  { intros c1 rest' ->. simpl in Hrest. apply andb_prop in Hrest as [Hc1 _].
    destruct (isDigit_plain c1 Hc1) as (_ & _ & _ & -> & -> & _). reflexivity. }
  unfold parseInt. destruct sign; cbn [append trimStart].
  - change (isWhiteSpace "-"%char) with false. cbv iota.
    change (Ascii.eqb "-"%char "-"%char) with true. cbv iota beta zeta.
    destruct rest as [|c1 rest']; cbv iota beta zeta;
      rewrite ?(Hx _ _ eq_refl), ?andb_false_r; cbv iota beta zeta;
      rewrite Hstart;
      match goal with
      | |- context [digits_prefix 10 ?s ?a] =>
          destruct (digits_prefix 10 s a) as [[|q]|]; reflexivity
      end.
  - rewrite Hw. cbv iota. rewrite Hminus, Hplus. cbv iota beta zeta.
    destruct rest as [|c1 rest']; cbv iota beta zeta;
      rewrite ?(Hx _ _ eq_refl), ?andb_false_r; cbv iota beta zeta;
      rewrite Hstart;
      match goal with
      | |- context [digits_prefix 10 ?s ?a] =>
          destruct (digits_prefix 10 s a) as [[|q]|]; reflexivity
      end.
Qed.

Lemma parseInt_numeral (p : positive) (sign : bool) :
  parseInt ((if sign then "-" else "") ++ NilEmpty.string_of_uint (Pos.to_uint p))
  = Some (if sign then Z.neg p else Z.pos p).
Proof.
  pose proof (string_of_uint_digits (Pos.to_uint p)) as Hd.
  pose proof (digits_prefix_uint_zero (Pos.to_uint p)) as Hv.
  rewrite Unsigned.of_to in Hv.
  destruct (NilEmpty.string_of_uint (Pos.to_uint p)) as [|c rest] eqn:E.
  - pose proof (Unsigned.to_uint_nonnil p) as Hn.
    destruct (Pos.to_uint p); try discriminate E. now destruct Hn.
  - simpl in Hd. apply andb_prop in Hd as [Hc Hrest].
    rewrite (parseInt_digits c rest sign Hc Hrest), Hv. now destruct sign.
Qed.

(** ** [to_Number] rounds as the doubles do *)

Example to_Number_rounds :
  map to_Number
    [0; 2 ^ 53 - 1; 2 ^ 53; 2 ^ 53 + 1; 2 ^ 53 + 2; 2 ^ 53 + 3; 2 ^ 54 + 2; 2 ^ 54 + 6;
     2 ^ 60 + 127; 2 ^ 60 + 128; 2 ^ 60 + 129; 2 ^ 60 + 384; 2 ^ 63 - 513;
     2 ^ 63 - 512; 123456789012345678]%Z
  = map (fun z => match double_of_uint63 z with Some d => Finite d | None => Infinite false end)
    [0; 2 ^ 53 - 1; 2 ^ 53; 2 ^ 53 + 1; 2 ^ 53 + 2; 2 ^ 53 + 3; 2 ^ 54 + 2; 2 ^ 54 + 6;
     2 ^ 60 + 127; 2 ^ 60 + 128; 2 ^ 60 + 129; 2 ^ 60 + 384; 2 ^ 63 - 513;
     2 ^ 63 - 512; 123456789012345678]%Z
  /\ to_Number (2 ^ 53 + 1) = Finite (2 ^ 53)
  /\ to_Number (- (2 ^ 53 + 3)) = Finite (- (2 ^ 53 + 4))
  /\ to_Number (2 ^ 1024 - 2 ^ 970 - 1) = Finite (2 ^ 1024 - 2 ^ 971)
  /\ to_Number (2 ^ 1024 - 2 ^ 970) = Infinite false
  /\ to_Number (- 10 ^ 400) = Infinite true.
Proof. vm_compute. repeat split. Qed.

Section PropsFacts.
Context {V : Type}.
Implicit Types (o : props V) (k : string) (v : V).

Lemma prop_has_true k o : prop_has k o = true <-> exists v, prop_get k o = Some v.
Proof.
  unfold prop_has. destruct (prop_get k o) as [v|]; split; intros H;
    try discriminate; eauto. now destruct H.
Qed.

Lemma prop_has_false k o : prop_has k o = false <-> prop_get k o = None.
Proof. unfold prop_has. destruct (prop_get k o); split; congruence. Qed.

Lemma prop_get_In k o v : prop_get k o = Some v -> In (k, v) o.
Proof.
  induction o as [|[k' v'] o IH]; simpl; [discriminate|].
  destruct (String.eqb_spec k' k) as [->|Hne]; intros H.
  - injection H as ->. now left.
  - right. auto.
Qed.

Lemma prop_get_None_keys k o : prop_get k o = None <-> ~ In k (prop_keys o).
Proof.
  induction o as [|[k' v'] o IH]; simpl.
  - split; auto.
  - destruct (String.eqb_spec k' k) as [->|Hne].
    + split; [discriminate | intros H; exfalso; apply H; now left].
    + rewrite IH. split; intros H; [intros [E|I]; [congruence | auto] | auto].
Qed.

Lemma prop_get_app k o1 o2 :
  prop_get k (o1 ++ o2) =
  match prop_get k o1 with Some v => Some v | None => prop_get k o2 end.
Proof.
  induction o1 as [|[k' v'] o1 IH]; simpl; [reflexivity|].
  now destruct (String.eqb k' k).
Qed.

Lemma prop_get_update_same k v o :
  prop_has k o = true -> prop_get k (prop_update k v o) = Some v.
Proof.
  unfold prop_has. induction o as [|[k' v'] o IH]; simpl; [discriminate|].
  destruct (String.eqb_spec k' k) as [->|Hne]; intros H; simpl.
  - now rewrite String.eqb_refl.
  - apply String.eqb_neq in Hne. rewrite Hne. auto.
Qed.

Lemma prop_get_update_other k k' v o :
  k' <> k -> prop_get k' (prop_update k v o) = prop_get k' o.
Proof.
  intros Hne. induction o as [|[k0 v0] o IH]; simpl; [reflexivity|].
  destruct (String.eqb_spec k0 k) as [->|Hne0]; simpl.
  - assert (String.eqb k k' = false) as -> by (apply String.eqb_neq; congruence).
    reflexivity.
  - now rewrite IH.
Qed.

Lemma prop_get_insert_index_same n k v o :
  prop_has k o = false -> prop_get k (prop_insert_index n k v o) = Some v.
Proof.
  unfold prop_has. induction o as [|[k' v'] o IH]; simpl.
  - now rewrite String.eqb_refl.
  - destruct (String.eqb_spec k' k) as [->|Hne]; [discriminate|]. intros H.
    destruct (array_index k') as [n'|]; [destruct (n' <? n)%N|]; simpl;
      rewrite ?String.eqb_refl; try reflexivity.
    apply String.eqb_neq in Hne. rewrite Hne. auto.
Qed.

Lemma prop_get_insert_index_other n k k' v o :
  k' <> k -> prop_get k' (prop_insert_index n k v o) = prop_get k' o.
Proof.
  intros Hne.
  assert (String.eqb k k' = false) as E by (apply String.eqb_neq; congruence).
  induction o as [|[k0 v0] o IH]; simpl.
  - now rewrite E.
  - destruct (array_index k0) as [n'|]; [destruct (n' <? n)%N|]; simpl;
      rewrite ?E, ?IH; reflexivity.
Qed.

(** Reading back what was assigned. *)
Lemma prop_get_set_same k v o : prop_get k (prop_set k v o) = Some v.
Proof.
  unfold prop_set. destruct (prop_has k o) eqn:H.
  - now apply prop_get_update_same.
  - unfold prop_create. destruct (array_index k).
    + now apply prop_get_insert_index_same.
    + rewrite prop_get_app. apply prop_has_false in H. rewrite H. simpl.
      now rewrite String.eqb_refl.
Qed.

(** An assignment leaves the other properties alone. *)
Lemma prop_get_set_other k k' v o :
  k' <> k -> prop_get k' (prop_set k v o) = prop_get k' o.
Proof.
  intros Hne. unfold prop_set. destruct (prop_has k o).
  - now apply prop_get_update_other.
  - unfold prop_create. destruct (array_index k).
    + now apply prop_get_insert_index_other.
    + rewrite prop_get_app. destruct (prop_get k' o); [reflexivity|]. simpl.
      assert (String.eqb k k' = false) as -> by (apply String.eqb_neq; congruence).
      reflexivity.
Qed.

Lemma prop_keys_set k v o k' :
  In k' (prop_keys (prop_set k v o)) <-> k' = k \/ In k' (prop_keys o).
Proof.
  destruct (string_dec k' k) as [->|Hne].
  - split; [now left|]. intros _.
    destruct (in_dec string_dec k (prop_keys (prop_set k v o))) as [I|N]; [exact I|].
    apply prop_get_None_keys in N. rewrite prop_get_set_same in N. discriminate.
  - pose proof (prop_get_set_other k k' v o Hne) as E.
    split.
    + intros I. right.
      destruct (in_dec string_dec k' (prop_keys o)) as [I'|N]; [exact I'|].
      apply prop_get_None_keys in N. rewrite N in E.
      apply prop_get_None_keys in E. contradiction.
    + intros [?|I]; [contradiction|].
      destruct (in_dec string_dec k' (prop_keys (prop_set k v o))) as [I'|N]; [exact I'|].
      apply prop_get_None_keys in N. rewrite N in E. symmetry in E.
      apply prop_get_None_keys in E. contradiction.
Qed.
(** Keys stay unique. *)
Lemma prop_keys_update k v o : prop_keys (prop_update k v o) = prop_keys o.
Proof.
  induction o as [|[k' v'] o IH]; simpl; [reflexivity|].
  destruct (String.eqb_spec k' k) as [->|Hne]; simpl; [reflexivity | now rewrite IH].
Qed.

Lemma prop_keys_insert_index n k v o k' :
  In k' (prop_keys (prop_insert_index n k v o)) <-> k' = k \/ In k' (prop_keys o).
Proof.
  induction o as [|[k0 v0] o IH]; simpl.
  - intuition congruence.
  - destruct (array_index k0) as [n'|]; [destruct (n' <? n)%N|]; simpl;
      rewrite ?IH; intuition congruence.
Qed.

Lemma NoDup_prop_insert_index n k v o :
  ~ In k (prop_keys o) -> NoDup (prop_keys o) ->
  NoDup (prop_keys (prop_insert_index n k v o)).
Proof.
  induction o as [|[k0 v0] o IH]; simpl; intros Hk Hnd.
  - constructor; [auto | constructor].
  - assert (Hhere : NoDup (k :: k0 :: prop_keys o)) by (constructor; assumption).
    destruct (array_index k0) as [n'|]; [destruct (n' <? n)%N|]; simpl; try exact Hhere.
    inversion Hnd as [|? ? Hk0 Hnd']; subst. constructor.
    + rewrite prop_keys_insert_index. intros [->|I]; [apply Hk; now left | auto].
    + apply IH; [intros I; apply Hk; now right | exact Hnd'].
Qed.

Lemma NoDup_snoc (l : list string) (x : string) :
  ~ In x l -> NoDup l -> NoDup (l ++ [x]).
Proof.
  induction l as [|a l IH]; simpl; intros Hx Hnd.
  - constructor; [auto | constructor].
  - inversion Hnd as [|? ? Ha Hnd']; subst. constructor.
    + rewrite in_app_iff. simpl. intros [I|[->|[]]]; [auto | apply Hx; now left].
    + apply IH; [intros I; apply Hx; now right | exact Hnd'].
Qed.

Lemma NoDup_prop_set k v o :
  NoDup (prop_keys o) -> NoDup (prop_keys (prop_set k v o)).
Proof.
  intros Hnd. unfold prop_set. destruct (prop_has k o) eqn:H.
  - now rewrite prop_keys_update.
  - apply prop_has_false, prop_get_None_keys in H.
    unfold prop_create. destruct (array_index k).
    + now apply NoDup_prop_insert_index.
    + unfold prop_keys. rewrite map_app. now apply NoDup_snoc.
Qed.

Lemma prop_keys_nil_get o : (forall k, prop_get k o = None) -> o = [].
Proof.
  destruct o as [|[k v] o]; [reflexivity|]. intros H. specialize (H k).
  simpl in H. now rewrite String.eqb_refl in H.
Qed.

End PropsFacts.

(** Array-index names come first, by value; the other names keep the
    order of creation; an overwritten property keeps its place. *)
Example prop_set_order :
  prop_set "b" 5 (prop_set "2" 4 (prop_set "a" 3 (prop_set "10" 2 (prop_set "b" 1 []))))
  = [("2", 4); ("10", 2); ("b", 5); ("a", 3)].
Proof. reflexivity. Qed.

End JsFacts.

(* ================================================================== *)
(** * Properties of the tokenizer and the record assembler *)
(* ================================================================== *)

Module CSVParserFacts.
Import Js CSVParser JsFacts.

(** Outside quotes, a run of plain characters is appended to the
    accumulator and the scan goes on with the rest of the line. *)
Lemma parseLine_loop_plain (f rest : string) :
  plainField f = true ->
  forall values cur,
    parseLine_loop (f ++ rest)%string values cur false
    = parseLine_loop rest values (cur ++ f)%string false.
Proof.
  induction f as [|c f IH]; intros Hf values cur; simpl.
  - now rewrite append_empty_r.
  - simpl in Hf. apply andb_prop in Hf as [Hc Hf].
    unfold plainChar in Hc. apply andb_prop in Hc as [Hcomma Hquote].
    apply negb_true_iff in Hcomma, Hquote.
    rewrite Hquote, Hcomma. simpl.
    rewrite (IH Hf). now rewrite append_snoc.
Qed.

Lemma parseLine_loop_fields (fs : list string) :
  forallb plainField fs = true ->
  forall f values cur,
    plainField f = true ->
    parseLine_loop (join "," (f :: fs)) values cur false
    = values ++ (cur ++ f)%string :: fs.
Proof.
  induction fs as [|g fs IH]; intros Hfs f values cur Hf.
  - unfold join. simpl.
    rewrite <- (append_empty_r f) at 1.
    rewrite (parseLine_loop_plain f EmptyString Hf). reflexivity.
  - simpl in Hfs. apply andb_prop in Hfs as [Hg Hfs].
    unfold join in *. cbn [String.concat].
    rewrite (parseLine_loop_plain f _ Hf).
    cbn [append parseLine_loop].
    change (Ascii.eqb ","%char dquote) with false.
    change (Ascii.eqb ","%char comma) with true. cbn [andb negb].
    rewrite (IH Hfs g _ _ Hg). cbn [append].
    now rewrite <- app_assoc.
Qed.

(** C6.  Tokenizer round trip on well-formed rows: for every non-empty
    sequence of fields, none of which contains a comma or a double quote,
    [parseLine] of the comma-joined line returns the fields themselves. *)
Theorem parseLine_join_roundtrip (fields : list string) :
  fields <> [] ->
  forallb plainField fields = true ->
  parseLine (join "," fields) = fields.
Proof.
  intros Hne Hplain. destruct fields as [|f fs]; [contradiction|].
  simpl in Hplain. apply andb_prop in Hplain as [Hf Hfs].
  unfold parseLine. now rewrite (parseLine_loop_fields fs Hfs f [] EmptyString Hf).
Qed.

Lemma parseLine_join_roundtrip_witness :
  parseLine (join "," ["Rohit"; "Prasad"; "35"; " Pune "; EmptyString])
  = ["Rohit"; "Prasad"; "35"; " Pune "; EmptyString].
Proof.
  apply parseLine_join_roundtrip; [discriminate | reflexivity].
Defined.

(** The empty sequence is the one the round trip leaves out: its join is
    the empty line, which tokenizes to one empty field. *)
Example parseLine_empty_line : parseLine (join "," []) = [EmptyString].
Proof. reflexivity. Qed.

(** Tokenization never fails and always yields at least one field; a
    quote left open is not an error, the text after it is the last field. *)
Lemma parseLine_loop_length (n : nat) :
  forall line,
    String.length line <= n ->
    forall values cur inq,
      List.length values < List.length (parseLine_loop line values cur inq).
Proof.
  induction n as [|n IH]; intros [|c line] Hn values cur inq; simpl in Hn;
    try (simpl; rewrite length_app; simpl; lia); try lia.
  cbn [parseLine_loop]. destruct (Ascii.eqb c dquote).
  - destruct inq; [|apply IH; lia].
    destruct line as [|c' line']; [apply IH; simpl; lia|].
    simpl in Hn. destruct (Ascii.eqb c' dquote); apply IH; simpl; lia.
  - destruct (Ascii.eqb c comma && negb inq); [|apply IH; lia].
    specialize (IH line ltac:(lia) (values ++ [cur]) EmptyString inq).
    rewrite length_app in IH. simpl in IH. lia.
Qed.

(** The quoted field of the spec, with its embedded comma and its
    escaped quotes, is one field: the text [a,] then a quote, [b] and a
    quote. *)
Example parseLine_quoted :
  parseLine (String dquote ("a," ++ String dquote (String dquote
              ("b" ++ String dquote (String dquote (String dquote EmptyString))))))
  = [("a," ++ String dquote ("b" ++ String dquote EmptyString))%string].
Proof. reflexivity. Qed.

(** ** The record assembler *)

Lemma split_lines_nonempty (content : string) : split_lines content <> [].
Proof.
  destruct content as [|c rest]; simpl; [discriminate|].
  destruct (Ascii.eqb c CR).
  - destruct rest as [|c' rest']; [discriminate|]. now destruct (Ascii.eqb c' LF).
  - destruct (Ascii.eqb c LF); [discriminate|].
    now destruct (split_lines rest).
Qed.

(** [lines.length === 0] never holds: the guard of [parseCSVContent] is
    dead code. *)
Lemma splitIntoLines_nonempty (content : string) : splitIntoLines content <> [].
Proof. apply split_lines_nonempty. Qed.

(** X1.  [parseCSVContent] never throws: whatever the content, it returns
    an array of records. *)
Lemma parseCSVContent_never_throws (content : string) :
  exists records console, parseCSVContent content = (Normal records, console).
Proof.
  unfold parseCSVContent.
  destruct (splitIntoLines content) as [|first rest] eqn:E.
  - now apply splitIntoLines_nonempty in E.
  - destruct (rows_loop (parseLine first) 1 rest [] []) as [records console]. eauto.
Qed.

(** C3.  On the empty content the guard does not fire: [split] returns the
    one-element array holding the empty string, the header is that empty
    line, and the call returns an empty array of records without throwing. *)
Theorem parseCSVContent_empty_content :
  splitIntoLines EmptyString = [EmptyString]
  /\ parseCSVContent EmptyString = (Normal [], []).
Proof. split; reflexivity. Qed.

Import Assembler.

Lemma fill_record_zip (headers values : list string) (record : FlatRecord) :
  fill_record headers values record
  = fold_left (fun record hv => record_assign (fst hv) (snd hv) record)
      (combine (map trim headers) (map trim values)) record.
Proof.
  revert values record.
  induction headers as [|h hs IH]; intros [|v vs] record; simpl; auto.
Qed.

(** The loop over the data lines computes [assemble] and [diagnostics]. *)
Lemma rows_loop_assemble (headers : list string) (lines : list string) :
  forall i records console,
    rows_loop headers i lines records console
    = (records ++ assemble headers lines, console ++ diagnostics headers i lines).
Proof.
  induction lines as [|raw lines IH]; intros i records console; simpl.
  - now rewrite !app_nil_r.
  - unfold assemble_row, matches, mismatched, blank, row_of.
    destruct (String.eqb (trim raw) EmptyString); simpl.
    + now rewrite IH.
    + destruct (length (parseLine (trim raw)) =? length headers)%nat; simpl.
      * rewrite IH. rewrite fill_record_zip. unfold zip_record.
        now rewrite <- app_assoc.
      * rewrite IH. now rewrite <- app_assoc.
Qed.

Lemma record_assign_get_same (k v : string) (r : FlatRecord) :
  k <> proto_name -> prop_get k (record_assign k v r) = Some v.
Proof.
  intros Hk. unfold record_assign. apply String.eqb_neq in Hk. rewrite Hk.
  apply prop_get_set_same.
Qed.

Lemma record_assign_get_other (k k' v : string) (r : FlatRecord) :
  k' <> k -> prop_get k' (record_assign k v r) = prop_get k' r.
Proof.
  intros Hk. unfold record_assign. destruct (String.eqb k proto_name); [reflexivity|].
  now apply prop_get_set_other.
Qed.

Lemma record_assign_keys (k k' v : string) (r : FlatRecord) :
  In k' (prop_keys (record_assign k v r)) -> k' = k \/ In k' (prop_keys r).
Proof.
  unfold record_assign. destruct (String.eqb k proto_name); [now right|].
  apply prop_keys_set.
Qed.

Section AssignAll.
Let assign_all (pairs : list (string * string)) (r : FlatRecord) : FlatRecord :=
  fold_left (fun record hv => record_assign (fst hv) (snd hv) record) pairs r.

Lemma assign_all_keys (pairs : list (string * string)) :
  forall r k, In k (prop_keys (assign_all pairs r)) ->
              In k (map fst pairs) \/ In k (prop_keys r).
Proof.
  induction pairs as [|[k0 v0] pairs IH]; intros r k; simpl; [now right|].
  intros H. apply IH in H as [H|H]; [now left; right|].
  apply record_assign_keys in H as [->|H]; [left; now left | now right].
Qed.

Lemma assign_all_untouched (pairs : list (string * string)) (k : string) :
  (forall p, In p pairs -> fst p <> k) ->
  forall r, prop_get k (assign_all pairs r) = prop_get k r.
Proof.
  induction pairs as [|[k0 v0] pairs IH]; intros Hk r; simpl; [reflexivity|].
  rewrite IH by (intros p Hp; apply Hk; now right).
  apply record_assign_get_other. intros ->. apply (Hk (k0, v0)); [now left | reflexivity].
Qed.

(** The last assignment to a key is the one that is read back. *)
Lemma assign_all_last (pairs : list (string * string)) (k v : string) :
  k <> proto_name ->
  forall i r,
    nth_error pairs i = Some (k, v) ->
    (forall j p, i < j -> nth_error pairs j = Some p -> fst p <> k) ->
    prop_get k (assign_all pairs r) = Some v.
Proof.
  intros Hk. induction pairs as [|[k0 v0] pairs IH]; intros [|i] r Hi Hlater;
    simpl in *; try discriminate.
  - injection Hi as -> ->.
    rewrite assign_all_untouched.
    + now apply record_assign_get_same.
    + intros p Hp. apply In_nth_error in Hp as [j Hj].
      apply (Hlater (S j) p); [lia | exact Hj].
  - apply (IH i); [exact Hi|].
    intros j p Hij Hj. apply (Hlater (S j) p); [lia | exact Hj].
Qed.
End AssignAll.

Lemma nth_error_combine {A B : Type} (l : list A) (l' : list B) :
  forall i p, nth_error (combine l l') i = Some p ->
              nth_error l i = Some (fst p) /\ nth_error l' i = Some (snd p).
Proof.
  revert l'. induction l as [|a l IH]; intros [|b l'] [|i] p; simpl; try discriminate.
  - intros H. injection H as <-. auto.
  - apply IH.
Qed.

Lemma nth_error_combine_some {A B : Type} (l : list A) (l' : list B) :
  forall i a b, nth_error l i = Some a -> nth_error l' i = Some b ->
                nth_error (combine l l') i = Some (a, b).
Proof.
  revert l'. induction l as [|a0 l IH]; intros [|b0 l'] [|i] a b; simpl; try discriminate.
  - congruence.
  - apply IH.
Qed.

Lemma zip_record_zipped (header row : list string) :
  zipped header row (zip_record header row).
Proof.
  unfold zipped, zip_record. split.
  - intros k Hk. apply assign_all_keys in Hk as [Hk|[]].
    apply in_map_iff in Hk as [[k' v'] [<- Hin]].
    apply in_combine_l in Hin. exact Hin.
  - intros i h v Hh Hv Hproto Hlater.
    apply (assign_all_last _ _ _ Hproto i).
    + apply nth_error_combine_some; now apply map_nth_error.
    + intros j p Hij Hj. apply nth_error_combine in Hj as [Hj _].
      rewrite nth_error_map in Hj.
      destruct (nth_error header j) as [h'|] eqn:E; [|discriminate].
      injection Hj as Hj. rewrite <- Hj. now apply (Hlater j).
Qed.

(** C7.  Record assembly: [parseCSVContent] never fails on account of a
    row; its records are those of the data rows whose field count is the
    header's, in order, each the record zipping trimmed header field [i] to
    trimmed value field [i]; a row with another field count adds no record
    and one diagnostic, so the record count leaves it out. *)
Theorem parseCSVContent_skips_mismatched_rows (content : string) :
  let lines := splitIntoLines content in
  let header := parseLine (hd EmptyString lines) in
  let rows := tl lines in
  parseCSVContent content = (Normal (assemble header rows), diagnostics header 1 rows)
  /\ length (assemble header rows) = length (filter (matches header) rows)
  /\ length (diagnostics header 1 rows) = length (filter (mismatched header) rows)
  /\ (forall line, mismatched header line = true -> assemble_row header line = [])
  /\ (forall line, matches header line = true ->
        assemble_row header line = [zip_record header (row_of line)]
        /\ fill_record header (row_of line) [] = zip_record header (row_of line)
        /\ zipped header (row_of line) (zip_record header (row_of line))).
Proof.
  cbv zeta. repeat split.
  - unfold parseCSVContent.
    destruct (splitIntoLines content) as [|first rest] eqn:E.
    + now apply splitIntoLines_nonempty in E.
    + simpl. now rewrite rows_loop_assemble.
  - generalize (tl (splitIntoLines content)) as rows.
    induction rows as [|l rows IH]; simpl; [reflexivity|].
    rewrite length_app, IH. unfold assemble_row.
    now destruct (matches _ l).
  - generalize (tl (splitIntoLines content)) as rows. generalize 1.
    intros n rows. revert n.
    induction rows as [|l rows IH]; intros n; simpl; [reflexivity|].
    rewrite length_app, IH. now destruct (mismatched _ l).
  - intros line H. unfold assemble_row, matches. unfold mismatched in H.
    apply andb_prop in H as [_ H]. apply negb_true_iff in H. rewrite H.
    now rewrite andb_false_r.
  - unfold assemble_row. now rewrite H.
  - apply fill_record_zip.
  - apply zip_record_zipped.
  - apply zip_record_zipped.
Qed.

(** The example of the spec: under the header [a,b,c] a row of two fields
    is skipped, and only the three-field row is counted. *)
Lemma parseCSVContent_skips_mismatched_rows_witness :
  parseCSVContent ("a,b,c" ++ String LF "1,2" ++ String LF " x, y ,z ")
  = (Normal [[("a", "x"); ("b", "y"); ("c", "z")]],
     ["Warning: Line 2 has 2 values but expected 3. Skipping."]).
Proof.
  exact (proj1 (parseCSVContent_skips_mismatched_rows
                  ("a,b,c" ++ String LF "1,2" ++ String LF " x, y ,z "))).
Defined.

End CSVParserFacts.

(* ================================================================== *)
(** * Properties of the nested builder and the field separator *)
(* ================================================================== *)

Module ObjectBuilderFacts.
Import Js CSVParser ObjectBuilder JsFacts.

(** ** Paths and their dot-joins *)

Lemma split_on_nonempty (sep : ascii) (s : string) : split_on sep s <> [].
Proof.
  destruct s as [|c s]; simpl; [discriminate|].
  destruct (Ascii.eqb c sep); [discriminate|]. now destruct (split_on sep s).
Qed.

Lemma segments_nonempty (key : string) : segments key <> [].
Proof. apply split_on_nonempty. Qed.

Lemma split_on_plain_prefix (sep : ascii) (f rest : string) :
  string_forallb (fun c => negb (Ascii.eqb c sep)) f = true ->
  split_on sep (f ++ rest)
  = match split_on sep rest with
    | piece :: pieces => (f ++ piece)%string :: pieces
    | [] => [f]
    end.
Proof.
  induction f as [|c f IH]; intros Hf; simpl.
  - destruct (split_on sep rest) eqn:E; [now apply split_on_nonempty in E | reflexivity].
  - simpl in Hf. apply andb_prop in Hf as [Hc Hf]. apply negb_true_iff in Hc.
    rewrite Hc, (IH Hf). now destruct (split_on sep rest).
Qed.

Lemma segments_join (keys : list string) :
  keys <> [] -> dot_free keys = true -> segments (join "." keys) = keys.
Proof.
  unfold segments, join.
  induction keys as [|k keys IH]; intros Hne Hfree; [contradiction|].
  simpl in Hfree. apply andb_prop in Hfree as [Hk Hfree].
  destruct keys as [|k' keys].
  - simpl. rewrite <- (append_empty_r k) at 1.
    rewrite (split_on_plain_prefix dot k EmptyString Hk). simpl.
    now rewrite append_empty_r.
  - change (String.concat "." (k :: k' :: keys))
      with (k ++ String "."%char (String.concat "." (k' :: keys)))%string.
    rewrite (split_on_plain_prefix dot k _ Hk).
    change (split_on dot (String "."%char (String.concat "." (k' :: keys))))
      with (EmptyString :: split_on dot (String.concat "." (k' :: keys))).
    rewrite IH by (discriminate || exact Hfree).
    now rewrite append_empty_r.
Qed.

(** ** One assignment *)

Lemma get_path_nil_obj (keys : list string) : get_path keys [] = None.
Proof. destruct keys as [|k [|k' keys]]; reflexivity. Qed.

Lemma set_along_cons (key k' : string) (rest : list string) (current : Obj) (value : string) :
  set_along (key :: k' :: rest) current value
  = if String.eqb key proto_name then None
    else match set_along (k' :: rest)
                 (match prop_get key current with Some (VObj c) => c | _ => [] end)
                 value with
         | Some child' => Some (prop_set key (VObj child') current)
         | None => None
         end.
Proof. reflexivity. Qed.

Lemma get_path_cons (k k' : string) (rest : list string) (o : Obj) :
  get_path (k :: k' :: rest) o
  = match prop_get k o with
    | Some (VObj c) => get_path (k' :: rest) c
    | _ => None
    end.
Proof. reflexivity. Qed.

(** Without [__proto__] among the segments the walk stays in the record. *)
Lemma set_along_total (keys : list string) :
  proto_free keys = true ->
  forall current value, exists current', set_along keys current value = Some current'.
Proof.
  induction keys as [|k keys IH]; intros Hfree current value; [simpl; eauto|].
  simpl in Hfree. apply andb_prop in Hfree as [Hk Hfree].
  destruct keys as [|k' keys]; [simpl; eauto|].
  rewrite set_along_cons. apply negb_true_iff in Hk. rewrite Hk.
  destruct (IH Hfree (match prop_get k current with Some (VObj c) => c | _ => [] end) value)
    as [child' ->]. eauto.
Qed.

(** The assigned path reads back the assigned value. *)
Lemma set_along_get (keys : list string) :
  keys <> [] -> proto_free keys = true ->
  forall current value current',
    set_along keys current value = Some current' ->
    get_path keys current' = Some (VStr value).
Proof.
  induction keys as [|k keys IH]; intros Hne Hfree current value current' Hset;
    [contradiction|].
  simpl in Hfree. apply andb_prop in Hfree as [Hk Hfree].
  apply negb_true_iff in Hk.
  destruct keys as [|k' keys].
  - simpl in Hset. injection Hset as <-. simpl. unfold assign_leaf. rewrite Hk.
    apply prop_get_set_same.
  - rewrite set_along_cons, Hk in Hset.
    destruct (set_along (k' :: keys) _ value) as [child'|] eqn:E; [|discriminate].
    injection Hset as <-. rewrite get_path_cons, prop_get_set_same.
    apply (IH ltac:(discriminate) Hfree _ _ _ E).
Qed.

(** On the empty record a dot-path builds the chain of one-key mappings. *)
Lemma set_along_nest (keys : list string) (value : string) :
  keys <> [] -> proto_free keys = true ->
  set_along keys [] value = Some (nest keys value).
Proof.
  induction keys as [|k keys IH]; intros Hne Hfree; [contradiction|].
  simpl in Hfree. apply andb_prop in Hfree as [Hk Hfree].
  apply negb_true_iff in Hk.
  assert (Hset : forall v : Value, prop_set k v [] = [(k, v)]).
  { intros v. unfold prop_set, prop_create. simpl. now destruct (array_index k). }
  destruct keys as [|k' keys].
  - simpl. unfold assign_leaf. now rewrite Hk, Hset.
  - rewrite set_along_cons, Hk. cbn [prop_get].
    rewrite (IH ltac:(discriminate) Hfree). now rewrite Hset.
Qed.

(** A segment that holds no mapping (a string, or nothing) gets a new
    mapping, which holds the rest of the path and nothing else. *)
Lemma set_along_replaces_leaf (key : string) (rest : list string)
    (current : Obj) (value : string) :
  rest <> [] -> proto_free (key :: rest) = true ->
  (forall c, prop_get key current <> Some (VObj c)) ->
  set_along (key :: rest) current value
  = Some (prop_set key (VObj (nest rest value)) current).
Proof.
  intros Hne Hfree Hleaf. simpl in Hfree. apply andb_prop in Hfree as [Hk Hfree].
  apply negb_true_iff in Hk.
  destruct rest as [|k' rest]; [contradiction|].
  rewrite set_along_cons, Hk.
  destruct (prop_get key current) as [[s|c]|];
    [ | now destruct (Hleaf c) | ];
    now rewrite (set_along_nest (k' :: rest) value Hne Hfree).
Qed.

(** The same at any depth: whatever the record held at the prefix [p] of
    the path, if it was no mapping then afterwards it is the new mapping
    that holds the rest [q] of the path and nothing else. *)
Lemma set_along_replaces (p q : list string) (value : string) :
  p <> [] -> q <> [] -> proto_free (p ++ q) = true ->
  forall current current',
    (forall c, get_path p current <> Some (VObj c)) ->
    set_along (p ++ q) current value = Some current' ->
    get_path p current' = Some (VObj (nest q value)).
Proof.
  intros Hp Hq. induction p as [|k p IH]; [contradiction|].
  intros Hfree current current' Hleaf Hset.
  simpl in Hfree. apply andb_prop in Hfree as [Hk Hfree].
  apply negb_true_iff in Hk.
  destruct p as [|k2 p].
  - destruct q as [|k2 q]; [contradiction|]. simpl app in *.
    rewrite (set_along_replaces_leaf k (k2 :: q) current value) in Hset.
    + injection Hset as <-. simpl. apply prop_get_set_same.
    + discriminate.
    + simpl. now rewrite Hk.
    + exact Hleaf.
  - simpl app in *. rewrite set_along_cons, Hk in Hset.
    destruct (set_along (k2 :: p ++ q) _ value) as [child'|] eqn:E; [|discriminate].
    injection Hset as <-. rewrite get_path_cons, prop_get_set_same.
    refine (IH ltac:(discriminate) Hfree _ _ _ E).
    intros c Hc. rewrite get_path_cons in Hleaf.
    destruct (prop_get k current) as [[s|c0]|].
    + now rewrite get_path_nil_obj in Hc.
    + now apply (Hleaf c).
    + now rewrite get_path_nil_obj in Hc.
Qed.

Lemma is_prefix_refl (l : list string) : is_prefix l l = true.
Proof. induction l as [|k l IH]; simpl; [reflexivity|]. now rewrite String.eqb_refl. Qed.

(** An assignment along a path that does not conflict with [keys] leaves
    what [keys] reads unchanged. *)
Lemma set_along_other (keys' : list string) :
  forall keys current value current',
    conflicting keys keys' = false ->
    set_along keys' current value = Some current' ->
    get_path keys current' = get_path keys current.
Proof.
  unfold conflicting.
  induction keys' as [|k' keys' IH]; intros keys current value current' Hc Hset.
  - simpl in Hset. now injection Hset as <-.
  - destruct keys as [|k keys]; [discriminate|].
    simpl in Hc. apply orb_false_elim in Hc as [Hc1 Hc2].
    destruct (String.eqb_spec k k') as [->|Hne].
    + rewrite String.eqb_refl in Hc2. simpl in Hc1, Hc2.
      destruct keys' as [|k2' keys'].
      { now destruct keys. }
      destruct keys as [|k2 keys]; [discriminate|].
      rewrite set_along_cons in Hset.
      destruct (String.eqb k' proto_name); [discriminate|].
      destruct (set_along (k2' :: keys') _ value) as [child'|] eqn:E; [|discriminate].
      injection Hset as <-. rewrite !get_path_cons, prop_get_set_same.
      rewrite (IH (k2 :: keys) _ _ _ ltac:(now rewrite Hc1, Hc2) E).
      destruct (prop_get k' current) as [[s|c]|]; try reflexivity;
        apply get_path_nil_obj.
    + assert (Hget : prop_get k current' = prop_get k current).
      { destruct keys' as [|k2' keys'].
        - simpl in Hset. injection Hset as <-. unfold assign_leaf.
          destruct (String.eqb k' proto_name); [reflexivity|].
          now apply prop_get_set_other.
        - rewrite set_along_cons in Hset.
          destruct (String.eqb k' proto_name); [discriminate|].
          destruct (set_along (k2' :: keys') _ value); [|discriminate].
          injection Hset as <-. now apply prop_get_set_other. }
      destruct keys as [|k2 keys]; [exact Hget|].
      now rewrite !get_path_cons, Hget.
Qed.

(** A path that holds a string has nothing below it, and a path with
    something below it holds a mapping. *)
Lemma get_path_below (p q : list string) (o : Obj) (x : Value) :
  p <> [] -> q <> [] ->
  get_path (p ++ q) o = Some x -> exists c, get_path p o = Some (VObj c).
Proof.
  revert o. induction p as [|k p IH]; intros o Hp Hq H; [contradiction|].
  destruct p as [|k2 p].
  - destruct q as [|k2 q]; [contradiction|]. simpl app in H.
    rewrite get_path_cons in H. simpl.
    destruct (prop_get k o) as [[s|c]|]; try discriminate. eauto.
  - simpl app in H. rewrite get_path_cons in H. rewrite get_path_cons.
    destruct (prop_get k o) as [[s|c]|]; try discriminate.
    now apply IH.
Qed.

(** ** The whole flat record *)

Lemma build_loop_other (keys : list string) (entries : list (string * string)) :
  forall result nested,
    (forall key value, In (key, value) entries ->
                       conflicting keys (segments key) = false) ->
    build_loop entries result = Some nested ->
    get_path keys nested = get_path keys result.
Proof.
  induction entries as [|[key value] entries IH]; intros result nested Hc Hb; simpl in Hb.
  - now injection Hb as <-.
  - destruct (setNestedProperty result key value) as [result'|] eqn:E; [|discriminate].
    rewrite (IH result' nested);
      [ | intros k v Hin; apply Hc with v; now right | exact Hb ].
    apply (set_along_other (segments key) keys result value result');
      [apply Hc with value; now left | exact E].
Qed.

(** Last write wins: an entry that no later entry conflicts with is read
    back at its path. *)
Lemma build_loop_settles (entries : list (string * string)) :
  forall result nested i key value,
    build_loop entries result = Some nested ->
    nth_error entries i = Some (key, value) ->
    proto_free (segments key) = true ->
    (forall j key' value', i < j -> nth_error entries j = Some (key', value') ->
                           conflicting (segments key) (segments key') = false) ->
    get_path (segments key) nested = Some (VStr value).
Proof.
  induction entries as [|[k0 v0] entries IH]; intros result nested [|i] key value Hb Hi Hfree Hlater;
    simpl in Hb, Hi; try discriminate;
    destruct (setNestedProperty result k0 v0) as [result'|] eqn:E; try discriminate.
  - injection Hi as -> ->.
    rewrite (build_loop_other (segments key) entries result' nested).
    + apply (set_along_get (segments key) (segments_nonempty key) Hfree _ _ _ E).
    + intros key' value' Hin. apply In_nth_error in Hin as [j Hj].
      apply (Hlater (S j) key' value'); [lia | exact Hj].
    + exact Hb.
  - apply (IH result' nested i key value Hb Hi Hfree).
    intros j key' value' Hij Hj. apply (Hlater (S j) key' value'); [lia | exact Hj].
Qed.

(** C8.  The nested builder: the dot-path [a.b.c] assigns
    [{a: {b: {c: value}}}], and so does every dot-path on the empty record;
    an intermediate segment that holds a string (or nothing), at any
    depth, is replaced by a new mapping, which then holds the rest of the
    path only; and of the
    keys of a flat record, taken in its iteration order, the one processed
    last wins: it is read back at its path, every segment above it is a
    mapping, and nothing is left below it. *)
Theorem setNestedProperty_last_write_wins :
  (forall value,
      setNestedProperty [] "a.b.c" value
      = Some [("a", VObj [("b", VObj [("c", VStr value)])])])
  /\ (forall keys value,
        keys <> [] -> proto_free keys = true -> dot_free keys = true ->
        setNestedProperty [] (join "." keys) value = Some (nest keys value))
  /\ (forall obj key rest value,
        rest <> [] -> proto_free (key :: rest) = true -> dot_free (key :: rest) = true ->
        (forall c, prop_get key obj <> Some (VObj c)) ->
        setNestedProperty obj (join "." (key :: rest)) value
        = Some (prop_set key (VObj (nest rest value)) obj))
  /\ (forall obj key value obj' p q,
        segments key = p ++ q -> p <> [] -> q <> [] ->
        proto_free (segments key) = true ->
        (forall c, get_path p obj <> Some (VObj c)) ->
        setNestedProperty obj key value = Some obj' ->
        get_path p obj' = Some (VObj (nest q value)))
  /\ (forall flat nested key value,
        buildNestedObject flat = Some nested ->
        settles flat key value ->
        proto_free (segments key) = true ->
        get_path (segments key) nested = Some (VStr value)
        /\ (forall p q, p <> [] -> q <> [] -> segments key = p ++ q ->
                        exists c, get_path p nested = Some (VObj c))
        /\ (forall q, q <> [] -> get_path (segments key ++ q) nested = None)).
Proof.
  split; [reflexivity|]. split; [|split; [|split]].
  3: { intros obj key value obj' p q E Hp Hq Hfree Hleaf Hset.
       unfold setNestedProperty in Hset. fold (segments key) in Hset.
       rewrite E in Hset, Hfree.
       now apply (set_along_replaces p q value Hp Hq Hfree obj obj'). }
  - intros keys value Hne Hp Hd. unfold setNestedProperty.
    fold (segments (join "." keys)). rewrite (segments_join keys Hne Hd).
    now apply set_along_nest.
  - intros obj key rest value Hne Hp Hd Hleaf. unfold setNestedProperty.
    fold (segments (join "." (key :: rest))).
    rewrite (segments_join (key :: rest) ltac:(discriminate) Hd).
    now apply set_along_replaces_leaf.
  - intros flat nested key value Hb (i & Hi & Hlater) Hfree.
    assert (Hget : get_path (segments key) nested = Some (VStr value))
      by (apply (build_loop_settles flat [] nested i key value); assumption).
    split; [exact Hget|]. split.
    + intros p q Hp Hq E. rewrite E in Hget. now apply (get_path_below p q nested (VStr value)).
    + intros q Hq. destruct (get_path (segments key ++ q) nested) as [x|] eqn:E; [|reflexivity].
      apply get_path_below in E as [c E]; [congruence | apply segments_nonempty | exact Hq].
Qed.

(** The type conflict of the spec, both ways round: [a] then [a.b] leaves
    the mapping, [a.b] then [a] leaves the string. *)
Lemma setNestedProperty_last_write_wins_witness :
  buildNestedObject [("a", "1"); ("a.b", "2")] = Some [("a", VObj [("b", VStr "2")])]
  /\ get_path (segments "a.b") [("a", VObj [("b", VStr "2")])] = Some (VStr "2")
  /\ buildNestedObject [("a.b", "2"); ("a", "1")] = Some [("a", VStr "1")]
  /\ get_path (segments "a" ++ ["b"]) [("a", VStr "1")] = None.
Proof.
  destruct setNestedProperty_last_write_wins as (_ & _ & _ & _ & H).
  split; [reflexivity|]. split; [|split; [reflexivity|]].
  - apply (H [("a", "1"); ("a.b", "2")] _ "a.b" "2"); [reflexivity | | reflexivity].
    exists 1. split; [reflexivity|].
    intros [|[|[|j]]] key' value' Hj E; simpl in E; try discriminate; lia.
  - apply (H [("a.b", "2"); ("a", "1")] _ "a" "1"); [reflexivity | | reflexivity | discriminate].
    exists 1. split; [reflexivity|].
    intros [|[|[|j]]] key' value' Hj E; simpl in E; try discriminate; lia.
Defined.

(** ** The builder's result is a well-formed record *)

Lemma well_formed_set (k : string) (v : Value) (o : Obj) :
  k <> proto_name -> well_formed o -> well_formed (prop_set k v o).
Proof.
  intros Hk [Hnd Hp]. split.
  - now apply NoDup_prop_set.
  - rewrite prop_get_set_other; [exact Hp | congruence].
Qed.

Lemma set_along_well_formed (keys : list string) (current : Obj) (value : string)
    (current' : Obj) :
  well_formed current -> set_along keys current value = Some current' ->
  well_formed current'.
Proof.
  intros Hwf Hset. destruct keys as [|k [|k' keys]].
  - simpl in Hset. now injection Hset as <-.
  - simpl in Hset. injection Hset as <-. unfold assign_leaf.
    destruct (String.eqb_spec k proto_name); [exact Hwf | now apply well_formed_set].
  - rewrite set_along_cons in Hset.
    destruct (String.eqb_spec k proto_name); [discriminate|].
    destruct (set_along (k' :: keys) _ value); [|discriminate].
    injection Hset as <-. now apply well_formed_set.
Qed.

Lemma buildNestedObject_well_formed (flat : FlatRecord) (nested : Obj) :
  buildNestedObject flat = Some nested -> well_formed nested.
Proof.
  unfold buildNestedObject.
  assert (Hwf : well_formed []) by (split; [constructor | reflexivity]).
  revert Hwf. generalize (@nil (string * Value)) as result.
  induction flat as [|[key value] flat IH]; intros result Hwf Hb; simpl in Hb.
  - now injection Hb as <-.
  - destruct (setNestedProperty result key value) as [result'|] eqn:E; [|discriminate].
    apply (IH result'); [|exact Hb].
    now apply (set_along_well_formed (split_on dot key) result value).
Qed.

(** ** The field separator *)

(** What the loop over the entries leaves in [additionalInfo]. *)
Lemma additional_loop_get (entries : Obj) :
  NoDup (prop_keys entries) ->
  forall additionalInfo k,
    prop_get k (additional_loop entries additionalInfo)
    = if mandatory_key k || String.eqb k proto_name then prop_get k additionalInfo
      else match prop_get k entries with
           | Some v => Some v
           | None => prop_get k additionalInfo
           end.
Proof.
  induction entries as [|[k0 v0] entries IH]; intros Hnd acc k; simpl.
  - now destruct (mandatory_key k || String.eqb k proto_name).
  - inversion Hnd as [|? ? Hk0 Hnd']; subst.
    destruct (mandatory_key k0) eqn:Hm0; simpl; rewrite (IH Hnd').
    + destruct (String.eqb_spec k0 k) as [->|Hne]; [now rewrite Hm0 | reflexivity].
    + unfold info_assign.
      destruct (String.eqb_spec k0 k) as [->|Hne].
      * rewrite Hm0. simpl.
        apply prop_get_None_keys in Hk0. rewrite Hk0.
        destruct (String.eqb k proto_name); [reflexivity | apply prop_get_set_same].
      * destruct (String.eqb k0 proto_name); [reflexivity|].
        rewrite prop_get_set_other by congruence. reflexivity.
Qed.

Lemma additional_info_get (nested : Obj) (k : string) :
  well_formed nested ->
  prop_get k (additional_loop nested [])
  = if mandatory_key k then None else prop_get k nested.
Proof.
  intros [Hnd Hp]. rewrite (additional_loop_get nested Hnd). simpl.
  destruct (mandatory_key k); simpl; [reflexivity|].
  destruct (String.eqb_spec k proto_name) as [->|Hne]; [now rewrite Hp|].
  now destruct (prop_get k nested).
Qed.

Lemma additional_info_empty (nested : Obj) :
  well_formed nested ->
  additional_loop nested [] = []
  <-> forall k, In k (prop_keys nested) -> mandatory_key k = true.
Proof.
  intros Hwf. split.
  - intros E k Hin. pose proof (additional_info_get nested k Hwf) as G.
    rewrite E in G. simpl in G.
    destruct (mandatory_key k); [reflexivity|].
    symmetry in G. apply prop_get_None_keys in G. contradiction.
  - intros Hall. apply prop_keys_nil_get. intros k.
    rewrite (additional_info_get nested k Hwf).
    destruct (mandatory_key k) eqn:Hm; [reflexivity|].
    apply prop_get_None_keys. intros Hin. apply Hall in Hin. congruence.
Qed.

Lemma separateMandatoryFields_fields (nested : Obj) (user : PersistableUser) :
  separateMandatoryFields nested = Normal user ->
  exists first last,
    ToString (or_empty (get_path ["name"; "firstName"] nested)) = Normal first
    /\ ToString (or_empty (get_path ["name"; "lastName"] nested)) = Normal last
    /\ name user = trim (first ++ " " ++ last)
    /\ parseInt_or_0 (prop_get "age" nested) = Normal (age user)
    /\ address user = truthy (prop_get "address" nested)
    /\ additional_info user
       = match additional_loop nested [] with
         | [] => None
         | info => Some info
         end.
Proof.
  unfold separateMandatoryFields.
  change (get_path ["name"; "firstName"] nested)
    with (member (prop_get "name" nested) "firstName").
  change (get_path ["name"; "lastName"] nested)
    with (member (prop_get "name" nested) "lastName").
  destruct (parseInt_or_0 (prop_get "age" nested)) as [z|]; [|discriminate].
  destruct (ToString (or_empty (member (prop_get "name" nested) "firstName")))
    as [first|]; [|discriminate].
  destruct (ToString (or_empty (member (prop_get "name" nested) "lastName")))
    as [last|]; [|discriminate].
  intros H. injection H as <-. exists first, last. simpl.
  repeat split. now destruct (additional_loop nested []).
Qed.

Lemma or_empty_string (s : string) : ToString (or_empty (Some (VStr s))) = Normal s.
Proof.
  unfold or_empty, truthy. destruct (String.eqb_spec s EmptyString) as [->|]; reflexivity.
Qed.

Lemma settles_get_path (flat : FlatRecord) (nested : Obj) (key value : string) :
  buildNestedObject flat = Some nested ->
  settles flat key value ->
  proto_free (segments key) = true ->
  get_path (segments key) nested = Some (VStr value).
Proof.
  intros Hb (i & Hi & Hlater) Hfree.
  now apply (build_loop_settles flat [] nested i key value).
Qed.

Lemma field_get_path (flat : FlatRecord) (nested : Obj) (key : string)
    (value : option string) :
  buildNestedObject flat = Some nested ->
  field flat key value ->
  proto_free (segments key) = true ->
  get_path (segments key) nested = option_map VStr value.
Proof.
  intros Hb Hfield Hfree. destruct value as [v|]; simpl in *.
  - now apply (settles_get_path flat).
  - rewrite (build_loop_other (segments key) flat [] nested Hfield Hb).
    apply get_path_nil_obj.
Qed.

Lemma or_empty_field (value : option string) :
  ToString (or_empty (option_map VStr value)) = Normal (or_default value).
Proof. destruct value as [v|]; [apply or_empty_string | reflexivity]. Qed.

Lemma segments_address (sub : string) :
  segments ("address." ++ sub) = "address" :: segments sub.
Proof.
  unfold segments. simpl.
  destruct (split_on dot sub) eqn:E; [now apply split_on_nonempty in E | reflexivity].
Qed.

(** An [age] that does not parse is stored as 0, and so is a missing one;
    what is neither name, age nor address goes to [additional_info]. *)
Example processRecord_unparseable_age :
  processRecord [("name.firstName", "Ann"); ("age", "n/a")]
  = Some (Normal {| name := "Ann"; age := Finite 0; address := None;
                    additional_info := None |})
  /\ processRecord [("name.lastName", "Lee"); ("gender", "f"); ("job.title", "dev")]
     = Some (Normal {| name := "Lee"; age := Finite 0; address := None;
                       additional_info :=
                         Some [("gender", VStr "f");
                               ("job", VObj [("title", VStr "dev")])] |}).
Proof. split; reflexivity. Qed.

End ObjectBuilderFacts.

(* ================================================================== *)
(** * Properties of the persistence engine *)
(* ================================================================== *)

Module UserServiceFacts.
Import Js ObjectBuilder UserService.

Section EngineFacts.
Variable Db : Type.
Variable exec : Db -> Op -> Db * Reply.
Variable JSON_stringify : Value -> string.

#[local] Abbreviation query := (query Db exec).
#[local] Abbreviation replay := (replay Db exec).
#[local] Abbreviation insert_loop := (insert_loop Db exec JSON_stringify).
#[local] Abbreviation chunks_loop := (chunks_loop Db exec JSON_stringify).
#[local] Abbreviation values_of := (values_of JSON_stringify).
#[local] Abbreviation unnest_op := (unnest_op JSON_stringify).
#[local] Abbreviation batchInsertUsers := (batchInsertUsers Db exec JSON_stringify).
#[local] Abbreviation optimizedBatchInsert := (optimizedBatchInsert Db exec JSON_stringify).

Lemma query_done (db db' : Db) (op : Op) (n : nat) :
  exec db op = (db', Done n) -> query op db = (db', Normal n).
Proof. unfold UserService.query. now intros ->. Qed.

Lemma query_failed (db db' : Db) (op : Op) (message : string) :
  exec db op = (db', Failed message) -> query op db = (db', Throw message).
Proof. unfold UserService.query. now intros ->. Qed.

Lemma replay_app (ops1 ops2 : list Op) :
  forall db,
    replay db (ops1 ++ ops2)
    = let (db1, replies1) := replay db ops1 in
      let (db2, replies2) := replay db1 ops2 in
      (db2, replies1 ++ replies2).
Proof.
  induction ops1 as [|op ops1 IH]; intros db; simpl.
  - now destruct (replay db ops2).
  - destruct (exec db op) as [db' reply]. rewrite IH.
    destruct (replay db' ops1) as [db1 replies1].
    now destruct (replay db1 ops2).
Qed.

Lemma replay_length (ops : list Op) :
  forall db, length (snd (replay db ops)) = length ops.
Proof.
  induction ops as [|op ops IH]; intros db; simpl; [reflexivity|].
  destruct (exec db op) as [db' reply]. specialize (IH db').
  destruct (replay db' ops). simpl in *. now rewrite IH.
Qed.

(** ** The row-by-row path *)

(** Every row is attempted, whatever the engine answered to the rows
    before it; a rejected row adds one failure and one error entry, an
    accepted row adds one insertion. *)
Lemma insert_loop_replay (users : list PersistableUser) :
  forall insertedCount failedCount errors db db' replies,
    replay db (map (fun u => Insert (values_of u)) users) = (db', replies) ->
    insert_loop users insertedCount failedCount errors db
    = (db', Normal (insertedCount + inserted_in replies,
                    failedCount + failed_in replies,
                    errors ++ error_entries users replies)).
Proof.
  induction users as [|u users IH]; intros i f e db db' replies Hr; simpl in Hr.
  - injection Hr as <- <-. simpl. unfold ret, inserted_in, failed_in. simpl.
    now rewrite !Nat.add_0_r, app_nil_r.
  - destruct (exec db (Insert (values_of u))) as [db1 reply] eqn:E.
    destruct (replay db1 _) as [db2 replies'] eqn:R.
    injection Hr as <- <-.
    cbn [UserService.insert_loop]. unfold bind at 1, try_catch, bind at 1.
    unfold UserService.query. rewrite E.
    destruct reply as [n|message]; unfold ret at 1.
    + rewrite (IH (S i) f e db1 db2 replies' R).
      unfold inserted_in, failed_in. simpl. do 3 f_equal. f_equal. lia.
    + rewrite (IH i (S f) _ db1 db2 replies' R).
      unfold inserted_in, failed_in. simpl. rewrite <- app_assoc. simpl.
      do 3 f_equal. f_equal. lia.
Qed.

Lemma inserted_failed_length (replies : list Reply) :
  inserted_in replies + failed_in replies = length replies.
Proof.
  unfold inserted_in, failed_in.
  induction replies as [|[n|m] replies IH]; simpl; lia.
Qed.

Lemma error_entries_length (users : list PersistableUser) :
  forall replies, length replies = length users ->
                  length (error_entries users replies) = failed_in replies.
Proof.
  unfold failed_in.
  induction users as [|u users IH]; intros [|[n|m] replies] H; simpl in *;
    try discriminate; try reflexivity; rewrite IH; auto.
Qed.

Lemma all_done_counts (replies : list Reply) :
  forallb is_done replies = true ->
  inserted_in replies = length replies /\ failed_in replies = 0.
Proof.
  unfold inserted_in, failed_in.
  induction replies as [|[n|m] replies IH]; simpl; intros H; try discriminate.
  - auto.
  - destruct (IH H) as [-> ->]. auto.
Qed.

Lemma all_done_no_entries (users : list PersistableUser) :
  forall replies, forallb is_done replies = true -> error_entries users replies = [].
Proof.
  induction users as [|u users IH]; intros [|[n|m] replies] H; simpl in *;
    try discriminate; auto.
Qed.

(** Exactly one rejected row: every other row is inserted, and the one
    error entry names the rejected row's user. *)
Lemma one_rejected (users : list PersistableUser) :
  forall pre post u message,
    length (pre ++ Failed message :: post) = length users ->
    forallb is_done pre = true -> forallb is_done post = true ->
    nth_error users (length pre) = Some u ->
    inserted_in (pre ++ Failed message :: post) = length users - 1
    /\ failed_in (pre ++ Failed message :: post) = 1
    /\ error_entries users (pre ++ Failed message :: post)
       = [{| user := name u; error := message |}].
Proof.
  induction users as [|u0 users IH]; intros pre post u message Hlen Hpre Hpost Hu.
  - now destruct pre.
  - destruct pre as [|[n|m] pre]; simpl in *; try discriminate.
    + injection Hu as ->. injection Hlen as Hlen.
      destruct (all_done_counts post Hpost) as [Hi Hf].
      unfold inserted_in, failed_in in *. simpl. rewrite Hi, Hf.
      rewrite (all_done_no_entries users post Hpost). repeat split; lia.
    + injection Hlen as Hlen.
      destruct (IH pre post u message Hlen Hpre Hpost Hu) as (Hi & Hf & He).
      unfold inserted_in, failed_in in *. simpl. rewrite Hi, Hf, He.
      rewrite length_app in Hlen. simpl in Hlen. repeat split; lia.
Qed.

(** The row-by-row path on any engine.  When the engine grants the
    connection, [BEGIN], [COMMIT] and the release, the call returns
    normally whatever it answered to the rows: every row was attempted in
    order, [COMMIT] was sent and [ROLLBACK] never; [inserted] counts the
    accepted rows and [failed] the rejected ones; [errors] holds, in order,
    one entry for each rejected row, with the user's name and the engine's
    message.  What the engine answers to the rows after a rejected one, and
    what its [COMMIT] then commits, is the engine's affair: see
    [PostgresEngineFacts]. *)
Theorem batchInsertUsers_when_granted
    (users : list PersistableUser) (db0 db1 db2 db3 db4 db5 : Db)
    (c b k r : nat) (replies : list Reply) :
  exec db0 Connect = (db1, Done c) ->
  exec db1 Begin = (db2, Done b) ->
  replay db2 (map (fun u => Insert (values_of u)) users) = (db3, replies) ->
  exec db3 Commit = (db4, Done k) ->
  exec db4 Release = (db5, Done r) ->
  batchInsertUsers users db0
  = (db5, Normal {| success := true;
                    inserted := inserted_in replies;
                    failed := failed_in replies;
                    errors := match error_entries users replies with
                              | [] => None
                              | entries => Some entries
                              end |})
  /\ inserted_in replies + failed_in replies = length users
  /\ length (error_entries users replies) = failed_in replies
  /\ (forall pre post u message,
        replies = pre ++ Failed message :: post ->
        forallb is_done pre = true -> forallb is_done post = true ->
        nth_error users (length pre) = Some u ->
        inserted_in replies = length users - 1
        /\ failed_in replies = 1
        /\ error_entries users replies = [{| user := name u; error := message |}]).
Proof.
  intros Hc Hb Hr Hk Hrel.
  assert (Hlen : length replies = length users).
  { pose proof (replay_length (map (fun u => Insert (values_of u)) users) db2) as H.
    rewrite Hr, length_map in H. exact H. }
  split; [|split; [|split]].
  - unfold UserService.batchInsertUsers.
    unfold bind at 1. rewrite (query_done _ _ _ _ Hc).
    unfold finally, try_catch.
    unfold bind at 1. rewrite (query_done _ _ _ _ Hb).
    unfold bind at 1. rewrite (insert_loop_replay users 0 0 [] db2 db3 replies Hr).
    unfold bind at 1. rewrite (query_done _ _ _ _ Hk).
    unfold ret at 1. cbv beta iota.
    unfold bind at 1. rewrite (query_done _ _ _ _ Hrel).
    unfold ret. simpl.
    now destruct (error_entries users replies).
  - now rewrite inserted_failed_length.
  - now apply error_entries_length.
  - intros pre post u message -> Hpre Hpost Hu. now apply one_rejected.
Qed.

(** ** The bulk path *)

Lemma chunks_loop_done (users : list PersistableUser) (starts : list nat) :
  forall totalInserted db db' replies,
    replay db (map unnest_op (map (fun i => slice users i (i + chunkSize)) starts))
    = (db', replies) ->
    forallb is_done replies = true ->
    chunks_loop users starts totalInserted db
    = (db', Normal (totalInserted + list_sum (map rowCount_of replies))).
Proof.
  induction starts as [|i starts IH]; intros t db db' replies Hr Hd; simpl in Hr.
  - injection Hr as <- <-. simpl. unfold ret. now rewrite Nat.add_0_r.
  - destruct (exec db _) as [db1 reply] eqn:E.
    destruct (replay db1 _) as [db2 replies'] eqn:R.
    injection Hr as <- <-. simpl in Hd. apply andb_prop in Hd as [Hd1 Hd2].
    destruct reply as [n|m]; [|discriminate].
    cbn [UserService.chunks_loop]. unfold bind. rewrite (query_done _ _ _ _ E).
    rewrite (IH (t + n) db1 db2 replies' R Hd2). simpl. do 2 f_equal. lia.
Qed.

(** The first chunk the engine rejects ends the loop: no later chunk is
    sent, and the error leaves the loop. *)
Lemma chunks_loop_failed (users : list PersistableUser) (starts : list nat) :
  forall totalInserted db pre chunk post db1 replies db1' message,
    map (fun i => slice users i (i + chunkSize)) starts = pre ++ chunk :: post ->
    replay db (map unnest_op pre) = (db1, replies) ->
    forallb is_done replies = true ->
    exec db1 (unnest_op chunk) = (db1', Failed message) ->
    chunks_loop users starts totalInserted db = (db1', Throw message).
Proof.
  induction starts as [|i starts IH];
    intros t db pre chunk post db1 replies db1' message Hsplit Hr Hd Hf.
  - now destruct pre.
  - destruct pre as [|p pre]; simpl in Hsplit; injection Hsplit as Hp Hsplit.
    + simpl in Hr. injection Hr as <- <-. subst chunk.
      cbn [UserService.chunks_loop]. unfold bind. now rewrite (query_failed _ _ _ _ Hf).
    + subst p. simpl in Hr.
      destruct (exec db _) as [dbx reply] eqn:E.
      destruct (replay dbx _) as [dby replies'] eqn:R.
      injection Hr as <- <-. simpl in Hd. apply andb_prop in Hd as [Hd1 Hd2].
      destruct reply as [n|m]; [|discriminate].
      cbn [UserService.chunks_loop]. unfold bind. rewrite (query_done _ _ _ _ E).
      apply (IH (t + n) dbx pre chunk post dby replies' db1' message Hsplit R Hd2 Hf).
Qed.

(** The loop ends normally only when the engine accepted every chunk. *)
Lemma chunks_loop_normal (users : list PersistableUser) (starts : list nat) :
  forall totalInserted db db' n,
    chunks_loop users starts totalInserted db = (db', Normal n) ->
    exists replies,
      replay db (map unnest_op (map (fun i => slice users i (i + chunkSize)) starts))
      = (db', replies)
      /\ forallb is_done replies = true
      /\ n = totalInserted + list_sum (map rowCount_of replies).
Proof.
  induction starts as [|i starts IH]; intros t db db' n H.
  - simpl in H. unfold ret in H. injection H as <- <-.
    exists []. simpl. repeat split. lia.
  - cbn [UserService.chunks_loop] in H. unfold bind, UserService.query in H.
    simpl. destruct (exec db _) as [db1 [rc|m]]; [|discriminate].
    destruct (IH _ _ _ _ H) as (replies & Hr & Hd & Hn).
    rewrite Hr. exists (Done rc :: replies). simpl. repeat split; [exact Hd | lia].
Qed.

End EngineFacts.

(** ** The chunks *)

Lemma firstn_plus {A : Type} (a b : nat) (l : list A) :
  firstn (a + b) l = firstn a l ++ firstn b (skipn a l).
Proof.
  revert l. induction a as [|a IH]; intros l; simpl; [reflexivity|].
  destruct l as [|x l]; simpl.
  - now rewrite firstn_nil.
  - now rewrite IH.
Qed.

Lemma chunks_of_chunk_at (users : list PersistableUser) :
  chunks_of users = map (chunk_at users) (seq 0 (chunk_count (length users))).
Proof.
  unfold chunks_of, chunk_starts, chunk_count. rewrite map_map.
  apply map_ext. intros k. unfold slice, chunk_at. f_equal.
  rewrite Nat.add_comm. apply Nat.add_sub.
Qed.

Lemma chunk_count_bounds (n : nat) :
  n <= chunk_count n * chunkSize /\ chunk_count n * chunkSize < n + chunkSize.
Proof.
  unfold chunk_count, chunkSize.
  pose proof (Nat.div_mod_eq (n + 1000 - 1) 1000) as E.
  pose proof (Nat.mod_upper_bound (n + 1000 - 1) 1000 ltac:(lia)) as B.
  lia.
Qed.

(** [chunk_starts n] lists, in ascending order, the multiples of
    [chunkSize] below [n]: the values of the loop variable. *)
Lemma chunk_starts_spec (n i : nat) :
  In i (chunk_starts n) <-> i < n /\ exists k, i = k * chunkSize.
Proof.
  destruct (chunk_count_bounds n) as [Hlo Hhi].
  unfold chunk_starts. fold (chunk_count n). rewrite in_map_iff. split.
  - intros (k & <- & Hk). apply in_seq in Hk. split; [|eauto].
    unfold chunkSize in *. lia.
  - intros (Hi & k & ->). exists k. split; [reflexivity|]. apply in_seq.
    unfold chunkSize in *. lia.
Qed.

Lemma concat_chunk_at (users : list PersistableUser) (m : nat) :
  concat (map (chunk_at users) (seq 0 m)) = firstn (m * chunkSize) users.
Proof.
  induction m as [|m IH]; [reflexivity|].
  rewrite seq_S, map_app, concat_app, IH. cbn [map concat Nat.add].
  rewrite app_nil_r. unfold chunk_at.
  rewrite <- firstn_plus. now rewrite Nat.mul_succ_l.
Qed.

Lemma chunk_at_length (users : list PersistableUser) (k : nat) :
  length (chunk_at users k) = Nat.min chunkSize (length users - k * chunkSize).
Proof. unfold chunk_at. now rewrite length_firstn, length_skipn. Qed.

Lemma map_seq_split {A : Type} (f : nat -> A) (pre : list A) :
  forall start len x post,
    map f (seq start len) = pre ++ x :: post ->
    x = f (start + length pre) /\ len = length pre + 1 + length post.
Proof.
  induction pre as [|p pre IH]; intros start [|len] x post H; simpl in H;
    try discriminate; injection H as Hp H.
  - split; [now rewrite Nat.add_0_r|].
    apply (f_equal (@length A)) in H. rewrite length_map, length_seq in H.
    simpl. lia.
  - apply IH in H as [-> ->]. split; [f_equal; simpl; lia | simpl; lia].
Qed.

(** The chunks partition the input, in order, into runs of [chunkSize]
    records, the last one possibly shorter and none empty. *)
Lemma chunks_of_partition (users : list PersistableUser) :
  concat (chunks_of users) = users
  /\ (forall chunk, In chunk (chunks_of users) -> 0 < length chunk <= chunkSize)
  /\ (forall pre chunk post,
        chunks_of users = pre ++ chunk :: post -> post <> [] ->
        length chunk = chunkSize).
Proof.
  rewrite chunks_of_chunk_at.
  destruct (chunk_count_bounds (length users)) as [Hlo Hhi].
  split; [|split].
  - rewrite concat_chunk_at. now apply firstn_all2.
  - intros chunk Hin. apply in_map_iff in Hin as (k & <- & Hk).
    apply in_seq in Hk. rewrite chunk_at_length. unfold chunkSize in *. lia.
  - intros pre chunk post Hsplit Hpost.
    apply map_seq_split in Hsplit as [-> Hlen].
    rewrite chunk_at_length. destruct post; [contradiction|].
    simpl in Hlen. unfold chunkSize in *. lia.
Qed.

Section BulkPath.
Variable Db : Type.
Variable exec : Db -> Op -> Db * Reply.
Variable JSON_stringify : Value -> string.

#[local] Abbreviation replay := (replay Db exec).
#[local] Abbreviation unnest_op := (unnest_op JSON_stringify).
#[local] Abbreviation optimizedBatchInsert := (optimizedBatchInsert Db exec JSON_stringify).

Lemma unnest_ops_are_inserts (chunks : list (list PersistableUser)) :
  forallb is_insert (map unnest_op chunks) = true.
Proof. induction chunks as [|ch chunks IH]; simpl; auto. Qed.

Ltac run_exec H :=
  repeat match type of H with
         | context [exec ?d ?o] =>
             let E := fresh "E" in
             destruct (exec d o) as [? [?|?]] eqn:E; cbv beta iota zeta in H
         end.

(** C2.  The bulk columnar path.  The input is cut, in order, into chunks
    of 1000 records (the last one possibly shorter), each sent as one
    set-based insert inside the one transaction of the call.  When the
    engine accepts every chunk and grants [COMMIT], the result reports the
    sum of the chunks' row counts, [failed] 0 and no [errors].  When it
    rejects a chunk, no later chunk is sent, the transaction is rolled back
    and never committed, so that a transactional engine holds exactly the
    rows it held before the call, and the call throws.  The call never
    returns a result unless every chunk was accepted: there is no partial
    [errors] list. *)
Theorem optimizedBatchInsert_all_or_nothing
    (users : list PersistableUser) (db0 db1 db2 : Db) (c b : nat) :
  exec db0 Connect = (db1, Done c) ->
  exec db1 Begin = (db2, Done b) ->
  (concat (chunks_of users) = users
   /\ (forall chunk, In chunk (chunks_of users) -> 0 < length chunk <= chunkSize)
   /\ (forall pre chunk post,
         chunks_of users = pre ++ chunk :: post -> post <> [] ->
         length chunk = chunkSize))
  /\ (forall db3 replies db4 k db5 r,
        replay db2 (map unnest_op (chunks_of users)) = (db3, replies) ->
        forallb is_done replies = true ->
        exec db3 Commit = (db4, Done k) ->
        exec db4 Release = (db5, Done r) ->
        optimizedBatchInsert users db0
        = (db5, Normal {| success := true;
                          inserted := list_sum (map rowCount_of replies);
                          failed := 0;
                          errors := None |}))
  /\ (forall pre chunk post db3 replies db3' message db4 rb db5 r,
        chunks_of users = pre ++ chunk :: post ->
        replay db2 (map unnest_op pre) = (db3, replies) ->
        forallb is_done replies = true ->
        exec db3 (unnest_op chunk) = (db3', Failed message) ->
        exec db3' Rollback = (db4, Done rb) ->
        exec db4 Release = (db5, Done r) ->
        optimizedBatchInsert users db0
        = (db5, Throw ("Optimized batch insert failed: " ++ message)%string)
        /\ (forall durable, transactional Db exec durable -> durable db5 = durable db0))
  /\ (forall db' result,
        optimizedBatchInsert users db0 = (db', Normal result) ->
        failed result = 0
        /\ errors result = None
        /\ exists db3 replies,
             replay db2 (map unnest_op (chunks_of users)) = (db3, replies)
             /\ forallb is_done replies = true
             /\ inserted result = list_sum (map rowCount_of replies)).
Proof.
  intros Hc Hb. split; [apply chunks_of_partition|]. split; [|split].
  - intros db3 replies db4 k db5 r Hr Hd Hk Hrel.
    unfold UserService.optimizedBatchInsert.
    unfold bind at 1. rewrite (query_done Db exec _ _ _ _ Hc).
    unfold finally, try_catch.
    unfold bind at 1. rewrite (query_done Db exec _ _ _ _ Hb).
    unfold bind at 1.
    rewrite (chunks_loop_done Db exec JSON_stringify users _ 0 db2 db3 replies Hr Hd).
    unfold bind at 1. rewrite (query_done Db exec _ _ _ _ Hk).
    unfold ret at 1. cbv beta iota.
    unfold bind at 1. rewrite (query_done Db exec _ _ _ _ Hrel).
    reflexivity.
  - intros pre chunk post db3 replies db3' message db4 rb db5 r
           Hsplit Hr Hd Hf Hrb Hrel.
    split.
    + unfold UserService.optimizedBatchInsert.
      unfold bind at 1. rewrite (query_done Db exec _ _ _ _ Hc).
      unfold finally, try_catch.
      unfold bind at 1. rewrite (query_done Db exec _ _ _ _ Hb).
      unfold bind at 1.
      rewrite (chunks_loop_failed Db exec JSON_stringify users _ 0 db2 pre chunk post
                 db3 replies db3' message Hsplit Hr Hd Hf).
      unfold bind at 1. rewrite (query_done Db exec _ _ _ _ Hrb).
      unfold throw at 1. cbv beta iota.
      unfold bind at 1. rewrite (query_done Db exec _ _ _ _ Hrel).
      reflexivity.
    + intros durable (Hconnect & Hrelease & Hrollback).
      rewrite (Hrelease _ _ _ Hrel), <- (Hconnect _ _ _ Hc).
      apply (Hrollback db1 db2 b (map unnest_op (pre ++ [chunk]))
               db3' (replies ++ [Failed message]) db4 rb Hb).
      * apply unnest_ops_are_inserts.
      * rewrite map_app, (replay_app Db exec), Hr. simpl. now rewrite Hf.
      * exact Hrb.
  - intros db' result H.
    unfold UserService.optimizedBatchInsert, bind at 1, finally, try_catch,
      bind at 1, UserService.query in H.
    rewrite Hc in H. cbv beta iota zeta in H.
    rewrite Hb in H. cbv beta iota zeta in H.
    unfold bind at 1 in H.
    destruct (chunks_loop Db exec JSON_stringify users _ 0 db2) as [db3 [n|m]] eqn:E;
      unfold bind, UserService.query, throw, ret in H; cbv beta iota zeta in H;
      run_exec H; try discriminate.
    injection H as <- <-. simpl.
    apply chunks_loop_normal in E as (replies & Hr & Hd & Hn).
    split; [reflexivity|]. split; [reflexivity|].
    exists db3, replies. unfold chunks_of. auto.
Qed.

End BulkPath.

(** ** The service on the example engine *)

Import TableEngine.

Lemma replay_inserts_saved (ops : list Op) :
  forallb is_insert ops = true ->
  forall db db' replies,
    UserService.replay Db exec db ops = (db', replies) -> saved db' = saved db.
Proof.
  induction ops as [|op ops IH]; intros Hops db db' replies Hr; simpl in *.
  - now injection Hr as <- <-.
  - apply andb_prop in Hops as [Hop Hops].
    destruct (exec db op) as [db1 reply] eqn:E.
    destruct (UserService.replay Db exec db1 ops) as [db2 replies'] eqn:R.
    injection Hr as <- <-. rewrite (IH Hops db1 db2 replies' R).
    destruct op; try discriminate; simpl in E.
    + destruct (fits_int (row_age values)); now injection E as <- _.
    + destruct (forallb fits_int ages); now injection E as <- _.
Qed.

Lemma table_transactional : transactional Db exec rows.
Proof.
  split; [|split].
  - intros db db' reply H. simpl in H. now injection H as <- _.
  - intros db db' reply H. simpl in H. now injection H as <- _.
  - intros db db1 b ops db2 replies db3 rb Hb Hops Hr Hrb.
    apply (replay_inserts_saved ops Hops) in Hr.
    simpl in Hb, Hrb. injection Hb as <- _. injection Hrb as <- _.
    simpl in *. now rewrite Hr.
Qed.

(** Ten records, the fourth rejected: nine inserted, one failed, one
    error entry naming the fourth, and the nine rows committed. *)
(** On the example table, which keeps a transaction usable after a
    rejected statement, ten rows with the fourth rejected give 9 and 1. *)
Lemma batchInsertUsers_on_the_example_table :
  batchInsertUsers Db exec json_text ten_users empty_table
  = ({| rows := map (values_of json_text)
                  (firstn 3 ten_users ++ skipn 4 ten_users);
        saved := None |},
     Normal {| success := true; inserted := 9; failed := 1;
               errors := Some [{| user := "u4"; error := out_of_range |}] |}).
Proof.
  pose (db2 := {| rows := []; saved := Some [] |}).
  pose (ops := map (fun u => Insert (values_of json_text u)) ten_users).
  exact (proj1 (batchInsertUsers_when_granted Db exec json_text ten_users
                  empty_table empty_table db2
                  (fst (UserService.replay Db exec db2 ops))
                  {| rows := rows (fst (UserService.replay Db exec db2 ops)); saved := None |}
                  {| rows := rows (fst (UserService.replay Db exec db2 ops)); saved := None |}
                  0 0 0 0 (snd (UserService.replay Db exec db2 ops))
                  eq_refl eq_refl eq_refl eq_refl eq_refl)).
Defined.

(** 6000 records, the 5001st rejected: the sixth chunk fails, the call
    throws, and the table is left without a single row of the call. *)
Lemma optimizedBatchInsert_all_or_nothing_witness :
  optimizedBatchInsert Db exec json_text six_thousand_users empty_table
  = (empty_table, Throw ("Optimized batch insert failed: " ++ out_of_range)%string)
  /\ rows empty_table = [].
Proof.
  pose (db2 := {| rows := []; saved := Some [] |}).
  pose (chunks := chunks_of six_thousand_users).
  pose (run := UserService.replay Db exec db2
                 (map (unnest_op json_text) (firstn 5 chunks))).
  destruct (optimizedBatchInsert_all_or_nothing Db exec json_text six_thousand_users
              empty_table empty_table db2 0 0 eq_refl eq_refl) as (_ & _ & Hfail & _).
  destruct (Hfail (firstn 5 chunks) (nth 5 chunks []) (skipn 6 chunks)
              (fst run) (snd run) (fst run) out_of_range empty_table 0 empty_table 0)
    as [Hthrow Hdurable].
  - vm_compute. reflexivity.
  - vm_compute. reflexivity.
  - vm_compute. reflexivity.
  - vm_compute. reflexivity.
  - vm_compute. reflexivity.
  - reflexivity.
  - split; [exact Hthrow | reflexivity].
Defined.

(** 5500 acceptable records: six chunks, 5500 rows reported and held. *)
Example optimizedBatchInsert_accepts_all :
  let '(db, result) :=
    optimizedBatchInsert Db exec json_text
      (repeat (user_aged "u" 30%Z) 5000 ++ repeat (user_aged "u" 30%Z) 500) empty_table in
  (length (rows db), saved db, result)
  = (5000 + 500, None,
     Normal {| success := true; inserted := 5000 + 500; failed := 0; errors := None |}).
Proof. vm_compute. reflexivity. Qed.

End UserServiceFacts.

(* ================================================================== *)
(** * The row-by-row path on PostgreSQL *)
(* ================================================================== *)

Module PostgresEngineFacts.
Import Js ObjectBuilder UserService UserServiceFacts PostgresEngine.

Section OnPostgres.
Variable JSON_stringify : Value -> string.

#[local] Abbreviation values_of := (values_of JSON_stringify).
#[local] Abbreviation batchInsertUsers := (batchInsertUsers Db exec JSON_stringify).
#[local] Abbreviation replay := (replay Db exec).

(** Inside a block that has not failed, rows that fit are accepted one by
    one. *)
Lemma replay_accepted (users : list PersistableUser) :
  forallb fits users = true ->
  forall held saved,
    replay {| rows := held; block := Some saved; aborted := false |}
           (map (fun u => Insert (values_of u)) users)
    = ({| rows := held ++ map values_of users; block := Some saved; aborted := false |},
       map (fun _ => Done 1) users).
Proof.
  induction users as [|u users IH]; intros Hfit held saved; cbn [map UserService.replay].
  - now rewrite app_nil_r.
  - cbn [forallb] in Hfit. apply andb_prop in Hfit as [Hu Hfit].
    unfold fits in Hu. cbn [exec insert_rows]. unfold insert_rows, in_aborted_block.
    cbn [block aborted rows forallb UserService.values_of row_age].
    rewrite Hu. cbn [andb length]. rewrite (IH Hfit). now rewrite <- app_assoc.
Qed.

(** Inside a block that has failed, every row is refused and nothing
    changes. *)
Lemma replay_refused (users : list PersistableUser) :
  forall held saved,
    replay {| rows := held; block := Some saved; aborted := true |}
           (map (fun u => Insert (values_of u)) users)
    = ({| rows := held; block := Some saved; aborted := true |},
       map (fun _ => Failed aborted_message) users).
Proof.
  induction users as [|u users IH]; intros held saved; cbn [map UserService.replay].
  - reflexivity.
  - cbn [exec]. unfold insert_rows, in_aborted_block. cbn [block aborted].
    now rewrite IH.
Qed.

Lemma replay_first_rejected (pre post : list PersistableUser) (u : PersistableUser) :
  forallb fits pre = true -> fits u = false ->
  forall held,
    replay {| rows := held; block := Some held; aborted := false |}
           (map (fun u => Insert (values_of u)) (pre ++ u :: post))
    = ({| rows := held ++ map values_of pre; block := Some held; aborted := true |},
       map (fun _ => Done 1) pre
       ++ Failed TableEngine.out_of_range :: map (fun _ => Failed aborted_message) post).
Proof.
  intros Hpre Hu held. rewrite map_app, (replay_app Db exec).
  rewrite (replay_accepted pre Hpre). cbn [map UserService.replay].
  cbn [exec]. unfold insert_rows, in_aborted_block, reject.
  cbn [block aborted rows forallb UserService.values_of row_age].
  unfold fits in Hu. rewrite Hu. cbn [andb].
  now rewrite replay_refused.
Qed.

Lemma counts_first_rejected (pre post : list PersistableUser) (u : PersistableUser)
    (message later : string) :
  let replies := map (fun _ => Done 1) pre
                 ++ Failed message :: map (fun _ => Failed later) post in
  inserted_in replies = length pre
  /\ failed_in replies = S (length post)
  /\ error_entries (pre ++ u :: post) replies
     = {| user := name u; error := message |}
       :: map (fun v => {| user := name v; error := later |}) post.
Proof.
  cbv zeta. unfold inserted_in, failed_in. repeat split.
  - induction pre as [|p pre IH]; cbn [map app filter is_done length].
    + induction post as [|q post IH]; cbn [map filter is_done length]; auto.
    + now rewrite IH.
  - induction pre as [|p pre IH]; cbn [map app filter is_done negb length].
    + f_equal. induction post as [|q post IH]; cbn [map filter is_done negb length]; auto.
    + exact IH.
  - induction pre as [|p pre IH]; cbn [map app error_entries].
    + f_equal. induction post as [|q post IH]; cbn [map error_entries]; [reflexivity|].
      now rewrite IH.
    + exact IH.
Qed.

Lemma counts_accepted (users : list PersistableUser) :
  let replies := map (fun _ : PersistableUser => Done 1) users in
  inserted_in replies = length users
  /\ failed_in replies = 0
  /\ error_entries users replies = [].
Proof.
  cbv zeta. unfold inserted_in, failed_in.
  induction users as [|u users (H1 & H2 & H3)]; cbn [map filter is_done negb length error_entries];
    repeat split; auto.
Qed.

Lemma exec_Begin (held : list Row) :
  exec (table held) Begin = ({| rows := held; block := Some held; aborted := false |}, Done 0).
Proof. reflexivity. Qed.

(** C1, as the code behaves on PostgreSQL.  The loop catches the failure of
    a row and goes on, but the transaction it goes on in is no longer
    usable: every row after the first rejected one is refused as well, and
    the [COMMIT] at the end commits nothing, not even the rows accepted
    before.  The call still returns [success: true], with [inserted] the
    number of rows before the first rejected one and [failed] all the
    others: for the ten records of which only the fourth has an age the
    column rejects, [inserted] is 3 and [failed] is 7, where the specification has
    9 and 1, and the table holds what it held before.  Only when no row is
    rejected are the rows committed. *)
Theorem batchInsertUsers_aborts_after_a_rejected_row :
  batchInsertUsers TableEngine.ten_users (table [])
  = (table [],
     Normal {| success := true; inserted := 3; failed := 7;
               errors :=
                 Some ({| user := "u4"; error := TableEngine.out_of_range |}
                       :: map (fun n => {| user := n; error := aborted_message |})
                            ["u5"; "u6"; "u7"; "u8"; "u9"; "u10"]) |})
  /\ (forall (pre post : list PersistableUser) (u : PersistableUser) (held : list Row),
        forallb fits pre = true -> fits u = false ->
        batchInsertUsers (pre ++ u :: post) (table held)
        = (table held,
           Normal {| success := true;
                     inserted := length pre;
                     failed := S (length post);
                     errors :=
                       Some ({| user := name u; error := TableEngine.out_of_range |}
                             :: map (fun v => {| user := name v; error := aborted_message |})
                                  post) |}))
  /\ (forall (users : list PersistableUser) (held : list Row),
        forallb fits users = true ->
        batchInsertUsers users (table held)
        = (table (held ++ map values_of users),
           Normal {| success := true; inserted := length users; failed := 0;
                     errors := None |})).
Proof.
  assert (Hrejected :
            forall (pre post : list PersistableUser) (u : PersistableUser) (held : list Row),
              forallb fits pre = true -> fits u = false ->
              batchInsertUsers (pre ++ u :: post) (table held)
              = (table held,
                 Normal {| success := true;
                           inserted := length pre;
                           failed := S (length post);
                           errors :=
                             Some ({| user := name u; error := TableEngine.out_of_range |}
                                   :: map (fun v => {| user := name v;
                                                       error := aborted_message |})
                                        post) |})).
  { intros pre post u held Hpre Hu.
    pose proof (replay_first_rejected pre post u Hpre Hu held) as Hr.
    destruct (counts_first_rejected pre post u TableEngine.out_of_range aborted_message)
      as (Hi & Hf & He).
    destruct (batchInsertUsers_when_granted Db exec JSON_stringify
                (pre ++ u :: post) (table held) (table held) _ _ _ _ 0 0 0 0 _
                eq_refl (exec_Begin held) Hr eq_refl eq_refl) as [Hrun _].
    rewrite Hrun, Hi, Hf, He. reflexivity. }
  split; [|split; [exact Hrejected|]].
  - apply (Hrejected (firstn 3 TableEngine.ten_users) (skipn 4 TableEngine.ten_users)
             (TableEngine.user_aged "u4" 4294967296) []); reflexivity.
  - intros users held Hfit.
    pose proof (replay_accepted users Hfit held held) as Hr.
    destruct (counts_accepted users) as (Hi & Hf & He).
    destruct (batchInsertUsers_when_granted Db exec JSON_stringify
                users (table held) (table held) _ _ _ _ 0 0 0 0 _
                eq_refl (exec_Begin held) Hr eq_refl eq_refl) as [Hrun _].
    rewrite Hrun, Hi, Hf, He. reflexivity.
Qed.

End OnPostgres.

(** ** PostgreSQL is transactional *)

Lemma insert_rows_block (db db' : Db) (new : list Row) (ages : list JsNumber)
    (reply : Reply) :
  insert_rows db new ages = (db', reply) -> block db' = block db.
Proof.
  unfold insert_rows, reject. destruct (in_aborted_block db); [now intros [= <- _]|].
  destruct (forallb TableEngine.fits_int ages); now intros [= <- _].
Qed.

Lemma replay_inserts_block (ops : list Op) :
  forallb is_insert ops = true ->
  forall db db' replies,
    UserService.replay Db exec db ops = (db', replies) -> block db' = block db.
Proof.
  induction ops as [|op ops IH]; intros Hops db db' replies H; cbn [UserService.replay] in H.
  - now injection H as <- _.
  - cbn [forallb] in Hops. apply andb_prop in Hops as [Hop Hops].
    destruct (exec db op) as [db1 reply] eqn:E.
    destruct (UserService.replay Db exec db1 ops) as [db2 replies'] eqn:R.
    injection H as <- _. rewrite (IH Hops _ _ _ R).
    destruct op; try discriminate Hop; cbn [exec] in E;
      exact (insert_rows_block _ _ _ _ _ E).
Qed.

(** The law the bulk path relies on holds of PostgreSQL: a granted
    [ROLLBACK] leaves the committed rows as they were before [BEGIN]. *)
Lemma postgres_transactional : transactional Db exec committed.
Proof.
  split; [|split].
  - intros db db' reply H. cbn [exec] in H. now injection H as <- _.
  - intros db db' reply H. cbn [exec] in H. now injection H as <- _.
  - intros db db1 b ops db2 replies db3 rb Hb Hops Hr Hrb.
    pose proof (replay_inserts_block ops Hops _ _ _ Hr) as Hblock.
    cbn [exec] in Hrb. injection Hrb as <- _. unfold committed. cbn [block rows].
    rewrite Hblock. cbn [exec] in Hb.
    destruct (block db) as [saved|] eqn:E.
    + destruct (aborted db); [discriminate Hb|]. injection Hb as <- _. now rewrite E.
    + now injection Hb as <- _.
Qed.

End PostgresEngineFacts.

(* ================================================================== *)
(** * Properties of the aggregate reporter *)
(* ================================================================== *)

Module AgeDistributionFacts.
Import Js AgeDistribution JsFacts.

(** The age of an INT column is read back as it is. *)
Lemma parseInt_age_number (z : Z) : parseInt_age (AgeNumber z) = Some z.
Proof.
  unfold parseInt_age, age_text. destruct z as [|p|p].
  - reflexivity.
  - apply (parseInt_numeral p false).
  - apply (parseInt_numeral p true).
Qed.

Lemma bucket_of_group (a : Z) : In (bucket_of a) groups.
Proof.
  unfold bucket_of, groups.
  destruct (a <? 20)%Z; [now left|].
  destruct ((20 <=? a)%Z && (a <? 40)%Z); [right; now left|].
  destruct ((40 <=? a)%Z && (a <=? 60)%Z); [right; right; now left|].
  right; right; right; now left.
Qed.

(** C9.  Bucket boundaries: below 20 the age counts under [<20], from 20
    to 39 under [20-40], from 40 to 60 (60 included) under [40-60], above
    60 under [>60]; the ages 19, 20, 39, 40, 60, 61 go to [<20], [20-40],
    [20-40], [40-60], [40-60], [>60].  This is the bucket [calculate]
    counts a user under: for a user whose age is the integer Number [a]
    (below 10^21 in magnitude, where a Number prints as its numeral) or a
    string that [parseInt] reads as [a], the report of that one user has 1
    under the bucket of [a] and 0 under the other three; and the report of
    the six ages above has 1, 2, 2 and 1. *)
Theorem bucket_of_boundaries :
  (forall a : Z,
      ((a < 20)%Z -> bucket_of a = "<20")
      /\ ((20 <= a < 40)%Z -> bucket_of a = "20-40")
      /\ ((40 <= a <= 60)%Z -> bucket_of a = "40-60")
      /\ ((60 < a)%Z -> bucket_of a = ">60"))
  /\ map bucket_of [19; 20; 39; 40; 60; 61]%Z
     = ["<20"; "20-40"; "20-40"; "40-60"; "40-60"; ">60"]
  /\ (forall (v : AgeValue) (a : Z),
        (v = AgeNumber a /\ (Z.abs a < 10 ^ 21)%Z)
        \/ (exists s, v = AgeString s /\ parseInt s = Some a) ->
        ((a < 20)%Z ->
         fst (calculate [{| age := v |}])
         = Wrapped [("<20", 1); ("20-40", 0); ("40-60", 0); (">60", 0)]
             [("<20", "100.00"); ("20-40", "0.00"); ("40-60", "0.00"); (">60", "0.00")] 1)
        /\ ((20 <= a < 40)%Z ->
            fst (calculate [{| age := v |}])
            = Wrapped [("<20", 0); ("20-40", 1); ("40-60", 0); (">60", 0)]
                [("<20", "0.00"); ("20-40", "100.00"); ("40-60", "0.00"); (">60", "0.00")] 1)
        /\ ((40 <= a <= 60)%Z ->
            fst (calculate [{| age := v |}])
            = Wrapped [("<20", 0); ("20-40", 0); ("40-60", 1); (">60", 0)]
                [("<20", "0.00"); ("20-40", "0.00"); ("40-60", "100.00"); (">60", "0.00")] 1)
        /\ ((60 < a)%Z ->
            fst (calculate [{| age := v |}])
            = Wrapped [("<20", 0); ("20-40", 0); ("40-60", 0); (">60", 1)]
                [("<20", "0.00"); ("20-40", "0.00"); ("40-60", "0.00"); (">60", "100.00")] 1))
  /\ (forall a : Z, (Z.abs a < 10 ^ 21)%Z -> parseInt_age (AgeNumber a) = Some a)
  /\ map (fun s => parseInt_age (AgeString s)) ["19"; " 20"; "39.9"; "40"; "60yrs"; "-61"]
     = [Some 19; Some 20; Some 39; Some 40; Some 60; Some (-61)]%Z
  /\ fst (calculate (map (fun a => {| age := AgeNumber a |}) [19; 20; 39; 40; 60; 61]%Z))
     = Wrapped [("<20", 1); ("20-40", 2); ("40-60", 2); (">60", 1)]
         [("<20", "16.67"); ("20-40", "33.33"); ("40-60", "33.33"); (">60", "16.67")] 6.
Proof.
  assert (Hbucket : forall a : Z,
             ((a < 20)%Z -> bucket_of a = "<20")
             /\ ((20 <= a < 40)%Z -> bucket_of a = "20-40")
             /\ ((40 <= a <= 60)%Z -> bucket_of a = "40-60")
             /\ ((60 < a)%Z -> bucket_of a = ">60")).
  { intros a. unfold bucket_of. repeat split; intros H.
    - apply Z.ltb_lt in H. now rewrite H.
    - destruct H as [H1 H2]. apply Z.leb_le in H1. apply Z.ltb_lt in H2.
      rewrite H1, H2. simpl. destruct (a <? 20)%Z eqn:E; [|reflexivity].
      apply Z.ltb_lt in E. apply Z.leb_le in H1. lia.
    - destruct H as [H1 H2].
      assert ((a <? 20)%Z = false) as -> by (apply Z.ltb_ge; lia).
      assert ((a <? 40)%Z = false) as -> by (apply Z.ltb_ge; lia).
      apply Z.leb_le in H1, H2. rewrite H1, H2. now rewrite andb_false_r.
    - assert ((a <? 20)%Z = false) as -> by (apply Z.ltb_ge; lia).
      assert ((a <? 40)%Z = false) as -> by (apply Z.ltb_ge; lia).
      assert ((a <=? 60)%Z = false) as -> by (apply Z.leb_gt; lia).
      now rewrite !andb_false_r. }
  split; [exact Hbucket|]. split; [reflexivity|]. split.
  - intros v a Hva. destruct (Hbucket a) as (H1 & H2 & H3 & H4).
    assert (Hv : parseInt_age v = Some a).
    { destruct Hva as [[-> _]|(s & -> & Hs)]; [apply parseInt_age_number | exact Hs]. }
    assert (Hone : fst (calculate [{| age := v |}])
                   = Wrapped (increment (bucket_of a) zero_distribution)
                       (map (fun entry => (fst entry, percentage (snd entry) 1))
                            (increment (bucket_of a) zero_distribution))
                       1).
    { unfold calculate. cbn [length Nat.eqb forEach_user age]. now rewrite Hv. }
    rewrite Hone.
    repeat split; intros H;
      [rewrite (H1 H) | rewrite (H2 H) | rewrite (H3 H) | rewrite (H4 H)];
      vm_compute; reflexivity.
  - split; [intros a _; apply parseInt_age_number|].
    split; vm_compute; reflexivity.
Qed.

Lemma bucket_of_boundaries_witness :
  fst (calculate [{| age := AgeNumber 60 |}])
  = Wrapped [("<20", 0); ("20-40", 0); ("40-60", 1); (">60", 0)]
      [("<20", "0.00"); ("20-40", "0.00"); ("40-60", "100.00"); (">60", "0.00")] 1
  /\ fst (calculate [{| age := AgeString "61" |}])
     = Wrapped [("<20", 0); ("20-40", 0); ("40-60", 0); (">60", 1)]
         [("<20", "0.00"); ("20-40", "0.00"); ("40-60", "0.00"); (">60", "100.00")] 1.
Proof.
  destruct bucket_of_boundaries as (_ & _ & H & _).
  split.
  - apply (H (AgeNumber 60) 60%Z); [left; split; [reflexivity | lia] | lia].
  - apply (H (AgeString "61") 61%Z); [right; exists "61"; split; reflexivity | lia].
Defined.

(** ** Counting *)

Lemma increment_keys (group : string) (distribution : props nat) :
  In group (prop_keys distribution) ->
  prop_keys (increment group distribution) = prop_keys distribution.
Proof.
  intros Hin. unfold increment, prop_set.
  destruct (prop_has group distribution) eqn:H.
  - apply prop_keys_update.
  - apply prop_has_false, prop_get_None_keys in H. contradiction.
Qed.

Lemma increment_get (group g : string) (distribution : props nat) :
  prop_get g (increment group distribution)
  = if String.eqb group g
    then Some (S (match prop_get g distribution with Some n => n | None => 0 end))
    else prop_get g distribution.
Proof.
  unfold increment. destruct (String.eqb_spec group g) as [->|Hne].
  - apply prop_get_set_same.
  - apply prop_get_set_other. congruence.
Qed.

Lemma count_in_cons (g : string) (user : UserRow) (users : list UserRow) :
  count_in g (user :: users)
  = (if in_group g user then 1 else 0) + count_in g users.
Proof. unfold count_in. simpl. now destruct (in_group g user). Qed.

(** The loop adds, to each counter, the number of entries whose age parses
    into its bucket; the entries whose age does not parse add a warning
    and nothing else. *)
Lemma forEach_user_counts (users : list UserRow) :
  forall distribution console,
    prop_keys distribution = groups ->
    prop_keys (fst (forEach_user users distribution console)) = groups
    /\ (forall g n, prop_get g distribution = Some n ->
                    prop_get g (fst (forEach_user users distribution console))
                    = Some (n + count_in g users))
    /\ length (snd (forEach_user users distribution console))
       = length console + length (filter (fun u => negb (parses u)) users).
Proof.
  induction users as [|user users IH]; intros distribution console Hkeys.
  - simpl. split; [exact Hkeys|]. split; [|lia].
    intros g n Hg. rewrite Hg. f_equal. unfold count_in. simpl. lia.
  - cbn [forEach_user filter]. unfold parses at 1.
    destruct (parseInt_age (age user)) as [a|] eqn:E.
    + assert (Hkeys' : prop_keys (increment (bucket_of a) distribution) = groups).
      { rewrite increment_keys; [exact Hkeys|]. rewrite Hkeys. apply bucket_of_group. }
      destruct (IH (increment (bucket_of a) distribution) console Hkeys')
        as (IHk & IHc & IHw).
      split; [exact IHk|]. split; [|exact IHw].
      intros g n Hg. rewrite count_in_cons. unfold in_group at 1. rewrite E.
      pose proof (increment_get (bucket_of a) g distribution) as Hi.
      rewrite Hg in Hi.
      destruct (String.eqb (bucket_of a) g).
      * rewrite (IHc g (S n) Hi). f_equal. lia.
      * rewrite (IHc g n Hi). reflexivity.
    + destruct (IH distribution
                  (console ++ [("Warning: Invalid age value: " ++ age_text (age user))%string])
                  Hkeys) as (IHk & IHc & IHw).
      split; [exact IHk|]. split.
      * intros g n Hg. rewrite count_in_cons. unfold in_group at 1. rewrite E.
        now apply IHc.
      * rewrite IHw, length_app. cbn [negb length]. lia.
Qed.

Lemma prop_get_map_values {A B : Type} (f : A -> B) (o : props A) (k : string) :
  prop_get k (map (fun entry => (fst entry, f (snd entry))) o)
  = option_map f (prop_get k o).
Proof.
  induction o as [|[k' v'] o IH]; simpl; [reflexivity|].
  now destruct (String.eqb k' k).
Qed.

(** Every entry whose age parses falls in exactly one bucket. *)
Lemma count_in_groups (users : list UserRow) :
  count_in "<20" users + count_in "20-40" users
  + count_in "40-60" users + count_in ">60" users
  = length (filter parses users).
Proof.
  induction users as [|user users IH]; [reflexivity|].
  rewrite !count_in_cons. cbn [filter].
  assert (Hp : parses user
               = match parseInt_age (age user) with Some _ => true | None => false end)
    by reflexivity.
  assert (Hg : forall g, in_group g user
               = match parseInt_age (age user) with
                 | Some a => String.eqb (bucket_of a) g
                 | None => false
                 end) by reflexivity.
  rewrite Hp, !Hg. clear Hp Hg.
  destruct (parseInt_age (age user)) as [a|]; [|exact IH].
  cbn [length]. rewrite <- IH. unfold bucket_of.
  destruct (a <? 20)%Z; [simpl; lia|].
  destruct ((20 <=? a)%Z && (a <? 40)%Z); [simpl; lia|].
  destruct ((40 <=? a)%Z && (a <=? 60)%Z); simpl; lia.
Qed.

Lemma calculate_nonempty (users : list UserRow) :
  users <> [] ->
  calculate users
  = (Wrapped (fst (forEach_user users zero_distribution []))
       (map (fun entry => (fst entry, percentage (snd entry) (length users)))
            (fst (forEach_user users zero_distribution [])))
       (length users),
     snd (forEach_user users zero_distribution [])).
Proof.
  intros Hne. unfold calculate. destruct users as [|u users]; [contradiction|].
  cbn [length Nat.eqb].
  now destruct (forEach_user (u :: users) zero_distribution []).
Qed.

(** C4, as the code has it.  The entries whose age does not parse are left
    out of the four counters and logged, but they are counted in [total]:
    [total] is the number of entries passed in, and it is the denominator
    of every percentage, so the percentages are taken over all entries and
    the counters add up to the number of parseable ages only. *)
Theorem calculate_total_is_users_length (users : list UserRow) :
  users <> [] ->
  exists counts percentages,
    fst (calculate users) = Wrapped counts percentages (length users)
    /\ prop_keys counts = groups
    /\ prop_keys percentages = groups
    /\ (forall g, In g groups ->
          prop_get g counts = Some (count_in g users)
          /\ prop_get g percentages
             = Some (percentage (count_in g users) (length users)))
    /\ count_in "<20" users + count_in "20-40" users
       + count_in "40-60" users + count_in ">60" users
       = length (filter parses users)
    /\ length (snd (calculate users))
       = length (filter (fun u => negb (parses u)) users).
Proof.
  intros Hne. rewrite (calculate_nonempty users Hne). cbn [fst snd].
  destruct (forEach_user_counts users zero_distribution [] eq_refl) as (Hk & Hc & Hw).
  eexists _, _. split; [reflexivity|]. split; [exact Hk|]. split.
  { unfold prop_keys in *. rewrite map_map. exact Hk. }
  split; [|split; [apply count_in_groups | exact Hw]].
  intros g Hg.
  assert (H0 : prop_get g zero_distribution = Some 0)
    by (destruct Hg as [<-|[<-|[<-|[<-|[]]]]]; reflexivity).
  pose proof (Hc g 0 H0) as Hget. simpl in Hget.
  split; [exact Hget|].
  now rewrite (prop_get_map_values (fun c => percentage c (length users))), Hget.
Qed.

Lemma calculate_total_is_users_length_witness :
  exists counts percentages,
    fst (calculate [{| age := AgeString "abc" |}; {| age := AgeNumber 25 |};
                    {| age := AgeNull |}])
    = Wrapped counts percentages 3
    /\ prop_keys counts = groups
    /\ prop_keys percentages = groups
    /\ (forall g, In g groups ->
          prop_get g counts
          = Some (count_in g [{| age := AgeString "abc" |}; {| age := AgeNumber 25 |};
                              {| age := AgeNull |}])
          /\ prop_get g percentages
             = Some (percentage
                       (count_in g [{| age := AgeString "abc" |}; {| age := AgeNumber 25 |};
                                    {| age := AgeNull |}]) 3))
    /\ 0 + 1 + 0 + 0 = 1
    /\ length (snd (calculate [{| age := AgeString "abc" |}; {| age := AgeNumber 25 |};
                               {| age := AgeNull |}])) = 2.
Proof.
  apply (calculate_total_is_users_length
           [{| age := AgeString "abc" |}; {| age := AgeNumber 25 |}; {| age := AgeNull |}]).
  discriminate.
Defined.

(** C4, as the spec words it, fails: of the two entries below one has an
    age that does not parse, and [total] is 2, not 1; the one parseable age
    makes 50.00 percent of its bucket, not 100.00. *)
Lemma calculate_total_counts_unparseable :
  calculate [{| age := AgeString "abc" |}; {| age := AgeNumber 25 |}]
  = (Wrapped [("<20", 0); ("20-40", 1); ("40-60", 0); (">60", 0)]
       [("<20", "0.00"); ("20-40", "50.00"); ("40-60", "0.00"); (">60", "0.00")]
       2,
     ["Warning: Invalid age value: abc"])
  /\ length (filter parses [{| age := AgeString "abc" |}; {| age := AgeNumber 25 |}]) = 1
  /\ percentage 1 1 = "100.00"
  /\ ~ (forall users counts percentages total,
          fst (calculate users) = Wrapped counts percentages total ->
          total = length (filter parses users)).
Proof.
  split; [vm_compute; reflexivity|]. split; [reflexivity|].
  split; [vm_compute; reflexivity|].
  intros H.
  specialize (H [{| age := AgeString "abc" |}; {| age := AgeNumber 25 |}] _ _ _ eq_refl).
  discriminate.
Qed.

(** C10.  On the empty sequence [calculate] returns the bare mapping of the
    four counters, all zero, with the four bucket names as its keys; on
    every other input it returns the object with the keys [counts],
    [percentages] and [total]. *)
Theorem calculate_empty_is_flat :
  calculate [] = (Flat [("<20", 0); ("20-40", 0); ("40-60", 0); (">60", 0)], [])
  /\ report_keys (fst (calculate [])) = ["<20"; "20-40"; "40-60"; ">60"]
  /\ (forall users,
        users <> [] ->
        (exists counts percentages total,
            fst (calculate users) = Wrapped counts percentages total)
        /\ report_keys (fst (calculate users)) = ["counts"; "percentages"; "total"]).
Proof.
  split; [reflexivity|]. split; [reflexivity|].
  intros users Hne. rewrite (calculate_nonempty users Hne). cbn [fst].
  split; [eauto | reflexivity].
Qed.

Lemma calculate_empty_is_flat_witness :
  report_keys (fst (calculate [{| age := AgeNumber 30 |}]))
  = ["counts"; "percentages"; "total"].
Proof.
  destruct calculate_empty_is_flat as (_ & _ & H).
  apply (H [{| age := AgeNumber 30 |}]). discriminate.
Defined.

End AgeDistributionFacts.

(* ================================================================== *)
(** * Properties of the file format *)
(* ================================================================== *)

Module CSVFormatFacts.
Import Js CSVParser Assembler CSVFormat JsFacts CSVParserFacts.

(** ** Quoted fields *)

Lemma append_assoc (s t u : string) : ((s ++ t) ++ u)%string = (s ++ (t ++ u))%string.
Proof. induction s as [|c s IH]; simpl; [reflexivity | now rewrite IH]. Qed.

(** Inside quotes, the doubled text of a field is appended to the
    accumulator as the field itself, and the quote that follows closes the
    field, provided no further quote comes right after it. *)
Lemma parseLine_loop_quoted (f rest : string) :
  (forall c rest', rest = String c rest' -> Ascii.eqb c dquote = false) ->
  forall values cur,
    parseLine_loop (double_quotes f ++ String dquote rest)%string values cur true
    = parseLine_loop rest values (cur ++ f)%string false.
Proof.
  intros Hrest. induction f as [|c f IH]; intros values cur.
  - cbn [double_quotes append parseLine_loop].
    change (Ascii.eqb dquote dquote) with true. cbv iota.
    rewrite append_empty_r.
    destruct rest as [|c rest']; [reflexivity|].
    rewrite (Hrest c rest' eq_refl). reflexivity.
  - cbn [double_quotes]. destruct (Ascii.eqb c dquote) eqn:E.
    + apply Ascii.eqb_eq in E. subst c.
      cbn [append parseLine_loop].
      change (Ascii.eqb dquote dquote) with true. cbv iota.
      rewrite IH. now rewrite append_snoc.
    + cbn [append parseLine_loop]. rewrite E.
      rewrite andb_false_r. rewrite IH. now rewrite append_snoc.
Qed.

Lemma parseLine_loop_encoded (field : bool * string) (rest : string) :
  encodable field = true ->
  (forall c rest', rest = String c rest' -> Ascii.eqb c dquote = false) ->
  forall values cur,
    parseLine_loop (encode field ++ rest)%string values cur false
    = parseLine_loop rest values (cur ++ snd field)%string false.
Proof.
  destruct field as [[|] f]; unfold encodable, encode; cbn [fst snd orb];
    intros Hf Hrest values cur.
  - unfold quoted. cbn [append parseLine_loop].
    change (Ascii.eqb dquote dquote) with true. cbv iota. cbn [negb].
    rewrite append_assoc. cbn [append].
    now apply parseLine_loop_quoted.
  - now apply parseLine_loop_plain.
Qed.

Lemma parseLine_loop_encoded_fields (fields : list (bool * string)) :
  forallb encodable fields = true ->
  forall field values cur,
    encodable field = true ->
    parseLine_loop (join "," (map encode (field :: fields))) values cur false
    = values ++ (cur ++ snd field)%string :: map snd fields.
Proof.
  induction fields as [|g fields IH]; intros Hfs field values cur Hf.
  - unfold join. cbn [map String.concat].
    rewrite <- (append_empty_r (encode field)).
    rewrite (parseLine_loop_encoded field EmptyString Hf) by (intros; discriminate).
    reflexivity.
  - cbn [forallb] in Hfs. apply andb_prop in Hfs as [Hg Hfs].
    unfold join in *. cbn [map String.concat] in *.
    rewrite (parseLine_loop_encoded field _ Hf).
    + cbn [append parseLine_loop].
      change (Ascii.eqb ","%char dquote) with false.
      change (Ascii.eqb ","%char comma) with true. cbn [andb negb].
      rewrite (IH Hfs g _ _ Hg). cbn [append].
      now rewrite <- app_assoc.
    + intros c rest' E. cbn [append] in E. injection E as <- _. reflexivity.
Qed.

(** X2.  Quoting round trip: a row of arbitrary fields, each written
    between double quotes with its own quotes doubled (or as it is when it
    holds neither a comma nor a quote), is read back by [parseLine] field
    for field, commas and quotes inside the fields included. *)
Theorem parseLine_quoting_roundtrip (fields : list (bool * string)) :
  fields <> [] ->
  forallb encodable fields = true ->
  parseLine (join "," (map encode fields)) = map snd fields.
Proof.
  intros Hne Hfs. destruct fields as [|field fields]; [contradiction|].
  cbn [forallb] in Hfs. apply andb_prop in Hfs as [Hf Hfs].
  unfold parseLine.
  now rewrite (parseLine_loop_encoded_fields fields Hfs field [] EmptyString Hf).
Qed.

Lemma parseLine_quoting_roundtrip_witness :
  parseLine (join "," (map encode
     [(false, "Rohit"); (true, "Pune, India");
      (true, String dquote ("quoted" ++ String dquote EmptyString));
      (true, EmptyString)]))
  = ["Rohit"; "Pune, India"; String dquote ("quoted" ++ String dquote EmptyString);
     EmptyString].
Proof.
  apply (parseLine_quoting_roundtrip
           [(false, "Rohit"); (true, "Pune, India");
            (true, String dquote ("quoted" ++ String dquote EmptyString));
            (true, EmptyString)]); [discriminate | reflexivity].
Defined.

(** ** A quote left open *)

(** Inside a quote that is never closed, the rest of the line is one
    field, commas included, with every doubled quote read as one. *)
Lemma parseLine_loop_open (t : string) :
  forall values cur,
    parseLine_loop (double_quotes t) values cur true = values ++ [(cur ++ t)%string].
Proof.
  induction t as [|c t IH]; intros values cur.
  - cbn [double_quotes parseLine_loop]. now rewrite append_empty_r.
  - cbn [double_quotes]. destruct (Ascii.eqb c dquote) eqn:E.
    + apply Ascii.eqb_eq in E. subst c. cbn [parseLine_loop].
      change (Ascii.eqb dquote dquote) with true. cbv iota.
      rewrite IH. now rewrite append_snoc.
    + cbn [parseLine_loop]. rewrite E, andb_false_r. rewrite IH.
      now rewrite append_snoc.
Qed.

Lemma parseLine_loop_then_open (fields : list (bool * string)) (t : string) :
  forallb encodable fields = true ->
  forall values cur,
    parseLine_loop
      (join "," (map encode fields ++ [String dquote (double_quotes t)]))
      values cur false
    = match fields with
      | [] => values ++ [(cur ++ t)%string]
      | field :: fields' =>
          values ++ (cur ++ snd field)%string :: map snd fields' ++ [t]
      end.
Proof.
  induction fields as [|field fields IH]; intros Hfs values cur.
  - unfold join. cbn [map app String.concat parseLine_loop].
    change (Ascii.eqb dquote dquote) with true. cbv iota. cbn [negb].
    apply parseLine_loop_open.
  - cbn [forallb] in Hfs. apply andb_prop in Hfs as [Hf Hfs].
    unfold join in *. cbn [map app].
    assert (Hcons : forall x l, l <> [] ->
               String.concat "," (x :: l) = (x ++ "," ++ String.concat "," l)%string).
    { intros x [|y l] Hl; [contradiction | reflexivity]. }
    rewrite Hcons by (destruct (map encode fields); discriminate).
    rewrite (parseLine_loop_encoded field _ Hf).
    + cbn [append parseLine_loop].
      change (Ascii.eqb ","%char dquote) with false.
      change (Ascii.eqb ","%char comma) with true. cbn [andb negb].
      rewrite (IH Hfs). destruct fields as [|g fields']; cbn [map app append];
        now rewrite <- app_assoc.
    + intros c rest' E. cbn [append] in E. injection E as <- _. reflexivity.
Qed.

(** X3.  Tokenization never fails: [parseLine] returns at least one field
    for every line, and a quote that is never closed is not an error: after
    any fields, quoted or plain, everything that follows the opening quote
    is the last field, its commas included and its doubled quotes read as
    one. *)
Theorem parseLine_at_least_one_field :
  (forall line, parseLine line <> [])
  /\ (forall (fields : list (bool * string)) (t : string),
        forallb encodable fields = true ->
        parseLine (join "," (map encode fields ++ [String dquote (double_quotes t)]))
        = map snd fields ++ [t]).
Proof.
  split.
  - intros line H.
    pose proof (parseLine_loop_length (String.length line) line (le_n _)
                  [] EmptyString false) as Hlen.
    fold (parseLine line) in Hlen. rewrite H in Hlen. simpl in Hlen. lia.
  - intros fields t Hfs. unfold parseLine.
    rewrite (parseLine_loop_then_open fields t Hfs).
    now destruct fields.
Qed.

Lemma parseLine_at_least_one_field_witness :
  parseLine (join "," (map encode [(false, "a"); (true, "b,c")]
                       ++ [String dquote (double_quotes "abc,def")]))
  = ["a"; "b,c"; "abc,def"].
Proof.
  apply (proj2 parseLine_at_least_one_field [(false, "a"); (true, "b,c")] "abc,def").
  reflexivity.
Defined.

(** ** Lines without quotes *)

Lemma parseLine_loop_split (line : string) :
  quoteFree line = true ->
  forall values cur,
    parseLine_loop line values cur false
    = values ++ match split_on comma line with
                | piece :: pieces => (cur ++ piece)%string :: pieces
                | [] => [cur]
                end.
Proof.
  induction line as [|c line IH]; intros Hq values cur.
  - cbn [parseLine_loop split_on]. now rewrite append_empty_r.
  - cbn [quoteFree string_forallb] in Hq. apply andb_prop in Hq as [Hc Hq].
    apply negb_true_iff in Hc. fold (quoteFree line) in Hq.
    cbn [parseLine_loop split_on]. rewrite Hc.
    destruct (Ascii.eqb c comma); cbn [andb negb]; rewrite (IH Hq);
      (destruct (split_on comma line) as [|piece pieces] eqn:E;
       [now apply ObjectBuilderFacts.split_on_nonempty in E|]).
    + rewrite <- app_assoc. cbn [app append]. now rewrite append_empty_r.
    + now rewrite append_snoc.
Qed.

(** X4.  On a line without double quotes the tokenizer is
    [line.split(',')]: the fields are the pieces between the commas,
    untrimmed, and there is one more of them than there are commas. *)
Theorem parseLine_without_quotes (line : string) :
  quoteFree line = true ->
  parseLine line = split_on comma line.
Proof.
  intros Hq. unfold parseLine. rewrite (parseLine_loop_split line Hq). cbn [app].
  destruct (split_on comma line) as [|piece pieces] eqn:E; [|reflexivity].
  now apply ObjectBuilderFacts.split_on_nonempty in E.
Qed.

Lemma parseLine_without_quotes_witness :
  parseLine " a, b ,,c " = split_on comma " a, b ,,c ".
Proof. apply parseLine_without_quotes. reflexivity. Defined.

(** ** Line endings *)

Lemma split_lines_line (l rest : string) :
  oneLine l = true ->
  split_lines (l ++ rest)
  = match split_lines rest with
    | piece :: pieces => (l ++ piece)%string :: pieces
    | [] => [l]
    end.
Proof.
  intros Hl. induction l as [|c l IH].
  - cbn [append]. destruct (split_lines rest) eqn:E; [|reflexivity].
    now apply split_lines_nonempty in E.
  - cbn [oneLine string_forallb] in Hl. apply andb_prop in Hl as [Hc Hl].
    unfold lineChar in Hc. apply andb_prop in Hc as [Hcr Hlf].
    apply negb_true_iff in Hcr, Hlf.
    cbn [append split_lines]. rewrite Hcr, Hlf. rewrite (IH Hl).
    destruct (split_lines rest) eqn:E; [|reflexivity].
    now apply split_lines_nonempty in E.
Qed.

Lemma split_lines_ending (e : LineEnding) (rest : string) :
  (e = OldMac -> forall rest', rest <> String LF rest') ->
  split_lines (ending_text e ++ rest) = EmptyString :: split_lines rest.
Proof.
  intros He. destruct e; cbn [ending_text append split_lines].
  - reflexivity.
  - reflexivity.
  - change (Ascii.eqb CR CR) with true. cbv iota.
    destruct rest as [|c rest']; [reflexivity|].
    destruct (Ascii.eqb c LF) eqn:E; [|reflexivity].
    apply Ascii.eqb_eq in E. subst c. now destruct (He eq_refl rest').
Qed.

Lemma split_lines_join (e : LineEnding) (lines : list string) :
  forallb oneLine lines = true ->
  forall l, oneLine l = true ->
  split_lines (join (ending_text e) (l :: lines)) = l :: lines.
Proof.
  induction lines as [|l' lines IH]; intros Hls l Hl.
  - unfold join. cbn [String.concat].
    rewrite <- (append_empty_r l) at 1. rewrite (split_lines_line l _ Hl).
    cbn [split_lines]. now rewrite append_empty_r.
  - cbn [forallb] in Hls. apply andb_prop in Hls as [Hl' Hls].
    unfold join in *.
    change (String.concat (ending_text e) (l :: l' :: lines))
      with (l ++ ending_text e ++ String.concat (ending_text e) (l' :: lines))%string.
    rewrite (split_lines_line l _ Hl).
    rewrite split_lines_ending.
    + rewrite (IH Hls l' Hl'). now rewrite append_empty_r.
    + intros -> rest' E.
      assert (Hhead : forall s, oneLine s = true -> forall t u,
                 (s ++ t)%string = String LF u -> s = EmptyString).
      { intros [|c s] Hs t u Hu; [reflexivity|]. cbn [append] in Hu.
        injection Hu as -> _. discriminate Hs. }
      destruct lines as [|l'' lines'].
      * cbn [String.concat] in E. subst l'. discriminate Hl'.
      * change (String.concat (ending_text OldMac) (l' :: l'' :: lines'))
          with (l' ++ ending_text OldMac
                ++ String.concat (ending_text OldMac) (l'' :: lines'))%string in E.
        pose proof (Hhead l' Hl' _ _ E) as ->. cbn [append] in E.
        discriminate E.
Qed.

(** X5.  Line endings: a text made of lines joined by CR LF, by LF or by
    CR alone is split back into those lines, empty lines included, whichever
    of the three endings is used. *)
Theorem splitIntoLines_join (e : LineEnding) (lines : list string) :
  lines <> [] ->
  forallb oneLine lines = true ->
  splitIntoLines (join (ending_text e) lines) = lines.
Proof.
  intros Hne Hls. destruct lines as [|l lines]; [contradiction|].
  cbn [forallb] in Hls. apply andb_prop in Hls as [Hl Hls].
  now apply split_lines_join.
Qed.

Lemma splitIntoLines_join_witness :
  splitIntoLines (join (ending_text OldMac) ["a,b"; EmptyString; "1,2"; EmptyString])
  = ["a,b"; EmptyString; "1,2"; EmptyString].
Proof. apply splitIntoLines_join; [discriminate | reflexivity]. Defined.

(** ** Records hold trimmed text *)

Lemma trimStart_starts (s : string) : starts_blank (trimStart s) = false.
Proof.
  induction s as [|c s IH]; cbn [trimStart]; [reflexivity|].
  destruct (isWhiteSpace c) eqn:E; [exact IH | exact E].
Qed.

Lemma trimEnd_ends (s : string) : ends_blank (trimEnd s) = false.
Proof.
  induction s as [|c s IH]; cbn [trimEnd]; [reflexivity|].
  destruct (trimEnd s) as [|d t] eqn:E.
  - destruct (isWhiteSpace c) eqn:Ec; [reflexivity | exact Ec].
  - exact IH.
Qed.

Lemma trimEnd_starts (s : string) :
  starts_blank s = false -> starts_blank (trimEnd s) = false.
Proof.
  destruct s as [|c s]; cbn [trimEnd starts_blank]; [reflexivity|]. intros Hc.
  destruct (trimEnd s); [rewrite Hc; exact Hc | exact Hc].
Qed.

Lemma trim_trimmed (s : string) : trimmed (trim s) = true.
Proof.
  unfold trimmed, trim.
  now rewrite (trimEnd_starts _ (trimStart_starts s)), trimEnd_ends.
Qed.

Lemma trimStart_fixed (s : string) : starts_blank s = false -> trimStart s = s.
Proof. destruct s as [|c s]; cbn [starts_blank trimStart]; [reflexivity|]. now intros ->. Qed.

Lemma trimEnd_fixed (s : string) : ends_blank s = false -> trimEnd s = s.
Proof.
  induction s as [|c s IH]; [reflexivity|]. cbn [ends_blank trimEnd].
  destruct s as [|d s'].
  - cbn [trimEnd]. now intros ->.
  - intros H. rewrite (IH H). reflexivity.
Qed.

(** Trimming a trimmed text changes nothing. *)
Lemma trimmed_fixed (s : string) : trimmed s = true -> trim s = s.
Proof.
  unfold trimmed, trim. intros H. apply andb_prop in H as [Hs He].
  apply negb_true_iff in Hs, He.
  rewrite (trimStart_fixed s Hs). now apply trimEnd_fixed.
Qed.

Section Entries.
Context {V : Type}.

Lemma prop_update_In (k0 : string) (v0 : V) (o : props V) (e : string * V) :
  In e (prop_update k0 v0 o) -> e = (k0, v0) \/ In e o.
Proof.
  induction o as [|[k' v'] o IH]; cbn [prop_update]; [now right|].
  destruct (String.eqb k' k0); cbn [In]; intuition.
Qed.

Lemma prop_insert_index_In (n : N) (k0 : string) (v0 : V) (o : props V) (e : string * V) :
  In e (prop_insert_index n k0 v0 o) -> e = (k0, v0) \/ In e o.
Proof.
  induction o as [|[k' v'] o IH]; cbn [prop_insert_index In]; [intuition|].
  destruct (array_index k') as [n'|]; [destruct (n' <? n)%N|]; cbn [In]; intuition.
Qed.

(** An assignment adds no entry but its own. *)
Lemma prop_set_In (k0 : string) (v0 : V) (o : props V) (e : string * V) :
  In e (prop_set k0 v0 o) -> e = (k0, v0) \/ In e o.
Proof.
  unfold prop_set, prop_create. destruct (prop_has k0 o).
  - apply prop_update_In.
  - destruct (array_index k0).
    + apply prop_insert_index_In.
    + rewrite in_app_iff. cbn [In]. intuition.
Qed.
End Entries.

Lemma fill_record_entries (P : string * string -> Prop) (headers : list string) :
  (forall h v, P (trim h, trim v)) ->
  forall values record,
    (forall e, In e record -> P e) ->
    forall e, In e (fill_record headers values record) -> P e.
Proof.
  intros HP. induction headers as [|h headers IH]; intros [|v values] record Hr e;
    cbn [fill_record]; auto.
  apply IH. intros e' He'. unfold record_assign in He'.
  destruct (String.eqb (trim h) proto_name); [auto|].
  apply prop_set_In in He' as [->|He']; auto.
Qed.

Lemma assemble_In (header : list string) (lines : list string) (record : FlatRecord) :
  In record (assemble header lines) ->
  exists line, In line lines /\ record = fill_record header (row_of line) [].
Proof.
  unfold assemble. rewrite in_flat_map. intros (line & Hl & Hr).
  exists line. split; [exact Hl|]. unfold assemble_row in Hr.
  destruct (matches header line); [|contradiction].
  destruct Hr as [<-|[]]. symmetry. apply fill_record_zip.
Qed.

Lemma parseCSVContent_assemble (content : string) :
  parseCSVContent content
  = (Normal (assemble (parseLine (hd EmptyString (splitIntoLines content)))
                      (tl (splitIntoLines content))),
     diagnostics (parseLine (hd EmptyString (splitIntoLines content))) 1
                 (tl (splitIntoLines content))).
Proof.
  unfold parseCSVContent.
  destruct (splitIntoLines content) as [|first rest] eqn:E.
  - now apply splitIntoLines_nonempty in E.
  - cbn [hd tl]. now rewrite rows_loop_assemble.
Qed.

(** X6.  Whatever the spacing of the file, no key and no value of a
    record starts or ends with white space, so trimming them again changes
    nothing. *)
Theorem parseCSVContent_records_trimmed (content : string)
    (records : list FlatRecord) (console : list string)
    (record : FlatRecord) (key value : string) :
  parseCSVContent content = (Normal records, console) ->
  In record records ->
  In (key, value) record ->
  trimmed key = true /\ trimmed value = true
  /\ trim key = key /\ trim value = value.
Proof.
  rewrite parseCSVContent_assemble. intros H Hrecord Hentry.
  injection H as <- _.
  apply assemble_In in Hrecord as (line & _ & ->).
  assert (Ht : trimmed key = true /\ trimmed value = true).
  { apply (fill_record_entries
             (fun e => trimmed (fst e) = true /\ trimmed (snd e) = true)
             _ (fun h v => conj (trim_trimmed h) (trim_trimmed v))
             (row_of line) [] (fun e (He : In e []) => match He with end)
             (key, value) Hentry). }
  destruct Ht as [Hk Hv]. repeat split; auto using trimmed_fixed.
Qed.

Lemma parseCSVContent_records_trimmed_witness :
  trimmed "city" = true /\ trimmed "New  Delhi" = true
  /\ trim "city" = "city" /\ trim "New  Delhi" = "New  Delhi".
Proof.
  apply (parseCSVContent_records_trimmed
           ("name ,  city " ++ String LF "  Asha ,   New  Delhi  ")
           [[("name", "Asha"); ("city", "New  Delhi")]] []
           [("name", "Asha"); ("city", "New  Delhi")] "city" "New  Delhi").
  - reflexivity.
  - now left.
  - right. now left.
Defined.

(** ** Every data line is accounted for *)

Lemma lines_accounted (header : list string) (lines : list string) :
  forall i,
    length (assemble header lines) + length (diagnostics header i lines)
    + length (filter blank lines)
    = length lines.
Proof.
  induction lines as [|line lines IH]; intros i; [reflexivity|].
  cbn [assemble flat_map diagnostics filter length].
  fold (assemble header lines). rewrite !length_app.
  specialize (IH (S i)).
  unfold assemble_row, matches, mismatched.
  destruct (blank line); cbn [negb andb length]; [lia|].
  destruct (length (row_of line) =? length header)%nat; cbn [negb length]; lia.
Qed.

(** X7.  Every line after the header is accounted for exactly once: it
    yields a record, or a warning, or it is blank.  The records, the
    warnings and the blank lines add up to the data lines of the file. *)
Theorem parseCSVContent_accounts_for_every_line (content : string)
    (records : list FlatRecord) (console : list string) :
  parseCSVContent content = (Normal records, console) ->
  length records + length console
  + length (filter blank (tl (splitIntoLines content)))
  = length (tl (splitIntoLines content)).
Proof.
  rewrite parseCSVContent_assemble. intros H. injection H as <- <-.
  apply lines_accounted.
Qed.

Lemma parseCSVContent_accounts_for_every_line_witness :
  length [[("a", "1"); ("b", "2")]]
  + length ["Warning: Line 4 has 3 values but expected 2. Skipping."]
  + length (filter blank (tl (splitIntoLines
       ("a,b" ++ String LF "1,2" ++ String LF "  " ++ String LF "1,2,3"))))
  = length (tl (splitIntoLines
       ("a,b" ++ String LF "1,2" ++ String LF "  " ++ String LF "1,2,3"))).
Proof.
  apply (parseCSVContent_accounts_for_every_line
           ("a,b" ++ String LF "1,2" ++ String LF "  " ++ String LF "1,2,3")).
  reflexivity.
Defined.

End CSVFormatFacts.

(* ================================================================== *)
(** * Properties of flat records under the builder and the separator *)
(* ================================================================== *)

Module FlatRecordsFacts.
Import Js CSVParser ObjectBuilder FlatRecords JsFacts ObjectBuilderFacts.
Import CSVFormat CSVFormatFacts.

(** What is read in a record after an assignment along [keys] was there
    before, or lies on the path of the assignment; a string that was not
    there before is the value assigned, at the end of the path. *)
Lemma set_along_reads (keys : list string) :
  forall current value current' p x,
    set_along keys current value = Some current' ->
    get_path p current' = Some x ->
    get_path p current = Some x
    \/ (is_prefix p keys = true
        /\ forall s, x = VStr s -> p = keys /\ s = value /\ proto_free keys = true).
Proof.
  induction keys as [|k keys IH]; intros current value current' p x Hset Hget.
  - cbn [set_along] in Hset. injection Hset as <-. now left.
  - destruct keys as [|k2 keys].
    + cbn [set_along] in Hset. injection Hset as <-. unfold assign_leaf in Hget.
      destruct (String.eqb k proto_name) eqn:Ek; [now left|].
      destruct p as [|k0 [|k1 p]].
      * discriminate Hget.
      * cbn [get_path] in Hget |- *.
        destruct (String.eqb_spec k0 k) as [->|Hne].
        -- rewrite prop_get_set_same in Hget. injection Hget as <-. right.
           cbn [is_prefix]. rewrite String.eqb_refl. split; [reflexivity|].
           intros s Hs. injection Hs as <-. cbn [proto_free forallb].
           now rewrite Ek.
        -- rewrite (prop_get_set_other _ _ _ _ Hne) in Hget. now left.
      * rewrite get_path_cons in Hget. rewrite get_path_cons.
        destruct (String.eqb_spec k0 k) as [->|Hne].
        -- rewrite prop_get_set_same in Hget. discriminate Hget.
        -- rewrite (prop_get_set_other _ _ _ _ Hne) in Hget. now left.
    + rewrite set_along_cons in Hset.
      destruct (String.eqb k proto_name) eqn:Ek; [discriminate|].
      destruct (set_along (k2 :: keys) _ value) as [child'|] eqn:E; [|discriminate].
      injection Hset as <-.
      destruct p as [|k0 [|k1 p]].
      * discriminate Hget.
      * cbn [get_path] in Hget |- *.
        destruct (String.eqb_spec k0 k) as [->|Hne].
        -- rewrite prop_get_set_same in Hget. injection Hget as <-. right.
           cbn [is_prefix]. rewrite String.eqb_refl. split; [reflexivity|].
           intros s Hs. discriminate Hs.
        -- rewrite (prop_get_set_other _ _ _ _ Hne) in Hget. now left.
      * rewrite get_path_cons in Hget. rewrite get_path_cons.
        destruct (String.eqb_spec k0 k) as [->|Hne].
        -- rewrite prop_get_set_same in Hget.
           destruct (IH _ _ _ _ _ E Hget) as [Hold|[Hpre Hstr]].
           ++ left. destruct (prop_get k current) as [[s|c]|];
                try (now rewrite get_path_nil_obj in Hold). exact Hold.
           ++ right. split.
              ** change (is_prefix (k :: k1 :: p) (k :: k2 :: keys))
                   with (String.eqb k k && is_prefix (k1 :: p) (k2 :: keys)).
                 now rewrite String.eqb_refl.
              ** intros s Hs. destruct (Hstr s Hs) as (Hp & Hv & Hfree).
                 rewrite Hp. repeat split; [exact Hv|].
                 change (proto_free (k :: k2 :: keys))
                   with (negb (String.eqb k proto_name) && proto_free (k2 :: keys)).
                 now rewrite Ek, Hfree.
        -- rewrite (prop_get_set_other _ _ _ _ Hne) in Hget. now left.
Qed.

Lemma build_loop_reads (entries : list (string * string)) :
  forall result nested p x,
    build_loop entries result = Some nested ->
    get_path p nested = Some x ->
    get_path p result = Some x
    \/ exists key value,
         In (key, value) entries
         /\ is_prefix p (segments key) = true
         /\ forall s, x = VStr s ->
                      p = segments key /\ s = value /\ proto_free (segments key) = true.
Proof.
  induction entries as [|[key value] entries IH]; intros result nested p x Hb Hget;
    cbn [build_loop] in Hb.
  - injection Hb as <-. now left.
  - destruct (setNestedProperty result key value) as [result'|] eqn:E; [|discriminate].
    destruct (IH _ _ _ _ Hb Hget) as [Hold|(key' & value' & Hin & Hpre & Hstr)].
    + destruct (set_along_reads _ _ _ _ _ _ E Hold) as [Hold'|[Hpre Hstr]];
        [now left|].
      right. exists key, value. split; [now left | now split].
    + right. exists key', value'. split; [now right | now split].
Qed.

(** X9.  The builder invents nothing: every property found in the nested
    record, at any depth, lies on the dot-path of a key of the flat record,
    and every string found there is the value of a key with exactly that
    path. *)
Theorem buildNestedObject_invents_nothing (flat : FlatRecord) (nested : Obj)
    (p : list string) (x : Value) :
  buildNestedObject flat = Some nested ->
  get_path p nested = Some x ->
  exists key value,
    In (key, value) flat
    /\ is_prefix p (segments key) = true
    /\ forall s, x = VStr s -> p = segments key /\ s = value.
Proof.
  intros Hb Hget.
  destruct (build_loop_reads flat [] nested p x Hb Hget)
    as [Hold|(key & value & Hin & Hpre & Hstr)].
  - now rewrite get_path_nil_obj in Hold.
  - exists key, value. repeat split; auto; now destruct (Hstr s H).
Qed.

Lemma buildNestedObject_invents_nothing_witness :
  exists key value,
    In (key, value) [("name.firstName", "Asha"); ("address.city", "Pune")]
    /\ is_prefix ["address"; "city"] (segments key) = true
    /\ forall s, VStr "Pune" = VStr s -> ["address"; "city"] = segments key /\ s = value.
Proof.
  apply (buildNestedObject_invents_nothing
           [("name.firstName", "Asha"); ("address.city", "Pune")]
           [("name", VObj [("firstName", VStr "Asha")]);
            ("address", VObj [("city", VStr "Pune")])]);
    reflexivity.
Defined.

(** ** Keys that stay apart *)

Lemma apart_nth (flat : FlatRecord) :
  apart flat = true ->
  forall i j key value key' value',
    i < j ->
    nth_error flat i = Some (key, value) ->
    nth_error flat j = Some (key', value') ->
    conflicting (segments key) (segments key') = false.
Proof.
  induction flat as [|[k v] flat IH]; intros Ha i j key value key' value' Hij Hi Hj.
  - now destruct i.
  - cbn [apart] in Ha. apply andb_prop in Ha as [Hhere Ha].
    destruct j as [|j]; [lia|]. cbn [nth_error] in Hj.
    destruct i as [|i].
    + cbn [nth_error] in Hi. injection Hi as -> ->.
      rewrite forallb_forall in Hhere.
      apply nth_error_In in Hj. apply Hhere in Hj. cbn [fst] in Hj.
      now apply negb_true_iff in Hj.
    + cbn [nth_error] in Hi. apply (IH Ha i j key value key' value'); [lia|auto..].
Qed.

Lemma build_loop_total (entries : list (string * string)) :
  proto_free_record entries = true ->
  forall result, exists nested, build_loop entries result = Some nested.
Proof.
  induction entries as [|[key value] entries IH]; intros Hfree result; cbn [build_loop].
  - eauto.
  - cbn [proto_free_record forallb fst] in Hfree. apply andb_prop in Hfree as [Hk Hfree].
    unfold setNestedProperty.
    destruct (set_along_total (split_on dot key) Hk result value) as [result' ->].
    now apply IH.
Qed.

(** X10.  The builder loses nothing when the keys stay apart: on a flat
    record whose dot-paths do not run through one another (and none of
    which names [__proto__]), the builder returns a nested record in which
    every entry is read back at its path, whatever the order of the
    entries. *)
Theorem buildNestedObject_keeps_every_entry (flat : FlatRecord) :
  apart flat = true ->
  proto_free_record flat = true ->
  exists nested,
    buildNestedObject flat = Some nested
    /\ forall key value,
         In (key, value) flat ->
         get_path (segments key) nested = Some (VStr value).
Proof.
  intros Ha Hfree.
  destruct (build_loop_total flat Hfree []) as [nested Hb].
  exists nested. split; [exact Hb|].
  intros key value Hin.
  apply (settles_get_path flat nested key value Hb).
  - apply In_nth_error in Hin as [i Hi]. exists i. split; [exact Hi|].
    intros j key' value' Hij Hj. exact (apart_nth flat Ha i j _ _ _ _ Hij Hi Hj).
  - unfold proto_free_record in Hfree. rewrite forallb_forall in Hfree.
    exact (Hfree _ Hin).
Qed.

Lemma buildNestedObject_keeps_every_entry_witness :
  exists nested,
    buildNestedObject [("address.city", "Pune"); ("name.firstName", "Asha");
                       ("address.line1", "12 MG Road"); ("age", "31")] = Some nested
    /\ forall key value,
         In (key, value) [("address.city", "Pune"); ("name.firstName", "Asha");
                          ("address.line1", "12 MG Road"); ("age", "31")] ->
         get_path (segments key) nested = Some (VStr value).
Proof.
  apply buildNestedObject_keeps_every_entry; reflexivity.
Defined.

(** ** Records the separator cannot fail on *)

Lemma is_prefix_In (p keys : list string) (k : string) :
  is_prefix p keys = true -> In k p -> In k keys.
Proof.
  revert keys. induction p as [|k0 p IH]; intros [|k1 keys] Hp Hin;
    cbn [is_prefix] in Hp; try contradiction; try discriminate.
  apply andb_prop in Hp as [Hk Hp]. apply String.eqb_eq in Hk. subst k1.
  destruct Hin as [->|Hin]; [now left | right; now apply IH].
Qed.

Lemma plain_record_no_toString (flat : FlatRecord) (nested : Obj) :
  plain_record flat = true ->
  buildNestedObject flat = Some nested ->
  forall p x, get_path p nested = Some x -> ~ In "toString" p.
Proof.
  intros Hplain Hb p x Hget Hin.
  destruct (build_loop_reads flat [] nested p x Hb Hget)
    as [Hold|(key & value & Hkey & Hpre & _)].
  - now rewrite get_path_nil_obj in Hold.
  - unfold plain_record in Hplain. rewrite forallb_forall in Hplain.
    specialize (Hplain _ Hkey). cbn [fst] in Hplain.
    rewrite forallb_forall in Hplain.
    specialize (Hplain _ (is_prefix_In _ _ _ Hpre Hin)).
    unfold plain_segment in Hplain. now rewrite andb_false_r in Hplain.
Qed.

Lemma get_path_snoc (p : list string) (k : string) (o c : Obj) :
  get_path p o = Some (VObj c) -> get_path (p ++ [k]) o = prop_get k c.
Proof.
  revert o. induction p as [|k0 p IH]; intros o H; [discriminate H|].
  destruct p as [|k1 p].
  - cbn [get_path] in H. cbn [app get_path]. now rewrite H.
  - rewrite get_path_cons in H. change ((k0 :: k1 :: p) ++ [k]) with (k0 :: (k1 :: p) ++ [k]).
    cbn [app]. rewrite get_path_cons.
    destruct (prop_get k0 o) as [[s|c0]|]; try discriminate H.
    now apply IH.
Qed.

Lemma ToString_without_toString (nested : Obj) (p : list string) (v : Value) :
  (forall q x, get_path q nested = Some x -> ~ In "toString" q) ->
  get_path p nested = Some v ->
  exists s, ToString v = Normal s.
Proof.
  intros Hno Hget. destruct v as [s|o]; cbn [ToString]; [eauto|].
  destruct (prop_has "toString" o) eqn:E; [|eauto].
  apply prop_has_true in E as [x Hx].
  exfalso. apply (Hno (p ++ ["toString"]) x).
  - now rewrite (get_path_snoc p "toString" nested o Hget).
  - rewrite in_app_iff. right. now left.
Qed.

Lemma ToString_or_empty (nested : Obj) (p : list string) :
  (forall q x, get_path q nested = Some x -> ~ In "toString" q) ->
  exists s, ToString (or_empty (get_path p nested)) = Normal s.
Proof.
  intros Hno. unfold or_empty, truthy.
  destruct (get_path p nested) as [[s|o]|] eqn:E.
  - destruct (String.eqb s EmptyString); cbn [ToString]; eauto.
  - exact (ToString_without_toString nested p (VObj o) Hno E).
  - cbn [ToString]. eauto.
Qed.

Lemma separateMandatoryFields_total (nested : Obj) :
  (forall q x, get_path q nested = Some x -> ~ In "toString" q) ->
  exists user, separateMandatoryFields nested = Normal user.
Proof.
  intros Hno. unfold separateMandatoryFields.
  assert (Hage : exists a, parseInt_or_0 (prop_get "age" nested) = Normal a).
  { unfold parseInt_or_0. destruct (prop_get "age" nested) as [v|] eqn:E; [|eauto].
    destruct (ToString_without_toString nested ["age"] v Hno E) as [s ->]. eauto. }
  destruct Hage as [a ->].
  change (member (prop_get "name" nested) "firstName")
    with (get_path ["name"; "firstName"] nested).
  change (member (prop_get "name" nested) "lastName")
    with (get_path ["name"; "lastName"] nested).
  destruct (ToString_or_empty nested ["name"; "firstName"] Hno) as [first ->].
  destruct (ToString_or_empty nested ["name"; "lastName"] Hno) as [last ->].
  eauto.
Qed.

Lemma plain_record_proto_free (flat : FlatRecord) :
  plain_record flat = true -> proto_free_record flat = true.
Proof.
  unfold plain_record, proto_free_record, proto_free. rewrite !forallb_forall.
  intros H entry Hin. specialize (H entry Hin). rewrite forallb_forall in H |- *.
  intros k Hk. specialize (H k Hk). unfold plain_segment in H.
  now apply andb_prop in H as [H _].
Qed.

Lemma processRecord_total (record : FlatRecord) :
  plain_record record = true ->
  exists user, processRecord record = Some (Normal user).
Proof.
  intros Hplain. unfold processRecord.
  destruct (build_loop_total record (plain_record_proto_free record Hplain) [])
    as [nested Hb].
  unfold buildNestedObject at 1. rewrite Hb.
  destruct (separateMandatoryFields_total nested
              (plain_record_no_toString record nested Hplain Hb)) as [user ->].
  eauto.
Qed.

(** X11.  The conversion of a batch cannot fail on records whose keys
    have no segment named [toString] or [__proto__]: [processRecords]
    returns one user per record, in order, each the user of its record.
    A key such as [age.toString] is what it takes to make the separator
    throw. *)
Theorem processRecords_total (records : list FlatRecord) :
  forallb plain_record records = true ->
  exists users,
    processRecords records = Some (Normal users)
    /\ Forall2 (fun record user => processRecord record = Some (Normal user))
               records users.
Proof.
  induction records as [|record records IH]; intros Hplain; cbn [processRecords].
  - exists []. split; [reflexivity | constructor].
  - cbn [forallb] in Hplain. apply andb_prop in Hplain as [Hrecord Hplain].
    destruct (processRecord_total record Hrecord) as [user Hu].
    destruct (IH Hplain) as (users & -> & Hall).
    rewrite Hu. exists (user :: users). split; [reflexivity|].
    now constructor.
Qed.

Lemma processRecords_total_witness :
  exists users,
    processRecords [[("name.firstName", "Asha"); ("age", "31")];
                    [("name.lastName", "Rao"); ("hobby", "chess")]]
    = Some (Normal users)
    /\ Forall2 (fun record user => processRecord record = Some (Normal user))
               [[("name.firstName", "Asha"); ("age", "31")];
                [("name.lastName", "Rao"); ("hobby", "chess")]] users.
Proof. apply processRecords_total. reflexivity. Defined.

(** The precondition is needed: the separator throws on a record that
    holds a mapping with a property of its own named [toString] where a
    text is expected. *)
Example processRecord_throws :
  plain_record [("age.toString", "x")] = false
  /\ processRecord [("age.toString", "x")]
     = Some (Throw "Cannot convert object to primitive value")
  /\ processRecords [[("age", "31")]; [("age.toString", "x")]; [("age", "40")]]
     = Some (Throw "Cannot convert object to primitive value").
Proof. repeat split. Qed.

(** ** What the separator hands to the engine *)

Lemma additional_loop_keys (entries : Obj) :
  forall additionalInfo k,
    In k (prop_keys (additional_loop entries additionalInfo)) ->
    In k (prop_keys additionalInfo)
    \/ (mandatory_key k = false /\ In k (prop_keys entries)).
Proof.
  induction entries as [|[key value] entries IH]; intros info k Hk;
    cbn [additional_loop] in Hk; [now left|].
  destruct (mandatory_key key) eqn:Em; cbn [negb] in Hk.
  - destruct (IH _ _ Hk) as [H|[H1 H2]]; [now left|].
    right. split; [exact H1 | now right].
  - destruct (IH _ _ Hk) as [H|[H1 H2]].
    + unfold info_assign in H. destruct (String.eqb key proto_name); [now left|].
      apply prop_keys_set in H as [->|H]; [|now left].
      right. split; [exact Em | now left].
    + right. split; [exact H1 | now right].
Qed.

(** X12.  What the separator returns, whatever the nested record: a full
    name without white space at either end; an address that is never the
    empty string; and additional information that is never an empty
    mapping and never holds [name], [age] or [address], only keys of the
    record. *)
Theorem separateMandatoryFields_invariants (nested : Obj) (user : PersistableUser) :
  separateMandatoryFields nested = Normal user ->
  trimmed (name user) = true
  /\ address user <> Some (VStr EmptyString)
  /\ additional_info user <> Some []
  /\ forall info k,
       additional_info user = Some info ->
       In k (prop_keys info) ->
       mandatory_key k = false /\ In k (prop_keys nested).
Proof.
  intros H.
  destruct (separateMandatoryFields_fields nested user H)
    as (first & last & _ & _ & Hname & _ & Haddress & Hinfo).
  split; [rewrite Hname; apply trim_trimmed|]. split; [|split].
  - rewrite Haddress. unfold truthy.
    destruct (prop_get "address" nested) as [[s|o]|]; try discriminate.
    destruct (String.eqb s EmptyString) eqn:E; [discriminate|].
    intros Hs. injection Hs as ->. discriminate E.
  - rewrite Hinfo. now destruct (additional_loop nested []).
  - intros info k Hi Hk. rewrite Hinfo in Hi.
    assert (Hloop : info = additional_loop nested [])
      by (destruct (additional_loop nested []); [discriminate | congruence]).
    subst info. destruct (additional_loop_keys nested [] k Hk) as [[]|Hk']. exact Hk'.
Qed.

Lemma separateMandatoryFields_invariants_witness :
  trimmed "Rao" = true
  /\ (None : option Value) <> Some (VStr EmptyString)
  /\ Some [("hobby", VStr "chess")] <> Some []
  /\ forall info k,
       Some [("hobby", VStr "chess")] = Some info ->
       In k (prop_keys info) ->
       mandatory_key k = false
       /\ In k (prop_keys [("name", VObj [("lastName", VStr " Rao ")]);
                           ("address", VStr EmptyString);
                           ("hobby", VStr "chess")]).
Proof.
  exact (separateMandatoryFields_invariants
           [("name", VObj [("lastName", VStr " Rao ")]);
            ("address", VStr EmptyString);
            ("hobby", VStr "chess")]
           {| name := "Rao"; age := Finite 0; address := None;
              additional_info := Some [("hobby", VStr "chess")] |}
           eq_refl).
Defined.

(** ** The persistable user of a flat record *)

Lemma trimStart_lead (s : string) :
  exists lead, string_forallb isWhiteSpace lead = true
               /\ s = (lead ++ trimStart s)%string.
Proof.
  induction s as [|c s (lead & Hl & Hs)]; cbn [trimStart].
  - exists EmptyString. split; reflexivity.
  - destruct (isWhiteSpace c) eqn:E.
    + exists (String c lead). cbn [string_forallb append]. rewrite E, Hl.
      split; [reflexivity | now rewrite <- Hs].
    + exists EmptyString. split; reflexivity.
Qed.

Lemma trimEnd_trail (s : string) :
  exists trail, string_forallb isWhiteSpace trail = true
                /\ s = (trimEnd s ++ trail)%string.
Proof.
  induction s as [|c s (trail & Ht & Hs)]; cbn [trimEnd].
  - exists EmptyString. split; reflexivity.
  - destruct (trimEnd s) as [|d t] eqn:E.
    + cbn [append] in Hs. destruct (isWhiteSpace c) eqn:Ec.
      * exists (String c trail). cbn [string_forallb append]. rewrite Ec, Ht.
        split; [reflexivity | now rewrite <- Hs].
      * exists trail. cbn [append]. split; [exact Ht | now rewrite <- Hs].
    + exists trail. cbn [append] in *. split; [exact Ht | now rewrite <- Hs].
Qed.

(** What [trim] removes is white space, from both ends. *)
Lemma trim_strips (s : string) :
  exists lead trail,
    string_forallb isWhiteSpace lead = true
    /\ string_forallb isWhiteSpace trail = true
    /\ s = (lead ++ trim s ++ trail)%string.
Proof.
  destruct (trimStart_lead s) as (lead & Hl & Hs).
  destruct (trimEnd_trail (trimStart s)) as (trail & Ht & Hs').
  exists lead, trail. unfold trim. repeat split; auto. now rewrite <- Hs'.
Qed.

(** C5.  Builder then separator.  The flat record of the spec yields the
    user [John Doe], 25, [{city: NYC}], no additional info; a record with
    spaces around the first name, an age followed by letters, an empty
    address and two further keys yields [Rohit], 35, no address and the
    two keys as additional info; an age that does not parse yields 0; and
    an age above 2^53 is stored as the nearest double.  In general, for the
    nested record built from a flat record: [name] is the space-joined
    concatenation of the flat fields [name.firstName] and [name.lastName]
    (the empty string for a field that is not there) without the white
    space at its two ends; [age] is the Number [parseInt] gives for the
    flat field [age], which is the integer read whenever that is at most
    2^53 in magnitude, and 0 when nothing is read or the field is not
    there; [address] is what the nested record holds under [address] (the
    mapping of the [address.*] fields) unless that is missing or the empty
    string, and then null; and [additional_info] maps every top-level key
    other than [name], [age] and [address] to what the nested record holds
    there, holds none of these three, and is null exactly when there is no
    other key. *)
Theorem processRecord_persistable_user :
  processRecord [("name.firstName", "John"); ("name.lastName", "Doe");
                 ("age", "25"); ("address.city", "NYC")]
  = Some (Normal {| name := "John Doe"; age := Finite 25;
                    address := Some (VObj [("city", VStr "NYC")]);
                    additional_info := None |})
  /\ processRecord [("name.firstName", "  Rohit"); ("age", "35yrs"); ("gender", "male");
                    ("address", EmptyString); ("job.title", "dev")]
     = Some (Normal {| name := "Rohit"; age := Finite 35; address := None;
                       additional_info :=
                         Some [("gender", VStr "male");
                               ("job", VObj [("title", VStr "dev")])] |})
  /\ processRecord [("name.lastName", "Rao "); ("age", "n/a")]
     = Some (Normal {| name := "Rao"; age := Finite 0; address := None;
                       additional_info := None |})
  /\ processRecord [("age", "9007199254740993")]
     = Some (Normal {| name := EmptyString; age := Finite 9007199254740992;
                       address := None; additional_info := None |})
  /\ (forall flat nested,
        buildNestedObject flat = Some nested ->
        (forall f l a,
            field flat "name.firstName" f ->
            field flat "name.lastName" l ->
            field flat "age" a ->
            exists user,
              separateMandatoryFields nested = Normal user
              /\ name user = trim (or_default f ++ " " ++ or_default l)
              /\ trimmed (name user) = true
              /\ (exists lead trail,
                     string_forallb isWhiteSpace lead = true
                     /\ string_forallb isWhiteSpace trail = true
                     /\ (or_default f ++ " " ++ or_default l)%string
                        = (lead ++ name user ++ trail)%string)
              /\ age user = match parseInt (or_default a) with
                            | Some z => to_Number z
                            | None => Finite 0
                            end
              /\ (forall z, parseInt (or_default a) = Some z ->
                            (Z.abs z <= 2 ^ 53)%Z -> age user = Finite z)
              /\ (parseInt (or_default a) = None -> age user = Finite 0))
        /\ (forall user,
              separateMandatoryFields nested = Normal user ->
              (forall v, address user = Some v
                         <-> prop_get "address" nested = Some v /\ v <> VStr EmptyString)
              /\ (forall sub v,
                    settles flat ("address." ++ sub) v ->
                    proto_free (segments sub) = true ->
                    exists c, address user = Some (VObj c)
                              /\ get_path (segments sub) c = Some (VStr v))
              /\ (forall k, k = "name" \/ k = "age" \/ k = "address" ->
                            prop_get k (match additional_info user with
                                        | Some info => info
                                        | None => []
                                        end) = None)
              /\ (forall k, k <> "name" -> k <> "age" -> k <> "address" ->
                            prop_get k (match additional_info user with
                                        | Some info => info
                                        | None => []
                                        end) = prop_get k nested)
              /\ (additional_info user = None
                  <-> forall k, In k (prop_keys nested) ->
                                k = "name" \/ k = "age" \/ k = "address"))).
Proof.
  split; [reflexivity|]. split; [reflexivity|]. split; [reflexivity|].
  split; [vm_compute; reflexivity|].
  intros flat nested Hb.
  pose proof (buildNestedObject_well_formed flat nested Hb) as Hwf.
  assert (Hmand : forall k, mandatory_key k = true
                            <-> k = "name" \/ k = "age" \/ k = "address").
  { intros k. unfold mandatory_key. rewrite !orb_true_iff, !String.eqb_eq. tauto. }
  split.
  - intros f l a Hf Hl Ha.
    apply (field_get_path flat nested _ _ Hb) in Hf, Hl, Ha; try reflexivity.
    change (segments "name.firstName") with ["name"; "firstName"] in Hf.
    change (segments "name.lastName") with ["name"; "lastName"] in Hl.
    change (get_path (segments "age") nested) with (prop_get "age" nested) in Ha.
    change (get_path ["name"; "firstName"] nested)
      with (member (prop_get "name" nested) "firstName") in Hf.
    change (get_path ["name"; "lastName"] nested)
      with (member (prop_get "name" nested) "lastName") in Hl.
    unfold separateMandatoryFields. rewrite Hf, Hl, Ha, !or_empty_field.
    assert (Hage : parseInt_or_0 (option_map VStr a)
                   = Normal (match parseInt (or_default a) with
                             | Some z => to_Number z
                             | None => Finite 0
                             end)) by (destruct a; reflexivity).
    rewrite Hage. eexists. split; [reflexivity|]. cbn [name age].
    split; [reflexivity|]. split; [apply trim_trimmed|].
    split; [apply trim_strips|]. split; [reflexivity|]. split.
    + intros z -> Hz. unfold to_Number.
      destruct (Z.abs z <? 2 ^ 53)%Z eqn:E; [reflexivity|].
      apply Z.ltb_ge in E. assert (Hm : Z.abs z = (2 ^ 53)%Z) by lia.
      rewrite Hm. change (Z.log2 (2 ^ 53) - 52)%Z with 1%Z.
      change ((2 ^ 53) / 2 ^ 1)%Z with (2 ^ 52)%Z.
      change ((2 ^ 53) mod 2 ^ 1)%Z with 0%Z.
      change (2 ^ (1 - 1))%Z with 1%Z. cbv beta iota zeta.
      change (0 <? 1)%Z with true. cbv iota.
      change (2 ^ 1024 <=? 2 ^ 52 * 2 ^ 1)%Z with false. cbv iota.
      f_equal. change (2 ^ 52 * 2 ^ 1)%Z with (2 ^ 53)%Z. rewrite <- Hm. lia.
    + now intros ->.
  - intros user Hsep.
    destruct (separateMandatoryFields_fields nested user Hsep)
      as (first & last & _ & _ & _ & _ & Haddr & Hinfo).
    split; [|split; [|split; [|split]]].
    + intros v. rewrite Haddr. unfold truthy.
      destruct (prop_get "address" nested) as [[s|c]|].
      * destruct (String.eqb_spec s EmptyString) as [->|Hne].
        -- split; [discriminate|]. intros [E Hv]. congruence.
        -- split; [intros E; split; [exact E | congruence]|now intros [E _]].
      * split; [intros E; split; [exact E | congruence]|now intros [E _]].
      * split; [discriminate | now intros [E _]].
    + intros sub v Hs Hfree.
      apply (settles_get_path flat nested _ _ Hb) in Hs.
      * rewrite segments_address in Hs.
        destruct (segments sub) as [|k' rest] eqn:E;
          [now apply segments_nonempty in E|].
        rewrite get_path_cons in Hs. rewrite Haddr.
        destruct (prop_get "address" nested) as [[s|c]|]; try discriminate.
        exists c. split; [reflexivity | exact Hs].
      * rewrite segments_address. simpl. exact Hfree.
    + intros k Hk. apply Hmand in Hk.
      assert (E : prop_get k (additional_loop nested []) = None)
        by (now rewrite (additional_info_get nested k Hwf), Hk).
      rewrite Hinfo. now destruct (additional_loop nested []).
    + intros k H1 H2 H3.
      assert (Hk : mandatory_key k = false).
      { destruct (mandatory_key k) eqn:E; [|reflexivity].
        apply Hmand in E. tauto. }
      assert (E : prop_get k (additional_loop nested []) = prop_get k nested)
        by (now rewrite (additional_info_get nested k Hwf), Hk).
      rewrite Hinfo, <- E. now destruct (additional_loop nested []).
    + rewrite Hinfo.
      assert (E : additional_loop nested [] = []
                  <-> forall k, In k (prop_keys nested) ->
                                k = "name" \/ k = "age" \/ k = "address").
      { rewrite (additional_info_empty nested Hwf).
        split; intros H k Hk; apply Hmand; auto. }
      rewrite <- E. destruct (additional_loop nested []); split; congruence.
Qed.

Lemma processRecord_persistable_user_witness :
  exists user,
    separateMandatoryFields
      [("name", VObj [("firstName", VStr "  Rohit")]);
       ("age", VStr "35yrs"); ("gender", VStr "male")] = Normal user
    /\ name user = "Rohit"
    /\ trimmed (name user) = true
    /\ age user = Finite 35.
Proof.
  destruct processRecord_persistable_user as (_ & _ & _ & _ & H).
  destruct (H [("name.firstName", "  Rohit"); ("age", "35yrs"); ("gender", "male")]
              _ eq_refl) as [Hname _].
  destruct (Hname (Some "  Rohit") None (Some "35yrs")) as (user & Hu & Hn & Ht & _ & Ha & _).
  - exists 0. split; [reflexivity|].
    intros [|[|[|[|j]]]] key' value' Hj E; simpl in E; try discriminate; try lia;
      injection E as <- <-; reflexivity.
  - intros key' value' [E|[E|[E|[]]]]; injection E as <- <-; reflexivity.
  - exists 1. split; [reflexivity|].
    intros [|[|[|[|j]]]] key' value' Hj E; simpl in E; try discriminate; try lia;
      injection E as <- <-; reflexivity.
  - exists user. repeat split; assumption.
Defined.

End FlatRecordsFacts.

(* ================================================================== *)
(** * Properties of what the service sends *)
(* ================================================================== *)

Module TracingFacts.
Import Js ObjectBuilder UserService Tracing UserServiceFacts.

Section TracedFacts.
Variable Db : Type.
Variable exec : Db -> Op -> Db * Reply.
Variable JSON_stringify : Value -> string.

#[local] Abbreviation texec := (traced Db exec).
#[local] Abbreviation TDb := (Db * list Op)%type.
#[local] Abbreviation values_of := (values_of JSON_stringify).
#[local] Abbreviation unnest_op := (unnest_op JSON_stringify).

Lemma replay_traced (ops : list Op) :
  forall db log,
    replay TDb texec (db, log) ops
    = let (db', replies) := replay Db exec db ops in ((db', log ++ ops), replies).
Proof.
  induction ops as [|op ops IH]; intros db log; cbn [replay].
  - now rewrite app_nil_r.
  - unfold traced at 1. cbn [fst snd].
    destruct (exec db op) as [db1 reply]. rewrite IH.
    destruct (replay Db exec db1 ops) as [db2 replies].
    now rewrite <- app_assoc.
Qed.

Lemma query_traced (op : Op) (db : Db) (log : list Op) :
  query TDb texec op (db, log)
  = match exec db op with
    | (db', Done n) => ((db', log ++ [op]), Normal n)
    | (db', Failed message) => ((db', log ++ [op]), Throw message)
    end.
Proof.
  unfold query, traced. cbn [fst snd]. now destruct (exec db op) as [db' [n|m]].
Qed.

(** The row-by-row loop sends one [INSERT] for every user, in order,
    whatever the engine answers. *)
Lemma insert_loop_traced (users : list PersistableUser) :
  forall insertedCount failedCount errors db log,
  exists db' result,
    insert_loop TDb texec JSON_stringify users insertedCount failedCount errors (db, log)
    = ((db', log ++ map (fun u => Insert (values_of u)) users), Normal result).
Proof.
  intros i f e db log.
  pose proof (replay_traced (map (fun u => Insert (values_of u)) users) db log) as H.
  destruct (replay Db exec db _) as [db' replies].
  rewrite (insert_loop_replay TDb texec JSON_stringify users i f e _ _ _ H). eauto.
Qed.

(** The loop over the chunks sends the chunks in order up to the first one
    the engine rejects, and ends normally only when it sent them all. *)
Lemma chunks_loop_traced (users : list PersistableUser) (starts : list nat) :
  forall totalInserted db log,
  exists db' result n,
    chunks_loop TDb texec JSON_stringify users starts totalInserted (db, log)
    = ((db', log ++ map unnest_op
                      (firstn n (map (fun i => slice users i (i + chunkSize)) starts))),
       result)
    /\ match result with
       | Normal _ => n = length starts
       | Throw _ => 0 < n <= length starts
       end.
Proof.
  induction starts as [|i starts IH]; intros t db log.
  - exists db, (Normal t), 0. cbn. now rewrite app_nil_r.
  - cbn [chunks_loop]. unfold bind. rewrite query_traced.
    destruct (exec db _) as [db1 [rc|m]].
    + destruct (IH (t + rc) db1 (log ++ [unnest_op (slice users i (i + chunkSize))]))
        as (db' & result & n & E & Hn).
      exists db', result, (S n). rewrite E. split.
      * cbn [map firstn]. now rewrite <- app_assoc.
      * cbn [length]. destruct result; lia.
    + exists db1, (Throw m), 1. cbn [map firstn length]. split; [reflexivity | lia].
Qed.

#[local] Abbreviation erases := (erases Db).

Lemma erases_ret {A : Type} (a : A) : erases (ret TDb a) (ret Db a).
Proof. intros db log. reflexivity. Qed.

Lemma erases_throw {A : Type} (message : string) :
  erases (@throw TDb A message) (throw Db message).
Proof. intros db log. reflexivity. Qed.

Lemma erases_query (op : Op) : erases (query TDb texec op) (query Db exec op).
Proof.
  intros db log. rewrite query_traced. unfold query.
  now destruct (exec db op) as [db' [n|m]].
Qed.

Lemma erases_bind {A B : Type} (mt : M TDb A) (m : M Db A)
    (ft : A -> M TDb B) (f : A -> M Db B) :
  erases mt m -> (forall a, erases (ft a) (f a)) -> erases (bind TDb mt ft) (bind Db m f).
Proof.
  intros Hm Hf db log. unfold bind. specialize (Hm db log).
  destruct (mt (db, log)) as [[db1 log1] r]. cbn [fst snd] in Hm. rewrite <- Hm.
  destruct r as [a|message]; [apply Hf | reflexivity].
Qed.

Lemma erases_try_catch {A : Type} (mt : M TDb A) (m : M Db A)
    (ht : string -> M TDb A) (h : string -> M Db A) :
  erases mt m -> (forall message, erases (ht message) (h message)) ->
  erases (try_catch TDb mt ht) (try_catch Db m h).
Proof.
  intros Hm Hh db log. unfold try_catch. specialize (Hm db log).
  destruct (mt (db, log)) as [[db1 log1] r]. cbn [fst snd] in Hm. rewrite <- Hm.
  destruct r as [a|message]; [reflexivity | apply Hh].
Qed.

Lemma erases_finally {A : Type} (mt : M TDb A) (m : M Db A)
    (ft : M TDb unit) (f : M Db unit) :
  erases mt m -> erases ft f -> erases (finally TDb mt ft) (finally Db m f).
Proof.
  intros Hm Hf db log. unfold finally. specialize (Hm db log).
  destruct (mt (db, log)) as [[db1 log1] r]. cbn [fst snd] in Hm. rewrite <- Hm.
  specialize (Hf db1 log1).
  destruct (ft (db1, log1)) as [[db2 log2] r']. cbn [fst snd] in Hf. rewrite <- Hf.
  now destruct r'.
Qed.

Lemma erases_insert_loop (users : list PersistableUser) :
  forall insertedCount failedCount errors,
    erases (insert_loop TDb texec JSON_stringify users insertedCount failedCount errors)
           (insert_loop Db exec JSON_stringify users insertedCount failedCount errors).
Proof.
  induction users as [|u users IH]; intros i f e; cbn [insert_loop].
  - apply erases_ret.
  - apply erases_bind.
    + apply erases_try_catch.
      * apply erases_bind; [apply erases_query | intros _; apply erases_ret].
      * intros message. apply erases_ret.
    + intros [[i' f'] e']. apply IH.
Qed.

Lemma erases_chunks_loop (users : list PersistableUser) (starts : list nat) :
  forall totalInserted,
    erases (chunks_loop TDb texec JSON_stringify users starts totalInserted)
           (chunks_loop Db exec JSON_stringify users starts totalInserted).
Proof.
  induction starts as [|i starts IH]; intros t; cbn [chunks_loop].
  - apply erases_ret.
  - apply erases_bind; [apply erases_query | intros rowCount; apply IH].
Qed.

Lemma erases_batchInsertUsers (users : list PersistableUser) :
  erases (batchInsertUsers TDb texec JSON_stringify users)
         (batchInsertUsers Db exec JSON_stringify users).
Proof.
  unfold batchInsertUsers.
  apply erases_bind; [apply erases_query | intros _].
  apply erases_finally.
  - apply erases_try_catch.
    + apply erases_bind; [apply erases_query | intros _].
      apply erases_bind; [apply erases_insert_loop | intros [[i f] e]].
      apply erases_bind; [apply erases_query | intros _; apply erases_ret].
    + intros message.
      apply erases_bind; [apply erases_query | intros _; apply erases_throw].
  - apply erases_bind; [apply erases_query | intros _; apply erases_ret].
Qed.

Lemma erases_optimizedBatchInsert (users : list PersistableUser) :
  erases (optimizedBatchInsert TDb texec JSON_stringify users)
         (optimizedBatchInsert Db exec JSON_stringify users).
Proof.
  unfold optimizedBatchInsert.
  apply erases_bind; [apply erases_query | intros _].
  apply erases_finally.
  - apply erases_try_catch.
    + apply erases_bind; [apply erases_query | intros _].
      apply erases_bind; [apply erases_chunks_loop | intros t].
      apply erases_bind; [apply erases_query | intros _; apply erases_ret].
    + intros message.
      apply erases_bind; [apply erases_query | intros _; apply erases_throw].
  - apply erases_bind; [apply erases_query | intros _; apply erases_ret].
Qed.

Lemma query_traced_done (op : Op) (db db' : Db) (log : list Op) (n : nat) :
  exec db op = (db', Done n) ->
  query TDb texec op (db, log) = ((db', log ++ [op]), Normal n).
Proof. intros H. rewrite query_traced. now rewrite H. Qed.

Lemma query_traced_failed (op : Op) (db db' : Db) (log : list Op) (message : string) :
  exec db op = (db', Failed message) ->
  query TDb texec op (db, log) = ((db', log ++ [op]), Throw message).
Proof. intros H. rewrite query_traced. now rewrite H. Qed.

Lemma replay_traced_to (ops : list Op) (db db' : Db) (log : list Op) (replies : list Reply) :
  replay Db exec db ops = (db', replies) ->
  replay TDb texec (db, log) ops = ((db', log ++ ops), replies).
Proof. intros H. rewrite replay_traced. now rewrite H. Qed.

Ltac granted H :=
  unfold bind at 1; rewrite (query_traced_done _ _ _ _ _ H); cbv beta iota zeta.
Ltac denied H :=
  unfold bind at 1; rewrite (query_traced_failed _ _ _ _ _ H); cbv beta iota zeta.
Ltac finish := repeat rewrite <- app_assoc; cbn [app]; reflexivity.
Ltac closing :=
  unfold bind at 1; rewrite query_traced;
  match goal with
  | |- context [exec ?d ?o] => destruct (exec d o) as [? [?|?]]
  end; cbv beta iota zeta; unfold ret, throw; cbv beta iota zeta; cbn [fst snd];
  rewrite <- ?app_assoc; cbn [app].

(** X13.  What [batchInsertUsers] sends, by what the engine answers (the
    run on the logging engine is the run on the engine itself).  A refused
    connection: the connect alone, and its error is thrown as it is.  A
    refused [BEGIN]: [BEGIN], [ROLLBACK] and the release, no [INSERT].
    Otherwise [BEGIN], one [INSERT] for every user in order, each attempted
    once whatever was answered to the others, then [COMMIT], then
    [ROLLBACK] exactly when [COMMIT] was refused, and the release of the
    connection, once and last. *)
Theorem batchInsertUsers_operations (users : list PersistableUser) (db : Db) :
  let run := batchInsertUsers TDb texec JSON_stringify users (db, []) in
  let ops := snd (fst run) in
  let inserts := map (fun u => Insert (values_of u)) users in
  (fst (fst run), snd run) = batchInsertUsers Db exec JSON_stringify users db
  /\ (forall d message,
        exec db Connect = (d, Failed message) ->
        ops = [Connect] /\ snd run = Throw message)
  /\ (forall d c d' message,
        exec db Connect = (d, Done c) ->
        exec d Begin = (d', Failed message) ->
        ops = [Connect; Begin; Rollback; Release])
  /\ (forall d c d2 b d3 replies,
        exec db Connect = (d, Done c) ->
        exec d Begin = (d2, Done b) ->
        replay Db exec d2 inserts = (d3, replies) ->
        (forall d4 k, exec d3 Commit = (d4, Done k) ->
                      ops = Connect :: Begin :: inserts ++ [Commit; Release])
        /\ (forall d4 message,
              exec d3 Commit = (d4, Failed message) ->
              ops = Connect :: Begin :: inserts ++ [Commit; Rollback; Release])).
Proof.
  cbv zeta. split; [apply erases_batchInsertUsers|]. unfold batchInsertUsers.
  split; [|split].
  - intros d message Hc. unfold bind.
    rewrite !(query_traced_failed _ _ _ _ _ Hc). split; reflexivity.
  - intros d c d' message Hc Hb. granted Hc. unfold finally, try_catch.
    denied Hb. closing; closing; finish.
  - intros d c d2 b d3 replies Hc Hb Hr. split.
    + intros d4 k Hk. granted Hc. unfold finally, try_catch. granted Hb.
      unfold bind at 1.
      rewrite (insert_loop_replay TDb texec JSON_stringify users 0 0 [] _ _ _
                 (replay_traced_to _ _ _ _ _ Hr)).
      cbv beta iota zeta. granted Hk. unfold ret at 1. cbv beta iota zeta.
      closing; finish.
    + intros d4 message Hk. granted Hc. unfold finally, try_catch. granted Hb.
      unfold bind at 1.
      rewrite (insert_loop_replay TDb texec JSON_stringify users 0 0 [] _ _ _
                 (replay_traced_to _ _ _ _ _ Hr)).
      cbv beta iota zeta. denied Hk. closing; closing; finish.
Qed.

(** X14.  What [optimizedBatchInsert] sends, by what the engine answers.
    A refused connection: the connect alone, and its error is thrown as it
    is.  A refused [BEGIN]: [BEGIN], [ROLLBACK] and the release.  A chunk
    refused after the chunks before it were accepted: [BEGIN], those
    chunks, the refused chunk as the last one sent, [ROLLBACK] and the
    release, no [COMMIT].  Every chunk accepted: [BEGIN], all the chunks in
    order, [COMMIT], then [ROLLBACK] exactly when [COMMIT] was refused, and
    the release, once and last. *)
Theorem optimizedBatchInsert_operations (users : list PersistableUser) (db : Db) :
  let run := optimizedBatchInsert TDb texec JSON_stringify users (db, []) in
  let ops := snd (fst run) in
  let chunks := map unnest_op (chunks_of users) in
  (fst (fst run), snd run) = optimizedBatchInsert Db exec JSON_stringify users db
  /\ (forall d message,
        exec db Connect = (d, Failed message) ->
        ops = [Connect] /\ snd run = Throw message)
  /\ (forall d c d' message,
        exec db Connect = (d, Done c) ->
        exec d Begin = (d', Failed message) ->
        ops = [Connect; Begin; Rollback; Release])
  /\ (forall d c d2 b,
        exec db Connect = (d, Done c) ->
        exec d Begin = (d2, Done b) ->
        (forall pre chunk post d3 replies d3' message,
            chunks_of users = pre ++ chunk :: post ->
            replay Db exec d2 (map unnest_op pre) = (d3, replies) ->
            forallb is_done replies = true ->
            exec d3 (unnest_op chunk) = (d3', Failed message) ->
            ops = Connect :: Begin :: map unnest_op pre
                  ++ [unnest_op chunk; Rollback; Release])
        /\ (forall d3 replies,
              replay Db exec d2 chunks = (d3, replies) ->
              forallb is_done replies = true ->
              (forall d4 k, exec d3 Commit = (d4, Done k) ->
                            ops = Connect :: Begin :: chunks ++ [Commit; Release])
              /\ (forall d4 message,
                    exec d3 Commit = (d4, Failed message) ->
                    ops = Connect :: Begin :: chunks ++ [Commit; Rollback; Release]))).
Proof.
  cbv zeta. split; [apply erases_optimizedBatchInsert|]. unfold optimizedBatchInsert.
  split; [|split].
  - intros d message Hc. unfold bind.
    rewrite !(query_traced_failed _ _ _ _ _ Hc). split; reflexivity.
  - intros d c d' message Hc Hb. granted Hc. unfold finally, try_catch.
    denied Hb. closing; closing; finish.
  - intros d c d2 b Hc Hb. split.
    + intros pre chunk post d3 replies d3' message Hsplit Hr Hd Hf.
      granted Hc. unfold finally, try_catch. granted Hb. unfold bind at 1.
      rewrite (chunks_loop_failed TDb texec JSON_stringify users _ 0 _ pre chunk post
                 _ replies (d3', (([] ++ [Connect]) ++ [Begin]) ++ map unnest_op pre
                                 ++ [unnest_op chunk]) message Hsplit
                 (replay_traced_to _ _ _ _ _ Hr) Hd).
      2:{ unfold traced. cbn [fst snd]. rewrite Hf. now rewrite <- app_assoc. }
      cbv beta iota zeta. closing; closing; finish.
    + intros d3 replies Hr Hd. split.
      * intros d4 k Hk. granted Hc. unfold finally, try_catch. granted Hb.
        unfold bind at 1.
        rewrite (chunks_loop_done TDb texec JSON_stringify users _ 0 _ _ replies
                   (replay_traced_to _ _ _ _ _ Hr) Hd).
        cbv beta iota zeta. granted Hk. unfold ret at 1. cbv beta iota zeta.
        closing; finish.
      * intros d4 message Hk. granted Hc. unfold finally, try_catch. granted Hb.
        unfold bind at 1.
        rewrite (chunks_loop_done TDb texec JSON_stringify users _ 0 _ _ replies
                   (replay_traced_to _ _ _ _ _ Hr) Hd).
        cbv beta iota zeta. denied Hk. closing; closing; finish.
Qed.

(** ** The result of the row-by-row path *)

Ltac run_exec H :=
  repeat match type of H with
         | context [exec ?d ?o] =>
             let E := fresh "E" in
             destruct (exec d o) as [? [?|?]] eqn:E; cbv beta iota zeta in H
         end.

(** A result is returned only when the connection, [BEGIN], [COMMIT] and
    the release were all granted. *)
Lemma batchInsertUsers_granted (users : list PersistableUser)
    (db db' : Db) (result : InsertResult) :
  batchInsertUsers Db exec JSON_stringify users db = (db', Normal result) ->
  exists db1 c db2 b db3 replies db4 k r,
    exec db Connect = (db1, Done c)
    /\ exec db1 Begin = (db2, Done b)
    /\ replay Db exec db2 (map (fun u => Insert (values_of u)) users) = (db3, replies)
    /\ exec db3 Commit = (db4, Done k)
    /\ exec db4 Release = (db', Done r)
    /\ result = {| success := true;
                   inserted := inserted_in replies;
                   failed := failed_in replies;
                   errors := match error_entries users replies with
                             | [] => None
                             | entries => Some entries
                             end |}.
Proof.
  intros H.
  unfold batchInsertUsers, bind at 1, finally, try_catch, bind at 1, query in H.
  destruct (exec db Connect) as [db1 [c|m]] eqn:Ec; cbv beta iota zeta in H;
    [|discriminate].
  destruct (exec db1 Begin) as [db2 [b|m]] eqn:Eb; cbv beta iota zeta in H.
  2:{ unfold bind, query, throw, ret in H. run_exec H; discriminate. }
  unfold bind at 1 in H.
  destruct (replay Db exec db2 (map (fun u => Insert (values_of u)) users))
    as [db3 replies] eqn:Er.
  rewrite (insert_loop_replay Db exec JSON_stringify users 0 0 [] db2 db3 replies Er) in H.
  cbv beta iota zeta in H. unfold bind, query, throw, ret in H.
  destruct (exec db3 Commit) as [db4 [k|m]] eqn:Ek; cbv beta iota zeta in H.
  2:{ run_exec H; discriminate. }
  destruct (exec db4 Release) as [db5 [r|m]] eqn:Erel; cbv beta iota zeta in H;
    [|discriminate].
  injection H as <- <-.
  exists db1, c, db2, b, db3, replies, db4, k, r. repeat split; auto.
  cbn [app Nat.add]. now destruct (error_entries users replies).
Qed.

Lemma replies_account (users : list PersistableUser) (replies : list Reply) :
  length replies = length users ->
  inserted_in replies + failed_in replies = length users
  /\ (match error_entries users replies with [] => None | entries => Some entries end
      = None <-> failed_in replies = 0)
  /\ (forall entries,
         match error_entries users replies with [] => None | entries => Some entries end
         = Some entries -> length entries = failed_in replies).
Proof.
  intros Hlen. pose proof (error_entries_length users replies Hlen) as He.
  split; [now rewrite inserted_failed_length|]. split.
  - destruct (error_entries users replies) as [|e es]; cbn [length] in He.
    + split; auto.
    + split; [discriminate | lia].
  - intros entries. destruct (error_entries users replies) as [|e es]; [discriminate|].
    intros Hs. injection Hs as <-. exact He.
Qed.

(** X15.  A result of [batchInsertUsers] accounts for every user: it is
    returned only when the connection, [BEGIN], [COMMIT] and the release
    were all granted; then [inserted] and [failed] add up to the number of
    users, and [errors] is [null] exactly when nothing failed and holds one
    entry per failed row otherwise. *)
Theorem batchInsertUsers_result_accounts (users : list PersistableUser)
    (db db' : Db) (result : InsertResult) :
  batchInsertUsers Db exec JSON_stringify users db = (db', Normal result) ->
  success result = true
  /\ inserted result + failed result = length users
  /\ (errors result = None <-> failed result = 0)
  /\ (forall entries, errors result = Some entries -> length entries = failed result)
  /\ exists db1 c db2 b db3 db4 k r,
       exec db Connect = (db1, Done c)
       /\ exec db1 Begin = (db2, Done b)
       /\ fst (replay Db exec db2 (map (fun u => Insert (values_of u)) users)) = db3
       /\ exec db3 Commit = (db4, Done k)
       /\ exec db4 Release = (db', Done r).
Proof.
  intros H.
  destruct (batchInsertUsers_granted users db db' result H)
    as (db1 & c & db2 & b & db3 & replies & db4 & k & r & Hc & Hb & Hr & Hk & Hrel & ->).
  assert (Hlen : length replies = length users).
  { pose proof (replay_length Db exec (map (fun u => Insert (values_of u)) users) db2) as H'.
    rewrite Hr, length_map in H'. exact H'. }
  destruct (replies_account users replies Hlen) as (Hsum & Hnone & Hsome).
  cbn [success inserted failed errors]. repeat split; try tauto; auto.
  exists db1, c, db2, b, db3, db4, k, r. rewrite Hr. auto.
Qed.

(** The bulk path reports no failure when it returns. *)
Lemma optimizedBatchInsert_normal (users : list PersistableUser)
    (db db' : Db) (result : InsertResult) :
  optimizedBatchInsert Db exec JSON_stringify users db = (db', Normal result) ->
  failed result = 0 /\ errors result = None.
Proof.
  intros H.
  unfold optimizedBatchInsert, bind at 1, finally, try_catch, bind at 1, query in H.
  destruct (exec db Connect) as [db1 [c|m]] eqn:Ec; cbv beta iota zeta in H;
    [|discriminate].
  destruct (exec db1 Begin) as [db2 [b|m]] eqn:Eb; cbv beta iota zeta in H.
  2:{ unfold bind, query, throw, ret in H. run_exec H; discriminate. }
  unfold bind at 1 in H.
  destruct (chunks_loop Db exec JSON_stringify users _ 0 db2) as [db3 [n|m]] eqn:E;
    unfold bind, query, throw, ret in H; cbv beta iota zeta in H;
    run_exec H; try discriminate.
  injection H as <- <-. split; reflexivity.
Qed.

(** ** The errors that leave the service *)

#[local] Abbreviation refused := (refused Db exec).

(** The loop over the chunks throws only the message of a chunk the
    engine refused. *)
Lemma chunks_loop_throws (users : list PersistableUser) (starts : list nat) :
  forall totalInserted db db' message,
    chunks_loop Db exec JSON_stringify users starts totalInserted db = (db', Throw message) ->
    exists i d, In i starts
                /\ exec d (unnest_op (slice users i (i + chunkSize))) = (db', Failed message).
Proof.
  induction starts as [|i starts IH]; intros t db db' message H; cbn [chunks_loop] in H.
  - discriminate H.
  - unfold bind, query in H.
    destruct (exec db (unnest_op (slice users i (i + chunkSize)))) as [db1 [rc|m]] eqn:E.
    + destruct (IH _ _ _ _ H) as (j & d & Hj & Hd). exists j, d. split; [now right | exact Hd].
    + injection H as <- <-. exists i, db. split; [now left | exact E].
Qed.


End TracedFacts.

(** ** The columns of the bulk path *)

Section Columns.
Variable JSON_stringify : Value -> string.

#[local] Abbreviation values_of := (values_of JSON_stringify).
#[local] Abbreviation unnest_op := (unnest_op JSON_stringify).

Lemma rows_of_unnest_op (chunk : list PersistableUser) :
  rows_of (unnest_op chunk) = map values_of chunk.
Proof.
  unfold unnest_op, UserService.unnest_op, rows_of.
  induction chunk as [|u chunk IH]; cbn [map TableEngine.unnest]; [reflexivity|].
  now rewrite IH.
Qed.

(** X17.  The two paths carry the same rows: the four columns of a chunk
    are aligned, so that [UNNEST] gives back one row per user with the
    fields [INSERT] would have sent for it, and over all the chunks these
    are the rows of the row-by-row path, every user once and in order. *)
Theorem bulk_path_carries_the_same_rows (users : list PersistableUser) :
  (forall chunk names ages addresses additionalInfos,
      unnest_op chunk = InsertUnnest names ages addresses additionalInfos ->
      length names = length chunk /\ length ages = length chunk
      /\ length addresses = length chunk /\ length additionalInfos = length chunk)
  /\ flat_map rows_of (map unnest_op (chunks_of users)) = map values_of users
  /\ flat_map rows_of (map (fun u => Insert (values_of u)) users) = map values_of users.
Proof.
  split; [|split].
  - intros chunk names ages addresses additionalInfos H.
    unfold unnest_op, UserService.unnest_op in H. injection H as <- <- <- <-.
    now rewrite !length_map.
  - rewrite <- (proj1 (chunks_of_partition users)) at 2.
    induction (chunks_of users) as [|chunk chunks IH]; [reflexivity|].
    cbn [map flat_map concat]. now rewrite map_app, IH, rows_of_unnest_op.
  - induction users as [|u users IH]; [reflexivity|].
    cbn [map flat_map rows_of app]. now rewrite IH.
Qed.

End Columns.

Import TableEngine.

Lemma batchInsertUsers_operations_witness :
  snd (fst (batchInsertUsers (PostgresEngine.Db * list Op)
              (traced PostgresEngine.Db PostgresEngine.exec) json_text ten_users
              (PostgresEngine.table [], [])))
  = Connect :: Begin :: map (fun u => Insert (values_of json_text u)) ten_users
    ++ [Commit; Release].
Proof.
  destruct (batchInsertUsers_operations PostgresEngine.Db PostgresEngine.exec json_text
              ten_users (PostgresEngine.table [])) as (_ & _ & _ & H).
  destruct (H (PostgresEngine.table []) 0
              {| PostgresEngine.rows := []; PostgresEngine.block := Some [];
                 PostgresEngine.aborted := false |} 0
              (fst (UserService.replay PostgresEngine.Db PostgresEngine.exec
                      {| PostgresEngine.rows := []; PostgresEngine.block := Some [];
                         PostgresEngine.aborted := false |}
                      (map (fun u => Insert (values_of json_text u)) ten_users)))
              (snd (UserService.replay PostgresEngine.Db PostgresEngine.exec
                      {| PostgresEngine.rows := []; PostgresEngine.block := Some [];
                         PostgresEngine.aborted := false |}
                      (map (fun u => Insert (values_of json_text u)) ten_users)))
              eq_refl eq_refl (surjective_pairing _)) as [Hk _].
  exact (Hk (PostgresEngine.table []) 0 eq_refl).
Defined.

Lemma optimizedBatchInsert_operations_witness :
  snd (fst (optimizedBatchInsert (PostgresEngine.Db * list Op)
              (traced PostgresEngine.Db PostgresEngine.exec) json_text six_thousand_users
              (PostgresEngine.table [], [])))
  = Connect :: Begin
    :: map (unnest_op json_text) (firstn 5 (chunks_of six_thousand_users))
    ++ [unnest_op json_text (skipn 5000 six_thousand_users); Rollback; Release].
Proof.
  destruct (optimizedBatchInsert_operations PostgresEngine.Db PostgresEngine.exec json_text
              six_thousand_users (PostgresEngine.table [])) as (_ & _ & _ & H).
  destruct (H (PostgresEngine.table []) 0
              {| PostgresEngine.rows := []; PostgresEngine.block := Some [];
                 PostgresEngine.aborted := false |} 0 eq_refl eq_refl) as [Hf _].
  apply (Hf (firstn 5 (chunks_of six_thousand_users))
            (skipn 5000 six_thousand_users) []
            (fst (UserService.replay PostgresEngine.Db PostgresEngine.exec
                    {| PostgresEngine.rows := []; PostgresEngine.block := Some [];
                       PostgresEngine.aborted := false |}
                    (map (unnest_op json_text) (firstn 5 (chunks_of six_thousand_users)))))
            (snd (UserService.replay PostgresEngine.Db PostgresEngine.exec
                    {| PostgresEngine.rows := []; PostgresEngine.block := Some [];
                       PostgresEngine.aborted := false |}
                    (map (unnest_op json_text) (firstn 5 (chunks_of six_thousand_users)))))
            {| PostgresEngine.rows :=
                 map (values_of json_text) (firstn 5000 six_thousand_users);
               PostgresEngine.block := Some []; PostgresEngine.aborted := true |}
            out_of_range).
  - vm_compute. reflexivity.
  - apply surjective_pairing.
  - vm_compute. reflexivity.
  - vm_compute. reflexivity.
Defined.

(** The operations sent for ten users, the fourth of which the table
    rejects: every row is attempted, and the transaction is committed. *)
Example batchInsertUsers_operations_run :
  snd (fst (batchInsertUsers (Db * list Op) (traced Db exec) json_text ten_users
              (empty_table, [])))
  = Connect :: Begin :: map (fun u => Insert (values_of json_text u)) ten_users
    ++ [Commit; Release].
Proof. vm_compute. reflexivity. Qed.

(** The operations sent for 6000 users, the 5001st of which the table
    rejects: the sixth chunk is the last one sent, and the transaction is
    rolled back. *)
Example optimizedBatchInsert_operations_run :
  snd (fst (optimizedBatchInsert (Db * list Op) (traced Db exec) json_text
              six_thousand_users (empty_table, [])))
  = Connect :: Begin
    :: firstn 6 (map (unnest_op json_text) (chunks_of six_thousand_users))
    ++ [Rollback; Release].
Proof. vm_compute. reflexivity. Qed.


Lemma batchInsertUsers_result_accounts_witness :
  success {| success := true; inserted := 9; failed := 1;
             errors := Some [{| user := "u4"; error := out_of_range |}] |} = true
  /\ 9 + 1 = length ten_users
  /\ (Some [{| user := "u4"; error := out_of_range |}] = None <-> 1 = 0).
Proof.
  pose proof (batchInsertUsers_result_accounts Db exec json_text ten_users empty_table
                {| rows := map (values_of json_text)
                             (firstn 3 ten_users ++ skipn 4 ten_users);
                   saved := None |}
                {| success := true; inserted := 9; failed := 1;
                   errors := Some [{| user := "u4"; error := out_of_range |}] |}
                eq_refl) as H.
  exact (conj (proj1 H) (conj (proj1 (proj2 H)) (proj1 (proj2 (proj2 H))))).
Defined.

End TracingFacts.

(* ================================================================== *)
(** * Properties of the printed report and of the routes *)
(* ================================================================== *)

Module AgeReportFacts.
Import Js AgeDistribution AgeReport JsFacts AgeDistributionFacts.

Lemma calculate_counts (users : list UserRow) (g : string) :
  In g groups ->
  prop_get g (fst (forEach_user users zero_distribution [])) = Some (count_in g users).
Proof.
  intros Hg.
  destruct (forEach_user_counts users zero_distribution [] eq_refl) as (_ & Hget & _).
  assert (H0 : prop_get g zero_distribution = Some 0).
  { cbn [groups In] in Hg.
    destruct Hg as [<-|[<-|[<-|[<-|[]]]]]; reflexivity. }
  now rewrite (Hget g 0 H0).
Qed.

Lemma report_rows_of_calculate (users : list UserRow) (gs : list string) :
  (forall g, In g gs -> In g groups) ->
  forall console,
    report_rows gs (fst (forEach_user users zero_distribution []))
      (map (fun entry => (fst entry, percentage (snd entry) (length users)))
           (fst (forEach_user users zero_distribution [])))
      console
    = (console
       ++ map (fun g => report_row g (count_in g users)
                          (percentage (count_in g users) (length users))) gs,
       Normal tt).
Proof.
  induction gs as [|g gs IH]; intros Hgs console; cbn [report_rows map].
  - now rewrite app_nil_r.
  - rewrite (prop_get_map_values (fun count => percentage count (length users))).
    rewrite (calculate_counts users g (Hgs g (or_introl eq_refl))).
    cbn [option_map]. rewrite IH by (intros g' Hg'; apply Hgs; now right).
    now rewrite <- app_assoc.
Qed.

Lemma printReport_nonempty (users : list UserRow) :
  users <> [] ->
  printReport (fst (calculate users))
  = (report_heading (nat_to_string (length users))
     ++ map (fun g => report_row g (count_in g users)
                        (percentage (count_in g users) (length users))) groups
     ++ [report_footer],
     Normal tt).
Proof.
  intros Hne. rewrite (calculate_nonempty users Hne). cbn [fst printReport].
  rewrite (report_rows_of_calculate users groups (fun g H => H)).
  now rewrite <- app_assoc.
Qed.

(** X18.  The report of an empty table cannot be printed: on the bare
    mapping that [calculate] returns for no users, [printReport] prints a
    heading with [Total Users: undefined] and then throws a TypeError;
    for any other input it prints the heading with the number of users,
    one row per group with its count and percentage, and the footer. *)
Theorem printReport_of_calculate (users : list UserRow) :
  (users = [] ->
   printReport (fst (calculate users))
   = (report_heading "undefined", Throw (undefined_read "<20")))
  /\ (users <> [] ->
      printReport (fst (calculate users))
      = (report_heading (nat_to_string (length users))
         ++ map (fun g => report_row g (count_in g users)
                            (percentage (count_in g users) (length users))) groups
         ++ [report_footer],
         Normal tt)).
Proof.
  split.
  - intros ->. reflexivity.
  - apply printReport_nonempty.
Qed.

Lemma printReport_of_calculate_witness :
  printReport (fst (calculate [{| age := AgeNumber 25 |}; {| age := AgeString "n/a" |}]))
  = ([String LF (repeat_char "=" 50);
      report_title;
      repeat_char "=" 50;
      ("Total Users: 2" ++ String LF EmptyString)%string;
      "Age Group     | Count    | % Distribution";
      repeat_char "-" 50;
      "<20           | 0        | 0.00%";
      "20-40         | 1        | 50.00%";
      "40-60         | 0        | 0.00%";
      ">60           | 0        | 0.00%";
      report_footer],
     Normal tt).
Proof.
  exact (proj2 (printReport_of_calculate
                  [{| age := AgeNumber 25 |}; {| age := AgeString "n/a" |}])
               ltac:(discriminate)).
Defined.

End AgeReportFacts.

Module UploadRoutesFacts.
Import Js CSVParser CSVFormat ObjectBuilder UserService AgeReport UploadRoutes.
Import JsFacts UserServiceFacts TracingFacts AgeReportFacts.

Lemma processRecords_length (records : list FlatRecord) :
  forall users, processRecords records = Some (Normal users) ->
                length users = length records.
Proof.
  induction records as [|record records IH]; intros users H; cbn [processRecords] in H.
  - injection H as <-. reflexivity.
  - destruct (processRecord record) as [[u|m]|]; try discriminate.
    destruct (processRecords records) as [[us|m]|]; try discriminate.
    injection H as <-. cbn [length]. now rewrite (IH us eq_refl).
Qed.

Section HandlersFacts.
Variable readFile : option string -> ReadResult.
Variable Db : Type.
Variable exec : Db -> Op -> Db * Reply.
Variable select_age : Db -> Db * completion (list AgeDistribution.UserRow).
Variable JSON_stringify : Value -> string.

#[local] Abbreviation process := (process readFile Db exec select_age JSON_stringify).
#[local] Abbreviation insert_users := (insert_users Db exec JSON_stringify).
#[local] Abbreviation distribution := (distribution Db select_age).

(** X19.  An upload is answered with 200 only when the table holds a row
    at the time the distribution is read.  When it holds none (a file
    without data rows sent to an empty table, say), the batch is committed,
    and yet [POST /process] answers 500 with the TypeError of the report,
    while [GET /distribution] answers 200 with the bare mapping on the same
    table. *)
Theorem process_fails_on_an_empty_table (csvPath : option string)
    (startTime endTime : Z)
    (records : list FlatRecord) (users : list PersistableUser)
    (db db1 db2 : Db) (result : InsertResult) :
  fst (parseCSV readFile csvPath) = Normal records ->
  processRecords records = Some (Normal users) ->
  insert_users users db = (db1, Normal result) ->
  select_age db1 = (db2, Normal []) ->
  process csvPath startTime endTime db
  = Some (db2, {| status := 500;
                  body := Failure "Failed to process CSV" (undefined_read "<20") |})
  /\ distribution db1
     = (db2, {| status := 200;
                body := Distribution (AgeDistribution.Flat AgeDistribution.zero_distribution) |}).
Proof.
  intros Hparse Hrecords Hinsert Hselect.
  unfold UploadRoutes.process, UploadRoutes.distribution, getDistributionFromDB.
  rewrite Hparse, Hrecords, Hinsert, Hselect. split; reflexivity.
Qed.

(** X20.  The statistics of a processed upload: [totalRecords] is the
    number of records parsed from the file; up to 5000 records the
    row-by-row path is taken, [inserted] and [failed] add up to
    [totalRecords] and [errors] is [null] exactly when nothing failed;
    above 5000 the bulk path is taken, and [failed] is 0 and [errors]
    [null] whatever was inserted.  The distribution of such a response is
    never the bare mapping. *)
Theorem process_statistics (csvPath : option string) (startTime endTime : Z)
    (db db' : Db) (response : Response) :
  process csvPath startTime endTime db = Some (db', response) ->
  status response = 200 ->
  exists records statistics counts percentages total errors,
    fst (parseCSV readFile csvPath) = Normal records
    /\ body response
       = Processed statistics (AgeDistribution.Wrapped counts percentages total) errors
    /\ totalRecords statistics = length records
    /\ 0 < total
    /\ (length records <= 5000 ->
        stat_inserted statistics + stat_failed statistics = length records
        /\ (errors = None <-> stat_failed statistics = 0))
    /\ (5000 < length records -> stat_failed statistics = 0 /\ errors = None).
Proof.
  unfold UploadRoutes.process. intros H Hstatus.
  destruct (fst (parseCSV readFile csvPath)) as [records|m] eqn:Hparse;
    [|injection H as <- <-; discriminate Hstatus].
  destruct (processRecords records) as [[users|m]|] eqn:Hrecords;
    [|injection H as <- <-; discriminate Hstatus|discriminate H].
  pose proof (processRecords_length records users Hrecords) as Hlen.
  destruct (UploadRoutes.insert_users Db exec JSON_stringify users db)
    as [db1 [result|m]] eqn:Hinsert;
    [|injection H as <- <-; discriminate Hstatus].
  unfold getDistributionFromDB in H.
  destruct (select_age db1) as [db2 [rows|m]] eqn:Hselect;
    [|injection H as <- <-; discriminate Hstatus].
  destruct rows as [|row rows].
  { cbn in H. injection H as <- <-. discriminate Hstatus. }
  assert (Hne : row :: rows <> []) by discriminate.
  rewrite (printReport_nonempty (row :: rows) Hne) in H. cbn [snd] in H.
  rewrite (AgeDistributionFacts.calculate_nonempty (row :: rows) Hne) in H.
  cbn [fst] in H. injection H as <- <-.
  eexists records, _, _, _, _, _. split; [reflexivity|].
  split; [reflexivity|]. cbn [totalRecords stat_inserted stat_failed].
  split; [reflexivity|]. split; [cbn [length]; lia|].
  unfold UploadRoutes.insert_users in Hinsert. rewrite Hlen in Hinsert. split.
  - intros Hsmall. apply Nat.ltb_ge in Hsmall. rewrite Hsmall in Hinsert.
    destruct (batchInsertUsers_granted Db exec JSON_stringify users db db1 result Hinsert)
      as (d1 & c & d2 & b & d3 & replies & d4 & k & r & _ & _ & Hr & _ & _ & ->).
    assert (Hreplies : length replies = length users).
    { pose proof (replay_length Db exec
                    (map (fun u => Insert (values_of JSON_stringify u)) users) d2) as H'.
      rewrite Hr, length_map in H'. exact H'. }
    destruct (replies_account users replies Hreplies) as (Hsum & Hnone & _).
    cbn [inserted failed errors]. rewrite <- Hlen. split; [exact Hsum | exact Hnone].
  - intros Hlarge. apply Nat.ltb_lt in Hlarge. rewrite Hlarge in Hinsert.
    exact (optimizedBatchInsert_normal Db exec JSON_stringify users db db1 result Hinsert).
Qed.

End HandlersFacts.

Import TableEngine.

Lemma process_fails_on_an_empty_table_witness :
  process header_only Db exec table_select_age json_text (Some "users.csv") 0 10 empty_table
  = Some (empty_table,
          {| status := 500;
             body := Failure "Failed to process CSV" (undefined_read "<20") |})
  /\ distribution Db table_select_age empty_table
     = (empty_table,
        {| status := 200;
           body := Distribution (AgeDistribution.Flat AgeDistribution.zero_distribution) |}).
Proof.
  apply (process_fails_on_an_empty_table header_only Db exec table_select_age json_text
           (Some "users.csv") 0 10 [] [] empty_table empty_table empty_table
           {| success := true; inserted := 0; failed := 0; errors := None |});
    reflexivity.
Defined.

Lemma process_statistics_witness :
  exists records statistics counts percentages total errors,
    fst (parseCSV two_rows (Some "users.csv")) = Normal records
    /\ body {| status := 200;
               body :=
                 Processed
                   {| totalRecords := 2; stat_inserted := 1; stat_failed := 1;
                      processingTime := "1.23s" |}
                   (AgeDistribution.Wrapped
                      [("<20", 0); ("20-40", 1); ("40-60", 0); (">60", 0)]
                      [("<20", "0.00"); ("20-40", "100.00"); ("40-60", "0.00");
                       (">60", "0.00")]
                      1)
                   (Some [{| user := "Ravi"; error := out_of_range |}]) |}
       = Processed statistics (AgeDistribution.Wrapped counts percentages total) errors
    /\ totalRecords statistics = length records
    /\ 0 < total
    /\ (length records <= 5000 ->
        stat_inserted statistics + stat_failed statistics = length records
        /\ (errors = None <-> stat_failed statistics = 0))
    /\ (5000 < length records -> stat_failed statistics = 0 /\ errors = None).
Proof.
  apply (process_statistics two_rows Db exec table_select_age json_text
           (Some "users.csv") 1000 2234 empty_table
           {| rows := [{| row_name := "Asha"; row_age := Finite 31; row_address := None;
                          row_additional_info := None |}];
              saved := None |}).
  - vm_compute. reflexivity.
  - reflexivity.
Defined.

End UploadRoutesFacts.
